(** * teacat/i18n: a shallow embedding of the translation core

    The Go package keeps one mutable [I18n] value (the store of compiled
    translations, the runtime cache, the fallback table and the pluralizors)
    and hands out [Locale] views of it.  Here the [I18n] value is passed
    explicitly: every operation that writes to it returns the new value.

    Go maps are [gmap]s.  A [range] over a map visits the keys in an order the
    language leaves open, so the loops whose effect can depend on that order
    take the order as an argument.  Recursion that Go does not bound
    ([lookupBestFallback]) carries a recursion-depth budget. *)

From Stdlib Require Import Ascii.
From stdpp Require Import base numbers option list strings gmap.

Local Open Scope Z_scope.

(** ** The slices of the Go standard library that the package calls *)

Module strings.

(** [s[n:]] and [s[:n]] on byte strings. *)
Fixpoint drop (n : nat) (s : string) : string :=
  match n, s with
  | O, _ => s
  | S n', String _ s' => drop n' s'
  | S _, EmptyString => EmptyString
  end.

Fixpoint take (n : nat) (s : string) : string :=
  match n, s with
  | O, _ => EmptyString
  | S n', String c s' => String c (take n' s')
  | S _, EmptyString => EmptyString
  end.

(** [strings.HasPrefix]. *)
Fixpoint HasPrefix (s prefix : string) : bool :=
  match prefix, s with
  | EmptyString, _ => true
  | String p prefix', String c s' =>
      if decide (c = p) then HasPrefix s' prefix' else false
  | String _ _, EmptyString => false
  end.

(** [strings.Index]: the byte offset of the first instance of [substr] in
    [s]; Go's [-1] is [None]. *)
Fixpoint Index (s substr : string) : option nat :=
  if HasPrefix s substr then Some O
  else match s with
       | EmptyString => None
       | String _ s' => S <$> Index s' substr
       end.

(** [strings.Contains]. *)
Definition Contains (s substr : string) : bool :=
  bool_decide (is_Some (Index s substr)).

(** The loop of [strings.genSplit] for a non-empty separator: cut at the
    first instance of [sep], continue behind it.  Go runs the loop
    [Count(s, sep)] times; [n] bounds the number of cuts. *)
Fixpoint genSplit (n : nat) (s sep : string) : list string :=
  match n with
  | O => [s]
  | S n' =>
      match Index s sep with
      | None => [s]
      | Some m => take m s :: genSplit n' (drop (m + String.length sep) s) sep
      end
  end.

(** [strings.Split(s, sep)] for [sep] other than the empty string (the
    package only splits on [" | "] and ["."]).  A string of length [n] has
    at most [n] instances of a non-empty separator. *)
Definition Split (s sep : string) : list string :=
  genSplit (String.length s) s sep.

Fixpoint mapBytes (f : ascii → ascii) (s : string) : string :=
  match s with
  | EmptyString => EmptyString
  | String c s' => String (f c) (mapBytes f s')
  end.

Fixpoint isASCII (s : string) : bool :=
  match s with
  | EmptyString => true
  | String c s' => (nat_of_ascii c <? 128)%nat && isASCII s'
  end.

Definition lowerByte (c : ascii) : ascii :=
  let n := nat_of_ascii c in
  if ((65 <=? n) && (n <=? 90))%nat then ascii_of_nat (n + 32) else c.

(** [strings.ToLower].  Go lower-cases an all-ASCII string byte by byte and
    sends any other string through the Unicode case tables; the tables are
    not part of this development, so that branch is the parameter
    [unicodeLower]. *)
Definition ToLower (unicodeLower : string → string) (s : string) : string :=
  if isASCII s then mapBytes lowerByte s else unicodeLower s.

(** [strings.ReplaceAll(s, old, new)] for one-byte [old] and [new]. *)
Definition ReplaceAllByte (s : string) (old new : ascii) : string :=
  mapBytes (λ c, if decide (c = old) then new else c) s.

(** [strings.Trim(s, cutset)] for a cutset of one ASCII byte [c]: Go
    returns [trimLeftByte(trimRightByte(s, c), c)]. *)
Fixpoint trimLeftByte (s : string) (c : ascii) : string :=
  match s with
  | String a s' => if decide (a = c) then trimLeftByte s' c else s
  | EmptyString => EmptyString
  end.

Fixpoint trimRightByte (s : string) (c : ascii) : string :=
  match s with
  | EmptyString => EmptyString
  | String a s' =>
      match trimRightByte s' c with
      | EmptyString =>
          if decide (a = c) then EmptyString else String a EmptyString
      | r => String a r
      end
  end.

Definition TrimByte (s : string) (c : ascii) : string :=
  trimLeftByte (trimRightByte s c) c.

End strings.

Module filepath.

(** Strips the leading slashes of a reversed path, that is the trailing
    slashes of the path. *)
Fixpoint dropSlashes (r : string) : string :=
  match r with
  | String c r' => if decide (c = "/"%char) then dropSlashes r' else r
  | EmptyString => EmptyString
  end.

(** Reads a reversed path up to its first slash and returns what it read,
    in path order. *)
Fixpoint lastElement (r acc : string) : string :=
  match r with
  | EmptyString => acc
  | String c r' =>
      if decide (c = "/"%char) then acc else lastElement r' (String c acc)
  end.

(** [filepath.Base] where the separator is ["/"] and there are no volume
    names: ["."] for the empty path, ["/"] for a path of slashes only,
    else the last element with trailing slashes removed. *)
Definition Base (path : string) : string :=
  if decide (path = "") then "."
  else
    let r := dropSlashes (String.rev path) in
    if decide (r = "") then "/" else lastElement r "".

End filepath.

Module regexp.

(** The text after the ["<"] of [contextRegExp], [(.*?)>$]: bytes other than
    a line feed ([.] does not match one), then [">"], then the end of the
    text. *)
Fixpoint matchesTail (s : string) : bool :=
  match s with
  | EmptyString => false
  | String c s' =>
      (bool_decide (c = ">"%char) && bool_decide (s' = ""))
      || (negb (bool_decide (c = "010"%char)) && matchesTail s')
  end.

(** [contextRegExp.ReplaceAllString(v, "")] for
    [contextRegExp = regexp.MustCompile("<(.*?)>$")].  The engine takes the
    leftmost position at which the expression matches; a match ends at the
    end of the text, so it is the only one, and the text from there on is
    replaced by the empty string. *)
Fixpoint removeContext (v : string) : string :=
  match v with
  | EmptyString => EmptyString
  | String c v' =>
      if bool_decide (c = "<"%char) && matchesTail v' then EmptyString
      else String c (removeContext v')
  end.

End regexp.

(** ** The data of the package *)

(** [type Pluralizor func(number, choices int) int].  Go's [int] values are
    integers of the machine's width; the package compares them and does no
    arithmetic on them, so they are read as elements of [Z]. *)
Definition Pluralizor : Type := Z → Z → Z.

(** A function that Go leaves without a result: either it returns, or the
    recursion-depth budget it was given did not suffice.  A call that is
    [OutOfDepth] for every budget is one whose Go recursion never comes
    back (the goroutine stack overflows). *)
Inductive outcome (A : Type) : Type :=
  | Returns (a : A)
  | OutOfDepth.
Global Arguments Returns {A} a.
Global Arguments OutOfDepth {A}.

Definition outcome_bind {A B : Type}
    (m : outcome A) (k : A → outcome B) : outcome B :=
  match m with
  | Returns a => k a
  | OutOfDepth => OutOfDepth
  end.

Notation "x ←! m ; k" := (outcome_bind m (λ x, k))
  (at level 100, m at next level, k at level 200, right associativity).

(** [func defaultPluralizor(number, choices int) int] *)
Definition defaultPluralizor (number choices : Z) : Z :=
  match choices with
  | 2 =>
      match number with
      | 0 | 1 => 0
      | _ => 1
      end
  | _ =>
      match number with
      | 0 => 0
      | 1 => 1
      | _ => 2
      end
  end.

(** [func trimContext(v string) string] *)
Definition trimContext (v : string) : string := regexp.removeContext v.

Section Model.

(** The collaborators of the package: the [text/template] engine
    ([Parse] is [template.New("").Parse] and yields no template when it
    reports an error, [Execute] yields whatever reached the buffer), the
    values handed to templates, Go's [error] values and the Unicode branch
    of [strings.ToLower]. *)
Context {Template Data error : Type}.
Variable Parse : string → option Template.
Variable Execute : Template → option Data → string.
Variable unicodeLower : string → string.

(** [type Unmarshaler func(data []byte, v any) error], called with a
    [*map[string]string] for [v]: it either reports an error or yields the
    decoded map. *)
Definition Unmarshaler : Type := list Byte.byte → error + gmap string string.

(** [type compiledText struct]: [tmpl] is [None] for the nil pointer. *)
Record compiledText : Type := {
  text : string;
  tmpl : option Template
}.

(** [type compiledTranslation struct].  The Go maps hold pointers to these
    structs; a struct is never written once it is built, so a pointer is
    modelled by the value it points to and the nil pointer by [None]. *)
Record compiledTranslation : Type := {
  locale : string;
  name : string;
  pluralizor : Pluralizor;
  texts : list compiledText
}.

(** [type I18n struct] *)
Record I18n : Type := {
  defaultLocale : string;
  pluralizors : gmap string Pluralizor;
  unmarshaler : Unmarshaler;
  fallbacks : gmap string (list string);
  translations : gmap string (gmap string string);
  runtimeCompiledTranslations : gmap string compiledTranslation;
  compiledTranslations : gmap string (gmap string compiledTranslation)
}.

(** [type Locale struct]; the [parent] pointer is the [I18n] value that
    the operations below take and return. *)
Record Locale : Type := { Locale_locale : string }.

Definition set_unmarshaler (u : Unmarshaler) (i : I18n) : I18n :=
  {| defaultLocale := defaultLocale i;
     pluralizors := pluralizors i;
     unmarshaler := u;
     fallbacks := fallbacks i;
     translations := translations i;
     runtimeCompiledTranslations := runtimeCompiledTranslations i;
     compiledTranslations := compiledTranslations i |}.

Definition set_fallbacks (f : gmap string (list string)) (i : I18n) : I18n :=
  {| defaultLocale := defaultLocale i;
     pluralizors := pluralizors i;
     unmarshaler := unmarshaler i;
     fallbacks := f;
     translations := translations i;
     runtimeCompiledTranslations := runtimeCompiledTranslations i;
     compiledTranslations := compiledTranslations i |}.

Definition set_pluralizors (p : gmap string Pluralizor) (i : I18n) : I18n :=
  {| defaultLocale := defaultLocale i;
     pluralizors := p;
     unmarshaler := unmarshaler i;
     fallbacks := fallbacks i;
     translations := translations i;
     runtimeCompiledTranslations := runtimeCompiledTranslations i;
     compiledTranslations := compiledTranslations i |}.

Definition set_runtimeCompiledTranslations
    (c : gmap string compiledTranslation) (i : I18n) : I18n :=
  {| defaultLocale := defaultLocale i;
     pluralizors := pluralizors i;
     unmarshaler := unmarshaler i;
     fallbacks := fallbacks i;
     translations := translations i;
     runtimeCompiledTranslations := c;
     compiledTranslations := compiledTranslations i |}.

Definition set_compiledTranslations
    (c : gmap string (gmap string compiledTranslation)) (i : I18n) : I18n :=
  {| defaultLocale := defaultLocale i;
     pluralizors := pluralizors i;
     unmarshaler := unmarshaler i;
     fallbacks := fallbacks i;
     translations := translations i;
     runtimeCompiledTranslations := runtimeCompiledTranslations i;
     compiledTranslations := c |}.

(** ** Construction *)

Definition WithUnmarshaler (u : Unmarshaler) : I18n → I18n :=
  set_unmarshaler u.

Definition WithFallback (f : gmap string (list string)) : I18n → I18n :=
  set_fallbacks f.

Definition WithPluralizor (p : gmap string Pluralizor) : I18n → I18n :=
  set_pluralizors p.

(** [func New(defaultLocale string, options ...func(i *I18n)) *I18n];
    [jsonUnmarshal] stands for [json.Unmarshal]. *)
Definition New (jsonUnmarshal : Unmarshaler) (defaultLocale : string)
    (options : list (I18n → I18n)) : I18n :=
  foldl (λ i o, o i)
    {| defaultLocale := defaultLocale;
       pluralizors := ∅;
       unmarshaler := jsonUnmarshal;
       fallbacks := ∅;
       translations := ∅;
       runtimeCompiledTranslations := ∅;
       compiledTranslations := ∅ |}
    options.

(** ** Compilation *)

(** [func (i *I18n) pluralizor(lang string) Pluralizor] *)
Definition I18n_pluralizor (i : I18n) (lang : string) : Pluralizor :=
  match pluralizors i !! lang with
  | None => defaultPluralizor
  | Some v => v
  end.

(** The body of the loop of [compileText].  The error of [Parse] is
    dropped: the segment then keeps the nil template and the empty text. *)
Definition compileSegment (v : string) : compiledText :=
  if strings.Contains v "{{"
  then {| text := ""; tmpl := Parse v |}
  else {| text := v; tmpl := None |}.

(** [func compileText(text string) (compTexts []*compiledText)] *)
Definition compileText (text : string) : list compiledText :=
  compileSegment <$> strings.Split text " | ".

(** [func (i *I18n) compileTranslation(locale, name, text string)] *)
Definition compileTranslation (i : I18n) (locale name text : string)
    : compiledTranslation :=
  {| locale := locale;
     name := name;
     pluralizor := I18n_pluralizor i locale;
     texts := compileText text |}.

(** [func nameInsenstive(v string) string] *)
Definition nameInsenstive (v : string) : string :=
  let v := filepath.Base v in
  let v := default "" (head (strings.Split v ".")) in
  let v := strings.ToLower unicodeLower v in
  strings.ReplaceAllByte v "_"%char "-"%char.

(** ** The store *)

(** [i.compiledTranslations[locale][name]], with Go's reading of a missing
    outer key as the nil map. *)
Definition stored (i : I18n) (locale name : string)
    : option compiledTranslation :=
  compiledTranslations i !! locale ≫= (λ trans, trans !! name).

(** The loop of [lookupBestFallback] over the fallbacks of a locale;
    [recur] is the recursive call. *)
Fixpoint rangeFallbacks
    (recur : string → outcome (option compiledTranslation))
    (i : I18n) (name : string) (fallbacks : list string)
    : outcome (option compiledTranslation) :=
  match fallbacks with
  | [] => Returns None
  | fallback :: rest =>
      match stored i fallback name with
      | Some v => Returns (Some v)
      | None =>
          j ←! recur fallback;
          match j with
          | Some _ => Returns j
          | None => rangeFallbacks recur i name rest
          end
      end
  end.

(** [func (i *I18n) lookupBestFallback(locale, name string)].  [depth]
    bounds the nesting of the recursive calls.  A locale without an entry
    in [i.fallbacks] yields the nil slice, over which the loop does not
    turn. *)
Fixpoint lookupBestFallback (depth : nat) (i : I18n) (locale name : string)
    : outcome (option compiledTranslation) :=
  match depth with
  | O => OutOfDepth
  | S depth' =>
      match fallbacks i !! locale with
      | None =>
          match stored i (defaultLocale i) name with
          | Some v => Returns (Some v)
          | None => Returns None
          end
      | Some fallbacks =>
          rangeFallbacks
            (λ fallback, lookupBestFallback depth' i fallback name)
            i name fallbacks
      end
  end.

(** The body of the inner loop of [compileFallbacks] at one [locale], for
    the name of the default locale's translation at hand. *)
Definition backfill (depth : nat) (grandName locale : string) (i : I18n)
    : outcome I18n :=
  match compiledTranslations i !! locale with
  | None => Returns i
  | Some trans =>
      if decide (locale = defaultLocale i) then Returns i
      else
        match trans !! grandName with
        | Some _ => Returns i
        | None =>
            bestfit ←! lookupBestFallback depth i locale grandName;
            match bestfit with
            | Some b =>
                Returns (set_compiledTranslations
                           (<[locale := <[grandName := b]> trans]>
                              (compiledTranslations i)) i)
            | None => Returns i
            end
        end
  end.

(** The inner loop, [for locale, trans := range i.compiledTranslations],
    visiting the locales in the order [locales]. *)
Fixpoint rangeLocales (depth : nat) (grandName : string)
    (locales : list string) (i : I18n) : outcome I18n :=
  match locales with
  | [] => Returns i
  | locale :: rest =>
      i' ←! backfill depth grandName locale i;
      rangeLocales depth grandName rest i'
  end.

(** [func (i *I18n) compileFallbacks()].  [visits] lists, for every turn
    of the outer loop, the key of the default locale's table that the turn
    is at and the order in which its inner loop visits the locales.  The
    pass does not write to the default locale's table, so the translation
    that a turn reads there is the one that the loop ranges over. *)
Fixpoint compileFallbacks (depth : nat)
    (visits : list (string * list string)) (i : I18n) : outcome I18n :=
  match visits with
  | [] => Returns i
  | (key, locales) :: rest =>
      match stored i (defaultLocale i) key with
      | None => compileFallbacks depth rest i
      | Some grandTrans =>
          i' ←! rangeLocales depth (name grandTrans) locales i;
          compileFallbacks depth rest i'
      end
  end.

(** The inner loop of [LoadMap], [for name, text := range translations],
    on the fresh table of [locale].  Each turn writes the key it is at and
    reads nothing that another turn writes, so the order of the turns does
    not show in the table. *)
Definition rangeTranslations (i : I18n) (locale : string)
    (translations : gmap string string) : gmap string compiledTranslation :=
  map_imap (λ name text, Some (compileTranslation i locale name text))
    translations.

(** The body of the outer loop of [LoadMap]: the locale gets a fresh table,
    [make(map[string]*compiledTranslation)], whatever it held before. *)
Definition loadLocale (rawLocale : string)
    (translations : gmap string string) (i : I18n) : I18n :=
  let locale := nameInsenstive rawLocale in
  set_compiledTranslations
    (<[locale := rangeTranslations i locale translations]>
       (compiledTranslations i)) i.

(** The outer loop of [LoadMap], visiting the keys of [languages] in the
    order [order]. *)
Definition rangeLanguages (order : list string)
    (languages : gmap string (gmap string string)) (i : I18n) : I18n :=
  foldl (λ i rawLocale,
           match languages !! rawLocale with
           | Some translations => loadLocale rawLocale translations i
           | None => i
           end) i order.

(** The orders in which the [range] statements of one [LoadMap] call visit
    their maps. *)
Record rangeOrder : Type := {
  languagesOrder : list string;
  fallbacksOrder : list (string * list string)
}.

(** [func (i *I18n) LoadMap(languages map[string]map[string]string) error];
    the error is [None] for nil. *)
Definition LoadMap (depth : nat) (order : rangeOrder) (i : I18n)
    (languages : gmap string (gmap string string))
    : outcome (I18n * option error) :=
  let i := rangeLanguages (languagesOrder order) languages i in
  i ←! compileFallbacks depth (fallbacksOrder order) i;
  Returns (i, None).

(** The loop of [LoadFiles] over the file names; [ReadFile] is
    [os.ReadFile] on the file system of the moment. *)
Fixpoint readFiles (ReadFile : string → error + list Byte.byte)
    (i : I18n) (filenames : list string)
    (data : gmap string (gmap string string))
    : error + gmap string (gmap string string) :=
  match filenames with
  | [] => inr data
  | v :: rest =>
      match ReadFile v with
      | inl err => inl err
      | inr b =>
          match unmarshaler i b with
          | inl err => inl err
          | inr trans =>
              let locale := nameInsenstive v in
              let old := default ∅ (data !! locale) in
              readFiles ReadFile i rest (<[locale := trans ∪ old]> data)
          end
      end
  end.

(** [func (i *I18n) LoadFiles(filenames ...string) error] *)
Definition LoadFiles (depth : nat) (order : rangeOrder)
    (ReadFile : string → error + list Byte.byte) (i : I18n)
    (filenames : list string) : outcome (I18n * option error) :=
  match readFiles ReadFile i filenames ∅ with
  | inl err => Returns (i, Some err)
  | inr data => LoadMap depth order i data
  end.
(** The loop of [LoadGlob] and of [LoadFS] over the patterns; [Glob] is
    [filepath.Glob], or [fs.Glob] on the file system at hand, and [files]
    the matches gathered so far. *)
Fixpoint globPatterns (Glob : string → error + list string)
    (patterns : list string) (files : list string) : error + list string :=
  match patterns with
  | [] => inr files
  | pattern :: rest =>
      match Glob pattern with
      | inl err => inl err
      | inr v => globPatterns Glob rest (files ++ v)
      end
  end.

(** [func (i *I18n) LoadGlob(pattern ...string) error] *)
Definition LoadGlob (depth : nat) (order : rangeOrder)
    (Glob : string → error + list string)
    (ReadFile : string → error + list Byte.byte) (i : I18n)
    (pattern : list string) : outcome (I18n * option error) :=
  match globPatterns Glob pattern [] with
  | inl err => Returns (i, Some err)
  | inr files => LoadFiles depth order ReadFile i files
  end.

(** An [fs.FS], as far as the package uses one: through [fs.Glob] and
    [fs.ReadFile]. *)
Record FS : Type := {
  fs_Glob : string → error + list string;
  fs_ReadFile : string → error + list Byte.byte
}.

(** [func (i *I18n) LoadFS(fsys fs.FS, patterns ...string) error]; its
    second loop is the loop of [LoadFiles], reading through [fsys]. *)
Definition LoadFS (depth : nat) (order : rangeOrder) (fsys : FS) (i : I18n)
    (patterns : list string) : outcome (I18n * option error) :=
  match globPatterns (fs_Glob fsys) patterns [] with
  | inl err => Returns (i, Some err)
  | inr files =>
      match readFiles (fs_ReadFile fsys) i files ∅ with
      | inl err => Returns (i, Some err)
      | inr data => LoadMap depth order i data
      end
  end.


(** ** Locales and lookups *)

(** [func (i *I18n) NewLocale(locales ...string) *Locale] *)
Fixpoint selectLocale (i : I18n) (locales : list string) : string :=
  match locales with
  | [] => defaultLocale i
  | v :: rest =>
      let v := nameInsenstive v in
      match compiledTranslations i !! v with
      | Some _ => v
      | None => selectLocale i rest
      end
  end.

Definition NewLocale (i : I18n) (locales : list string) : Locale :=
  {| Locale_locale := selectLocale i locales |}.
(** [func (l *Locale) Locale() string] *)
Definition Locale_Locale (l : Locale) : string := Locale_locale l.


(** [func (l *Locale) lookup(name string) *compiledTranslation] *)
Definition lookup (l : Locale) (name : string) (i : I18n)
    : compiledTranslation * I18n :=
  match stored i (Locale_locale l) name with
  | Some selectedTrans => (selectedTrans, i)
  | None =>
      let runtimeTrans :=
        match runtimeCompiledTranslations i !! name with
        | Some runtimeTrans => runtimeTrans
        | None =>
            compileTranslation i (defaultLocale i) name (trimContext name)
        end in
      (runtimeTrans,
       set_runtimeCompiledTranslations
         (<[name := runtimeTrans]> (runtimeCompiledTranslations i)) i)
  end.

(** [func (l *Locale) render(text *compiledText, data ...any) string] *)
Definition render (text : compiledText) (data : list Data) : string :=
  match tmpl text with
  | Some t => Execute t (head data)
  | None => text.(Model.text)
  end.

(** [texts[n]] for an [int] index: [None] is Go's run-time panic
    "index out of range". *)
Definition index {A : Type} (l : list A) (n : Z) : option A :=
  if decide (0 ≤ n) then l !! Z.to_nat n else None.

(** [func (l *Locale) String(name string, data ...any) string]; the
    result is [None] when the call panics. *)
Definition String (l : Locale) (name : string) (data : list Data)
    (i : I18n) : option string * I18n :=
  let '(selectedTrans, i) := lookup l name i in
  ((λ t, render t data) <$> index (texts selectedTrans) 0, i).

(** [fmt.Sprintf("%s <%s>", name, context)] *)
Definition withContext (name context : string) : string :=
  name +:+ " <" +:+ context +:+ ">".

(** [func (l *Locale) StringX(name, context string, data ...any) string] *)
Definition StringX (l : Locale) (name context : string) (data : list Data)
    (i : I18n) : option string * I18n :=
  String l (withContext name context) data i.

(** [func (l *Locale) Number(name string, count int, data ...any) string] *)
Definition Number (l : Locale) (name : string) (count : Z)
    (data : list Data) (i : I18n) : option string * I18n :=
  let '(selectedTrans, i) := lookup l name i in
  let selectedIndex :=
    pluralizor selectedTrans count
      (Z.of_nat (length (texts selectedTrans))) in
  ((λ t, render t data) <$> index (texts selectedTrans) selectedIndex, i).

(** [func (l *Locale) NumberX(name string, context string, count int,
    data ...any) string] *)
Definition NumberX (l : Locale) (name context : string) (count : Z)
    (data : list Data) (i : I18n) : option string * I18n :=
  Number l (withContext name context) count data i.

(** [func ParseAcceptLanguage(acceptLang string) []string] *)
Definition ParseAcceptLanguage (acceptLang : string) : list string :=
  (λ langQStr,
     let trimedLangQStr := strings.TrimByte langQStr " " in
     let langQ := strings.Split trimedLangQStr ";" in
     nameInsenstive (default "" (head langQ)))
  <$> strings.Split acceptLang ",".

End Model.

(** ** The orders of Go's [range] statements *)

(** A [range] over a map visits every key of the map once. *)
Definition visitsKeysOf {A : Type} (m : gmap string A) (order : list string)
    : Prop :=
  order ≡ₚ elements (dom m).

(** [i.compiledTranslations[locale]], nil read as the empty table. *)
Definition tableOf {Template error : Type}
    (i : I18n (Template := Template) (error := error)) (locale : string)
    : gmap string compiledTranslation :=
  default ∅ (compiledTranslations i !! locale).

(** The visits that Go can make in a call [i.compileFallbacks()]: the outer
    loop visits the keys of the default locale's table, and each of its turns
    visits the locales of the store.  (The pass neither adds nor removes a
    locale, nor writes to the default locale's table.) *)
Definition validVisits {Template error : Type}
    (i : I18n (Template := Template) (error := error))
    (visits : list (string * list string)) : Prop :=
  visitsKeysOf (tableOf i (defaultLocale i)) visits.*1 ∧
  Forall (λ visit, visitsKeysOf (compiledTranslations i) visit.2) visits.

(** The orders that Go can follow in a call [i.LoadMap(languages)]: the load
    loop visits the keys of [languages], and the backfill pass makes valid
    visits in the state that the load loop leaves. *)
Definition validOrder {Template error : Type}
    (Parse : string → option Template) (unicodeLower : string → string)
    (order : rangeOrder) (i : I18n (Template := Template) (error := error))
    (languages : gmap string (gmap string string)) : Prop :=
  visitsKeysOf languages (languagesOrder order) ∧
  validVisits
    (rangeLanguages Parse unicodeLower (languagesOrder order) languages i)
    (fallbacksOrder order).

(** No two keys of a batch denote the same locale. *)
Definition distinctLocales (unicodeLower : string → string)
    (languages : gmap string (gmap string string)) : Prop :=
  NoDup (nameInsenstive unicodeLower <$> elements (dom languages)).

(** The names that the backfill pass goes through: the [name] fields of the
    default locale's translations. *)
Definition grandName {Template error : Type}
    (i : I18n (Template := Template) (error := error)) (n : string) : Prop :=
  ∃ key grandTrans,
    stored i (defaultLocale i) key = Some grandTrans ∧ name grandTrans = n.

(** A call that does not come back, whatever nesting it is allowed. *)
Definition neverReturns {A : Type} (run : nat → outcome A) : Prop :=
  ∀ depth, run depth = OutOfDepth.

(** One file of a [LoadFiles] call: read and decoded, or failing with an
    error at one of the two steps. *)
Definition fileLoads {Template error : Type}
    (ReadFile : string → error + list Byte.byte)
    (i : I18n (Template := Template) (error := error)) (v : string) : Prop :=
  ∃ b trans, ReadFile v = inr b ∧ unmarshaler i b = inr trans.

Definition fileFails {Template error : Type}
    (ReadFile : string → error + list Byte.byte)
    (i : I18n (Template := Template) (error := error)) (v : string)
    (err : error) : Prop :=
  ReadFile v = inl err ∨ ∃ b, ReadFile v = inr b ∧ unmarshaler i b = inl err.

(** A fallback table is acyclic when its locales can be ranked so that
    every fallback ranks below the locale that names it. *)
Definition rankedFallbacks {Template error : Type} (rank : string → nat)
    (i : I18n (Template := Template) (error := error)) : Prop :=
  map_Forall (λ locale fallbacks,
                Forall (λ fallback, (rank fallback < rank locale)%nat)
                  fallbacks)
    (fallbacks i).

(** One of the orders that Go can follow: every map in the order in which
    [elements] lists its keys. *)
Definition canonicalOrder {Template error : Type}
    (Parse : string → option Template) (unicodeLower : string → string)
    (i : I18n (Template := Template) (error := error))
    (languages : gmap string (gmap string string)) : rangeOrder :=
  let order := elements (dom languages) in
  let i1 := rangeLanguages Parse unicodeLower order languages i in
  {| languagesOrder := order;
     fallbacksOrder :=
       (λ key, (key, elements (dom (compiledTranslations i1))))
         <$> elements (dom (tableOf i1 (defaultLocale i1))) |}.
(** Another of them: every map in the reverse of that order. *)
Definition reversedOrder {Template error : Type}
    (Parse : string → option Template) (unicodeLower : string → string)
    (i : I18n (Template := Template) (error := error))
    (languages : gmap string (gmap string string)) : rangeOrder :=
  let order := reverse (elements (dom languages)) in
  let i1 := rangeLanguages Parse unicodeLower order languages i in
  {| languagesOrder := order;
     fallbacksOrder :=
       (λ key, (key, reverse (elements (dom (compiledTranslations i1)))))
         <$> reverse (elements (dom (tableOf i1 (defaultLocale i1)))) |}.

(** ** Bytes, names and states that the further properties speak of *)

(** The bytes of a Go string. *)
Fixpoint bytes (s : string) : list ascii :=
  match s with
  | EmptyString => []
  | String.String c s' => c :: bytes s'
  end.

(** The byte [c] does not occur in [s]. *)
Definition byteFree (c : ascii) (s : string) : Prop :=
  Forall (λ a, a ≠ c) (bytes s).

(** What the last two steps of [nameInsenstive] make of one byte of an
    ASCII name: the lower-case letter, and ["-"] for ["_"]. *)
Definition canonByte (c : ascii) : ascii :=
  let c := strings.lowerByte c in
  if decide (c = "_"%char) then "-"%char else c.

(** The last two steps of [nameInsenstive]. *)
Definition canon (unicodeLower : string → string) (p : string) : string :=
  strings.ReplaceAllByte (strings.ToLower unicodeLower p) "_" "-".

(** [data[locale][name]] in the map that [LoadFiles] gathers, with Go's
    reading of a missing outer key as the nil map. *)
Definition textOf (data : gmap string (gmap string string))
    (locale name : string) : option string :=
  data !! locale ≫= (λ trans, trans !! name).

(** [j] differs from [i] in the store alone, holds the same locales there
    and the same table for the default locale. *)
Definition sameButStore {Template error : Type}
    (i j : I18n (Template := Template) (error := error)) : Prop :=
  j = set_compiledTranslations (compiledTranslations j) i
  ∧ dom (compiledTranslations j) = dom (compiledTranslations i)
  ∧ compiledTranslations j !! defaultLocale i
    = compiledTranslations i !! defaultLocale i.

(** Every translation in the store of [j] is in the store of [i] under the
    same name, in the table of some locale. *)
Definition copiedFrom {Template error : Type}
    (i j : I18n (Template := Template) (error := error)) : Prop :=
  ∀ L n b, stored j L n = Some b → ∃ L', stored i L' n = Some b.

(** Every entry of the runtime cache is what [lookup] compiles for its
    key. *)
Definition cacheCoherent {Template error : Type}
    (Parse : string → option Template)
    (i : I18n (Template := Template) (error := error)) : Prop :=
  map_Forall (λ key t,
                t = compileTranslation Parse i (defaultLocale i) key
                      (trimContext key))
    (runtimeCompiledTranslations i).

(** Every translation of the store and of the runtime cache has a first
    variant. *)
Definition everyTextHasAVariant {Template error : Type}
    (i : I18n (Template := Template) (error := error)) : Prop :=
  (∀ L n t, stored i L n = Some t → texts t ≠ [])
  ∧ map_Forall (λ _ t, texts t ≠ []) (runtimeCompiledTranslations i).

(** The options that the package offers to [New]. *)
Definition packageOption {Template error : Type}
    (o : I18n (Template := Template) (error := error)
         → I18n (Template := Template) (error := error)) : Prop :=
  (∃ u, o = WithUnmarshaler u)
  ∨ (∃ f, o = WithFallback f)
  ∨ (∃ p, o = WithPluralizor p).


(** ** A template engine to run the package on

    The engine keeps the source of a template and substitutes nothing; the
    data are a single value.  The closed examples below run on it. *)
Module echo.
Definition Template : Type := string.
Definition Data : Type := unit.
Definition error : Type := string.
Definition Parse (v : string) : option Template := Some v.
Definition Execute (t : Template) (_ : option Data) : string := t.
Definition unicodeLower (s : string) : string := s.
(** A decoder that knows one document: no bytes are an error, and any
    other input decodes to a single message. *)
Definition jsonUnmarshal : Unmarshaler (error := error) :=
  λ data,
    match data with
    | [] => inl "unexpected end of JSON input"
    | _ => inr {[ "message_a" := "Message A" ]}
    end.
End echo.

(** ** The examples of the README and of the tests, as inputs *)

(** The README's fallback table, with a name that only ["zh-cn"] and the
    default locale define. *)
Module ChainExample.
Definition core : I18n (Template := echo.Template) (error := echo.error) :=
  New echo.jsonUnmarshal "ja-jp"
    [WithFallback {[ "zh-tw" := ["zh-hk"; "zh-cn"] ]}].
Definition languages : gmap string (gmap string string) :=
  {[ "zh-cn" := {[ "k" := "cn" ]};
     "ja-jp" := {[ "k" := "jp" ]};
     "zh-tw" := {[ "other" := "x" ]} ]}.
Definition rank (locale : string) : nat :=
  if decide (locale = "zh-tw") then 1 else 0.
(** The state that the load loop of [LoadMap] leaves. *)
Definition loaded : I18n (Template := echo.Template) (error := echo.error) :=
  rangeLanguages echo.Parse echo.unicodeLower (elements (dom languages))
    languages core.
Definition zhTW : Locale := {| Locale_locale := "zh-tw" |}.
End ChainExample.

(** [TestTextFallbackResursive]: the default locale is ["en-us"];
    [languages] defines the name in ["en-us"] and ["zh-tw"], as the test
    does, [onlyInZhTw] in ["zh-tw"] alone. *)
Module RecursiveExample.
Definition core : I18n (Template := echo.Template) (error := echo.error) :=
  New echo.jsonUnmarshal "en-us"
    [WithFallback {[ "ja-jp" := ["ko-kr"]; "ko-kr" := ["zh-tw"] ]}].
Definition languages : gmap string (gmap string string) :=
  {[ "en-us" := {[ "k" := "en" ]};
     "zh-tw" := {[ "k" := "tw" ]};
     "ja-jp" := {[ "test_message" := "ja" ]};
     "ko-kr" := {[ "test_message" := "ko" ]} ]}.
Definition onlyInZhTw : gmap string (gmap string string) :=
  {[ "en-us" := {[ "test_message" := "en" ]};
     "zh-tw" := {[ "k" := "tw" ]};
     "ja-jp" := {[ "test_message" := "ja" ]};
     "ko-kr" := {[ "test_message" := "ko" ]} ]}.
Definition rank (locale : string) : nat :=
  if decide (locale = "ja-jp") then 2
  else if decide (locale = "ko-kr") then 1 else 0.
(** The state that the load loop of [LoadMap] leaves for [onlyInZhTw]. *)
Definition loadedOnlyInZhTw
    : I18n (Template := echo.Template) (error := echo.error) :=
  rangeLanguages echo.Parse echo.unicodeLower (elements (dom onlyInZhTw))
    onlyInZhTw core.
Definition jaJP : Locale := {| Locale_locale := "ja-jp" |}.
End RecursiveExample.

(** Two locales that fall back on each other. *)
Module CycleExample.
Definition core : I18n (Template := echo.Template) (error := echo.error) :=
  New echo.jsonUnmarshal "ja-jp"
    [WithFallback {[ "zh-tw" := ["zh-hk"]; "zh-hk" := ["zh-tw"] ]}].
Definition languages : gmap string (gmap string string) :=
  {[ "ja-jp" := {[ "k" := "jp" ]};
     "zh-tw" := {[ "other" := "x" ]} ]}.
(** The state that the load loop of [LoadMap] leaves. *)
Definition loaded : I18n (Template := echo.Template) (error := echo.error) :=
  rangeLanguages echo.Parse echo.unicodeLower (elements (dom languages))
    languages core.
End CycleExample.

(** Two [LoadMap] calls for one locale. *)
Module ReloadExample.
Definition core : I18n (Template := echo.Template) (error := echo.error) :=
  New echo.jsonUnmarshal "en-us" [].
Definition first : gmap string (gmap string string) :=
  {[ "en-us" := {[ "hello" := "Hello" ]} ]}.
Definition second : gmap string (gmap string string) :=
  {[ "en-us" := {[ "bye" := "Bye" ]} ]}.
Definition afterFirst
    : I18n (Template := echo.Template) (error := echo.error) :=
  rangeLanguages echo.Parse echo.unicodeLower ["en-us"] first core.
Definition afterSecond
    : I18n (Template := echo.Template) (error := echo.error) :=
  rangeLanguages echo.Parse echo.unicodeLower ["en-us"] second afterFirst.
Definition enUS : Locale := {| Locale_locale := "en-us" |}.
End ReloadExample.

(** A pluralizor of the caller's that answers with the number of choices. *)
Module PluralExample.
Definition lastPlusOne : Pluralizor := λ _ choices, choices.
Definition core : I18n (Template := echo.Template) (error := echo.error) :=
  New echo.jsonUnmarshal "ru" [WithPluralizor {[ "ru" := lastPlusOne ]}].
End PluralExample.

(** The translations of the package's test file, and a run of [LoadMap] on
    them followed by one call on the state it leaves. *)
Module PackageTests.
Definition testTranslations : gmap string (gmap string string) :=
  {[ "en-us" :=
       {[ "None | 1 Apple | {{ .Count }} Apples" :=
            "None | 1 Apple | {{ .Count }} Apples" ]};
     "zh-tw" :=
       {[ "test_message" := "這是一則測試訊息。";
          "test_plural" := "沒有 | 只有 1 個 | 有 {{.Count}} 個";
          "Hello, world!" := "你好，世界！";
          "Post <verb>" := "發表貼文";
          "Post <noun>" := "文章";
          "None | 1 Apple | {{ .Count }} Apples" :=
            "沒有蘋果 | 1 顆蘋果 | 有 {{.Count}} 顆蘋果";
          "Post" := "THIS_SHOULD_NOT_BE_USED" ]};
     "ja-jp" := {[ "test_message" := "これはテストメッセージです。" ]};
     "ko-kr" :=
       {[ "test_message" := "이것은 테스트 메시지입니다.";
          "Hello, world!" := "안녕하세요, 세상!";
          "Post <verb>" := "메시지 게시" ]} ]}.

Definition core (defaultLocale : string) (f : gmap string (list string))
    : I18n (Template := echo.Template) (error := echo.error) :=
  New echo.jsonUnmarshal defaultLocale [WithFallback f].

Definition after (i : I18n (Template := echo.Template) (error := echo.error))
    (call : I18n (Template := echo.Template) (error := echo.error)
            → option string
              * I18n (Template := echo.Template) (error := echo.error))
    : outcome (option string) :=
  r ←! LoadMap echo.Parse echo.unicodeLower 4
         (canonicalOrder echo.Parse echo.unicodeLower i testTranslations)
         i testTranslations;
  Returns (call r.1).1.

Definition on (candidate : string)
    (i : I18n (Template := echo.Template) (error := echo.error)) : Locale :=
  NewLocale echo.unicodeLower i [candidate].
End PackageTests.

(** A directory with one file. *)
Module FilesExample.
Definition ReadFile (v : string) : echo.error + list Byte.byte :=
  if decide (v = "test/zh-tw.json") then inr [Byte.x7b; Byte.x7d]
  else inl "no such file or directory".
End FilesExample.

(** The files of [TestLoadFiles], [TestLoadGlob] and [TestLoadFS]: three
    files of one locale, and a fourth that defines a name of the first
    again.  The decoder stands for a JSON decoder on these files: it knows
    each of them by its first byte. *)
Module LoadFilesExample.
Definition decode : Unmarshaler (error := echo.error) :=
  λ data,
    match data with
    | [] => inl "unexpected end of JSON input"
    | b :: _ =>
        if Byte.eqb b Byte.x61 then inr {[ "message_a" := "訊息 A" ]}
        else if Byte.eqb b Byte.x62 then inr {[ "message_b" := "訊息 B" ]}
        else if Byte.eqb b Byte.x63 then inr {[ "message_c" := "訊息 C" ]}
        else inr {[ "message_a" := "Message A" ]}
    end.
Definition ReadFile (v : string) : echo.error + list Byte.byte :=
  if decide (v = "test/zh-tw.json") then inr [Byte.x61]
  else if decide (v = "test/zh_TW.json") then inr [Byte.x62]
  else if decide (v = "test/zh_tw.hello.json") then inr [Byte.x63]
  else if decide (v = "override/zh-TW.json") then inr [Byte.x64]
  else inl "no such file or directory".
Definition Glob (pattern : string) : echo.error + list string :=
  if decide (pattern = "test/*.json")
  then inr ["test/zh-tw.json"; "test/zh_TW.json"; "test/zh_tw.hello.json"]
  else if decide (pattern = "override/*.json")
  then inr ["override/zh-TW.json"]
  else if decide (pattern = "[") then inl "syntax error in pattern"
  else inr [].
Definition fsys : FS (error := echo.error) :=
  {| fs_Glob := Glob; fs_ReadFile := ReadFile |}.
Definition core : I18n (Template := echo.Template) (error := echo.error) :=
  New decode "zh-tw" [].
Definition tests : list string :=
  ["test/zh-tw.json"; "test/zh_TW.json"; "test/zh_tw.hello.json"].
(** The map that the loop over the files of the tests gathers. *)
Definition gathered : gmap string (gmap string string) :=
  match readFiles echo.unicodeLower ReadFile core tests ∅ with
  | inr data => data
  | inl _ => ∅
  end.
Definition order : rangeOrder :=
  canonicalOrder echo.Parse echo.unicodeLower core gathered.
Definition after
    (load : outcome (I18n (Template := echo.Template) (error := echo.error)
                     * option echo.error))
    (name : string) : outcome (option echo.error * option string) :=
  r ←! load;
  Returns (r.2,
           (String echo.Parse echo.Execute
              (NewLocale echo.unicodeLower r.1 ["zh-tw"]) name [] r.1).1).
End LoadFilesExample.

(** A locale whose fallback chain is there and empty. *)
Module EmptyChainExample.
Definition core : I18n (Template := echo.Template) (error := echo.error) :=
  New echo.jsonUnmarshal "en-us" [WithFallback {[ "zh-tw" := [] ]}].
Definition languages : gmap string (gmap string string) :=
  {[ "en-us" := {[ "k" := "en" ]};
     "zh-tw" := {[ "other" := "x" ]} ]}.
End EmptyChainExample.

(** A default locale that is written with an underscore. *)
Module UnderscoreExample.
Definition core : I18n (Template := echo.Template) (error := echo.error) :=
  New echo.jsonUnmarshal "en_US" [].
Definition languages : gmap string (gmap string string) :=
  {[ "en_US" := {[ "hello" := "Hello" ]} ]}.
End UnderscoreExample.

(** The state that [LoadMap] leaves on the core and the translations of
    [TestTextFallbackResursive]. *)
Module LoadedExample.
Definition order : rangeOrder :=
  canonicalOrder echo.Parse echo.unicodeLower RecursiveExample.core
    RecursiveExample.languages.
Definition loaded : I18n (Template := echo.Template) (error := echo.error) :=
  rangeLanguages echo.Parse echo.unicodeLower (languagesOrder order)
    RecursiveExample.languages RecursiveExample.core.
Definition filled
    : I18n (Template := echo.Template) (error := echo.error) :=
  match compileFallbacks 3 (fallbacksOrder order) loaded with
  | Returns i => i
  | OutOfDepth => loaded
  end.
End LoadedExample.

(** * Properties *)

(** ** Strings *)

Example Split_three :
  strings.Split "No Posts | 1 Post | {{ .Count }} Posts" " | "
  = ["No Posts"; "1 Post"; "{{ .Count }} Posts"].
Proof. reflexivity. Qed.

Example Split_none : strings.Split "hello_world" " | " = ["hello_world"].
Proof. reflexivity. Qed.

Example Split_tight : strings.Split "a|b | | c" " | " = ["a|b"; "| c"].
Proof. reflexivity. Qed.

Example Base_file : filepath.Base "test/zh_TW.music.json" = "zh_TW.music.json".
Proof. reflexivity. Qed.

Example Base_slashes : filepath.Base "a/b//" = "b" ∧ filepath.Base "//" = "/".
Proof. split; reflexivity. Qed.

Example removeContext_verb : regexp.removeContext "Post <verb>" = "Post ".
Proof. reflexivity. Qed.

Example removeContext_leftmost :
  regexp.removeContext "a <b> c <d>" = "a ".
Proof. reflexivity. Qed.

Example removeContext_not_at_the_end :
  regexp.removeContext "Post <verb> now" = "Post <verb> now".
Proof. reflexivity. Qed.

Example removeContext_whole : regexp.removeContext "<noun>" = "".
Proof. reflexivity. Qed.

(** A key in which no ["<"] occurs has no context group to lose. *)
Lemma trimContext_without_bracket (v : string) :
  strings.Index v "<" = None → trimContext v = v.
Proof.
  unfold trimContext. induction v as [|c v IH]; [done|]. simpl.
  destruct (decide (c = "<"%char)) as [->|Hc].
  { by destruct v. }
  rewrite (bool_decide_eq_false_2 _ Hc). simpl.
  destruct (strings.Index v "<") eqn:Hv; [done|].
  intros _. by rewrite IH.
Qed.

Lemma Split_nonempty (s sep : string) : strings.Split s sep ≠ [].
Proof.
  unfold strings.Split.
  destruct (String.length s) as [|n]; simpl; [done|].
  by destruct (strings.Index s sep).
Qed.

Lemma Split_without_separator (s sep : string) :
  strings.Index s sep = None → strings.Split s sep = [s].
Proof.
  intros Hidx. unfold strings.Split.
  destruct (String.length s) as [|n]; simpl; [done|]. by rewrite Hidx.
Qed.

(** ** The default pluralizor *)

Lemma defaultPluralizor_in_bounds (number choices : Z) :
  2 ≤ choices → 0 ≤ defaultPluralizor number choices < choices.
Proof.
  intros Hc. unfold defaultPluralizor.
  destruct choices as [|[[]|[]|]|]; destruct number as [|[]|]; lia.
Qed.

Lemma defaultPluralizor_single (number : Z) :
  defaultPluralizor number 1 =
    if decide (number = 0) then 0 else if decide (number = 1) then 1 else 2.
Proof. unfold defaultPluralizor. by destruct number as [|[]|]. Qed.

Section Properties.

Context {Template Data error : Type}.
Variable Parse : string → option Template.
Variable Execute : Template → option Data → string.
Variable unicodeLower : string → string.

Implicit Types i j : I18n (Template := Template) (error := error).
Implicit Types t : compiledTranslation (Template := Template).
Implicit Types l : Locale.
Implicit Types data : list Data.

(** ** Compilation *)

Lemma compileText_length (text : string) :
  length (compileText Parse text) = length (strings.Split text " | ").
Proof. unfold compileText. by rewrite length_fmap. Qed.

Lemma compileText_nonempty (text : string) : compileText Parse text ≠ [].
Proof.
  intros Hnil. apply (f_equal length) in Hnil.
  rewrite compileText_length in Hnil.
  by destruct (strings.Split text " | ") eqn:Hs;
    [apply Split_nonempty in Hs|].
Qed.

Lemma compileText_head (text : string) :
  head (compileText Parse text)
  = Some (compileSegment Parse
            (default "" (head (strings.Split text " | ")))).
Proof.
  unfold compileText.
  by destruct (strings.Split text " | ") eqn:Hs;
    [apply Split_nonempty in Hs|].
Qed.

Lemma index_zero {A : Type} (xs : list A) : index xs 0 = head xs.
Proof. unfold index. simpl. by destruct xs. Qed.

Lemma index_in_bounds {A : Type} (xs : list A) (n : Z) :
  0 ≤ n < Z.of_nat (length xs) → is_Some (index xs n).
Proof.
  intros [Hlo Hhi]. unfold index. rewrite decide_True by done.
  apply lookup_lt_is_Some. lia.
Qed.

Lemma index_out_of_bounds {A : Type} (xs : list A) (n : Z) :
  Z.of_nat (length xs) ≤ n → index xs n = None.
Proof.
  intros Hhi. unfold index. case_decide; [|done].
  apply lookup_ge_None. lia.
Qed.

(** ** Lookups *)

Lemma lookup_stored (P : string → option Template) l (name : string) i t :
  stored i (Locale_locale l) name = Some t → lookup P l name i = (t, i).
Proof. intros Hs. unfold lookup. by rewrite Hs. Qed.

Lemma lookup_cached (P : string → option Template) l (name : string) i t :
  stored i (Locale_locale l) name = None →
  runtimeCompiledTranslations i !! name = Some t →
  lookup P l name i = (t, i).
Proof.
  intros Hs Hc. unfold lookup. rewrite Hs, Hc. f_equal.
  unfold set_runtimeCompiledTranslations. rewrite insert_id by done.
  by destruct i.
Qed.

Lemma lookup_compiles l (name : string) i :
  stored i (Locale_locale l) name = None →
  runtimeCompiledTranslations i !! name = None →
  lookup Parse l name i =
    let t := compileTranslation Parse i (defaultLocale i) name
               (trimContext name) in
    (t, set_runtimeCompiledTranslations
          (<[name := t]> (runtimeCompiledTranslations i)) i).
Proof. intros Hs Hc. unfold lookup. by rewrite Hs, Hc. Qed.

Lemma StringX_unfold l (name context : string) data i :
  StringX Parse Execute l name context data i
  = String Parse Execute l (withContext name context) data i.
Proof. reflexivity. Qed.

Lemma stored_set_runtimeCompiledTranslations i c (locale name : string) :
  stored (set_runtimeCompiledTranslations c i) locale name
  = stored i locale name.
Proof. reflexivity. Qed.

Lemma stored_New (jsonUnmarshal : Unmarshaler (error := error))
    (d locale name : string) :
  stored (New (Template := Template) jsonUnmarshal d []) locale name = None.
Proof. unfold stored. simpl. by rewrite lookup_empty. Qed.

Lemma String_unregistered l (key : string) data i :
  stored i (Locale_locale l) key = None →
  runtimeCompiledTranslations i !! key = None →
  (String Parse Execute l key data i).1
  = Some (render Execute
            (compileSegment Parse
               (default "" (head (strings.Split (trimContext key) " | "))))
            data).
Proof.
  intros Hs Hc. unfold String. rewrite lookup_compiles by done. simpl.
  by rewrite index_zero, compileText_head.
Qed.

(** A key without a separator, without a template marker and without a
    context group is its own translation. *)
Lemma String_unregistered_verbatim l (key : string) data i :
  stored i (Locale_locale l) key = None →
  runtimeCompiledTranslations i !! key = None →
  trimContext key = key →
  strings.Index key " | " = None →
  strings.Contains key "{{" = false →
  (String Parse Execute l key data i).1 = Some key.
Proof.
  intros Hs Hc Htrim Hsep Htmpl. rewrite String_unregistered by done.
  rewrite Htrim, (Split_without_separator _ _ Hsep). simpl.
  unfold compileSegment. by rewrite Htmpl.
Qed.

Lemma String_stored l (name : string) data i t :
  stored i (Locale_locale l) name = Some t →
  String Parse Execute l name data i
  = ((λ x, render Execute x data) <$> index (texts t) 0, i).
Proof. intros Hs. unfold String. by rewrite (lookup_stored _ _ _ _ _ Hs). Qed.

Lemma NewLocale_bound i (candidate : string) :
  is_Some (compiledTranslations i !! nameInsenstive unicodeLower candidate) →
  NewLocale unicodeLower i [candidate]
  = {| Locale_locale := nameInsenstive unicodeLower candidate |}.
Proof. intros [trans Ht]. unfold NewLocale. simpl. by rewrite Ht. Qed.

(** ** The claims on pluralization and lookups *)

(** C2 (as amended): a loaded translation with at least two variants whose
    locale has no pluralizor of its own carries the default pluralizor, and
    for every count, negative ones included, the index that [Number]
    selects lies in [0, len(texts)): the access is in bounds and [Number]
    returns a string wherever the store holds that translation. *)
Theorem C2_default_index_in_bounds i0 (locale name text : string)
    (count : Z) :
  pluralizors i0 !! locale = None →
  (2 ≤ length (strings.Split text " | "))%nat →
  let t := compileTranslation Parse i0 locale name text in
  0 ≤ pluralizor t count (Z.of_nat (length (texts t)))
    < Z.of_nat (length (texts t))
  ∧ ∀ l (key : string) data i,
      stored i (Locale_locale l) key = Some t →
      is_Some (Number Parse Execute l key count data i).1.
Proof.
  intros Hp Hlen t.
  assert (0 ≤ pluralizor t count (Z.of_nat (length (texts t)))
            < Z.of_nat (length (texts t))) as Hidx.
  { subst t. simpl. unfold I18n_pluralizor. rewrite Hp.
    apply defaultPluralizor_in_bounds. rewrite compileText_length. lia. }
  split; [exact Hidx|].
  intros l key data i Hs. unfold Number.
  rewrite (lookup_stored _ _ _ _ _ Hs). simpl.
  apply fmap_is_Some, index_in_bounds, Hidx.
Qed.


(** C7: [StringX(name, context)] is [String] on the synthesized key in
    every state.  On a fresh core, where no entry matches,
    [StringX("Post", "adjective")] returns ["Post "], with the space that
    preceded the context group, and [String("Post")] returns ["Post"]. *)
Theorem C7_unmatched_context_keeps_the_space :
  (∀ l (name context : string) data i,
     StringX Parse Execute l name context data i
     = String Parse Execute l (withContext name context) data i)
  ∧ ∀ (jsonUnmarshal : Unmarshaler (error := error)) (d : string) l data,
      let i := New jsonUnmarshal d [] in
      (StringX Parse Execute l "Post" "adjective" data i).1 = Some "Post "
      ∧ (String Parse Execute l "Post" data i).1 = Some "Post".
Proof.
  split; [done|]. intros jsonUnmarshal d l data i. subst i.
  unfold StringX.
  rewrite !String_unregistered by (apply stored_New || done).
  done.
Qed.

(** C8: for a key that the bound locale's table lacks, the first lookup
    leaves its result in the runtime cache under the key as given, and the
    second lookup returns that entry and leaves the state as it is,
    whatever compiler it is handed: it does not compile.  [String] and
    [Number] then give the same output the second time. *)
Theorem C8_second_lookup_hits_the_cache
    (Parse' : string → option Template) l (name : string) (count : Z)
    data i :
  stored i (Locale_locale l) name = None →
  let first := lookup Parse l name i in
  runtimeCompiledTranslations first.2 !! name = Some first.1
  ∧ lookup Parse' l name first.2 = first
  ∧ String Parse' Execute l name data first.2
    = String Parse Execute l name data i
  ∧ Number Parse' Execute l name count data first.2
    = Number Parse Execute l name count data i.
Proof.
  intros Hs first.
  assert (runtimeCompiledTranslations first.2 !! name = Some first.1)
    as Hcache.
  { subst first. unfold lookup. rewrite Hs. simpl.
    by rewrite lookup_insert_eq. }
  assert (stored first.2 (Locale_locale l) name = None) as Hs'.
  { subst first. unfold lookup. by rewrite Hs. }
  assert (lookup Parse' l name first.2 = first) as Hsecond.
  { rewrite (lookup_cached _ _ _ _ _ Hs' Hcache). by destruct first. }
  repeat split; [done..| |].
  - unfold String at 1. rewrite Hsecond. unfold String.
    fold first. by destruct first.
  - unfold Number at 1. rewrite Hsecond. unfold Number.
    fold first. by destruct first.
Qed.

(** ** The fallback walk *)

Lemma lookupBestFallback_unfold (depth : nat) i (locale name : string) :
  lookupBestFallback (S depth) i locale name =
    match fallbacks i !! locale with
    | None =>
        match stored i (defaultLocale i) name with
        | Some v => Returns (Some v)
        | None => Returns None
        end
    | Some fallbacks =>
        rangeFallbacks (λ fallback, lookupBestFallback depth i fallback name)
          i name fallbacks
    end.
Proof. reflexivity. Qed.

Lemma rangeFallbacks_mono
    (recur recur' : string → outcome (option compiledTranslation))
    i (name : string) (fallbacks : list string) r :
  (∀ fallback r', recur fallback = Returns r' → recur' fallback = Returns r') →
  rangeFallbacks recur i name fallbacks = Returns r →
  rangeFallbacks recur' i name fallbacks = Returns r.
Proof.
  intros Hrec. induction fallbacks as [|fallback rest IH]; simpl; [done|].
  destruct (stored i fallback name); [done|].
  destruct (recur fallback) as [j|] eqn:Hj; simpl; [|done].
  rewrite (Hrec _ _ Hj). simpl. destruct j; [done|]. apply IH.
Qed.

(** A larger budget does not change a result. *)
Lemma lookupBestFallback_mono (depth depth' : nat) i (locale name : string) r :
  (depth ≤ depth')%nat →
  lookupBestFallback depth i locale name = Returns r →
  lookupBestFallback depth' i locale name = Returns r.
Proof.
  revert depth' locale r.
  induction depth as [|depth IH]; intros depth' locale r Hle; [done|].
  destruct depth' as [|depth']; [lia|].
  rewrite !lookupBestFallback_unfold.
  destruct (fallbacks i !! locale); [|done].
  apply rangeFallbacks_mono. intros fallback r'. apply IH. lia.
Qed.

Lemma rangeFallbacks_returns
    (recur : string → outcome (option compiledTranslation))
    i (name : string) (fallbacks : list string) :
  Forall (λ fallback, ∃ r, recur fallback = Returns r) fallbacks →
  ∃ r, rangeFallbacks recur i name fallbacks = Returns r.
Proof.
  induction 1 as [|fallback rest [j Hj] _ IH]; simpl; [by eexists|].
  destruct (stored i fallback name); [by eexists|].
  rewrite Hj. simpl. destruct j; [by eexists|]. exact IH.
Qed.

(** On a ranked fallback table the walk from a locale comes back within
    a nesting of the locale's rank. *)
Lemma lookupBestFallback_returns (rank : string → nat) i :
  rankedFallbacks rank i →
  ∀ (depth : nat) (locale name : string),
    (rank locale < depth)%nat →
    ∃ r, lookupBestFallback depth i locale name = Returns r.
Proof.
  intros Hranked depth.
  induction depth as [|depth IH]; intros locale name Hlt; [lia|].
  rewrite lookupBestFallback_unfold.
  destruct (fallbacks i !! locale) as [fbs|] eqn:Hfbs.
  - apply rangeFallbacks_returns.
    specialize (Hranked _ _ Hfbs). simpl in Hranked.
    eapply Forall_impl; [exact Hranked|]. intros fallback Hf. simpl in Hf.
    apply IH. lia.
  - destruct (stored i (defaultLocale i) name); by eexists.
Qed.

Lemma rangeFallbacks_first_diverges
    (recur : string → outcome (option compiledTranslation))
    i (name fallback : string) (rest : list string) :
  stored i fallback name = None →
  recur fallback = OutOfDepth →
  rangeFallbacks recur i name (fallback :: rest) = OutOfDepth.
Proof. intros Hs Hr. simpl. by rewrite Hs, Hr. Qed.

(** Two locales that name each other first, neither defining the name:
    the walk from either never comes back. *)
Lemma lookupBestFallback_two_cycle i (a b name : string)
    (rest_a rest_b : list string) :
  fallbacks i !! a = Some (b :: rest_a) →
  fallbacks i !! b = Some (a :: rest_b) →
  stored i a name = None →
  stored i b name = None →
  ∀ depth : nat,
    lookupBestFallback depth i a name = OutOfDepth
    ∧ lookupBestFallback depth i b name = OutOfDepth.
Proof.
  intros Ha Hb Hsa Hsb depth.
  induction depth as [|depth [IHa IHb]]; [done|].
  rewrite !lookupBestFallback_unfold, Ha, Hb.
  split; by apply rangeFallbacks_first_diverges.
Qed.

(** ** The backfill pass *)

Lemma backfill_mono (depth depth' : nat) (grandName locale : string) i i' :
  (depth ≤ depth')%nat →
  backfill depth grandName locale i = Returns i' →
  backfill depth' grandName locale i = Returns i'.
Proof.
  intros Hle. unfold backfill.
  destruct (compiledTranslations i !! locale) as [trans|]; [|done].
  case_decide; [done|]. destruct (trans !! grandName); [done|].
  destruct (lookupBestFallback depth i locale grandName) as [bestfit|]
    eqn:Hb; simpl; [|done].
  by rewrite (lookupBestFallback_mono _ _ _ _ _ _ Hle Hb).
Qed.

Lemma rangeLocales_mono (depth depth' : nat) (grandName : string)
    (locales : list string) i i' :
  (depth ≤ depth')%nat →
  rangeLocales depth grandName locales i = Returns i' →
  rangeLocales depth' grandName locales i = Returns i'.
Proof.
  intros Hle. revert i.
  induction locales as [|locale rest IH]; intros i; simpl; [done|].
  destruct (backfill depth grandName locale i) as [i1|] eqn:Hb; simpl;
    [|done].
  rewrite (backfill_mono _ _ _ _ _ _ Hle Hb). simpl. apply IH.
Qed.

Lemma compileFallbacks_mono (depth depth' : nat)
    (visits : list (string * list string)) i i' :
  (depth ≤ depth')%nat →
  compileFallbacks depth visits i = Returns i' →
  compileFallbacks depth' visits i = Returns i'.
Proof.
  intros Hle. revert i.
  induction visits as [|[key locales] rest IH]; intros i; simpl; [done|].
  destruct (stored i (defaultLocale i) key) as [grandTrans|]; [|apply IH].
  destruct (rangeLocales depth (name grandTrans) locales i) as [i1|] eqn:Hr;
    simpl; [|done].
  rewrite (rangeLocales_mono _ _ _ _ _ _ Hle Hr). simpl. apply IH.
Qed.

Lemma LoadMap_mono (depth depth' : nat) (order : rangeOrder) i
    (languages : gmap string (gmap string string))
    (r : I18n * option error) :
  (depth ≤ depth')%nat →
  LoadMap Parse unicodeLower depth order i languages = Returns r →
  LoadMap Parse unicodeLower depth' order i languages = Returns r.
Proof.
  intros Hle. unfold LoadMap.
  destruct (compileFallbacks depth _ _) as [i1|] eqn:Hc; simpl; [|done].
  by rewrite (compileFallbacks_mono _ _ _ _ _ Hle Hc).
Qed.

Lemma backfill_returns (rank : string → nat) (depth : nat)
    (grandName locale : string) i :
  rankedFallbacks rank i →
  (∀ locale', rank locale' < depth)%nat →
  ∃ i', backfill depth grandName locale i = Returns i'
        ∧ fallbacks i' = fallbacks i.
Proof.
  intros Hranked Hdepth. unfold backfill.
  destruct (compiledTranslations i !! locale) as [trans|]; [|by eexists].
  case_decide; [by eexists|]. destruct (trans !! grandName); [by eexists|].
  destruct (lookupBestFallback_returns rank i Hranked depth locale grandName
              (Hdepth locale)) as [bestfit ->].
  simpl. destruct bestfit; by eexists.
Qed.

Lemma rangeLocales_returns (rank : string → nat) (depth : nat)
    (grandName : string) (locales : list string) i :
  rankedFallbacks rank i →
  (∀ locale', rank locale' < depth)%nat →
  ∃ i', rangeLocales depth grandName locales i = Returns i'
        ∧ fallbacks i' = fallbacks i.
Proof.
  intros Hranked Hdepth. revert i Hranked.
  induction locales as [|locale rest IH]; intros i Hranked; simpl;
    [by eexists|].
  destruct (backfill_returns rank depth grandName locale i Hranked Hdepth)
    as (i1 & -> & Hf1).
  simpl. destruct (IH i1) as (i2 & Hi2 & Hf2).
  { unfold rankedFallbacks. by rewrite Hf1. }
  exists i2. split; [done|]. by rewrite Hf2.
Qed.

Lemma compileFallbacks_returns (rank : string → nat) (depth : nat)
    (visits : list (string * list string)) i :
  rankedFallbacks rank i →
  (∀ locale', rank locale' < depth)%nat →
  ∃ i', compileFallbacks depth visits i = Returns i'.
Proof.
  intros Hranked Hdepth. revert i Hranked.
  induction visits as [|[key locales] rest IH]; intros i Hranked; simpl;
    [by eexists|].
  destruct (stored i (defaultLocale i) key) as [grandTrans|]; [|by apply IH].
  destruct (rangeLocales_returns rank depth (name grandTrans) locales i
              Hranked Hdepth) as (i1 & -> & Hf1).
  simpl. apply IH. unfold rankedFallbacks. by rewrite Hf1.
Qed.

Lemma rangeLanguages_cons (rawLocale : string) (rest : list string)
    (languages : gmap string (gmap string string)) i :
  rangeLanguages Parse unicodeLower (rawLocale :: rest) languages i
  = rangeLanguages Parse unicodeLower rest languages
      match languages !! rawLocale with
      | Some translations =>
          loadLocale Parse unicodeLower rawLocale translations i
      | None => i
      end.
Proof. reflexivity. Qed.

Lemma rangeLanguages_fallbacks (order : list string)
    (languages : gmap string (gmap string string)) i :
  fallbacks (rangeLanguages Parse unicodeLower order languages i)
  = fallbacks i.
Proof.
  revert i. induction order as [|rawLocale rest IH]; intros i; [done|].
  rewrite rangeLanguages_cons, IH. by destruct (languages !! rawLocale).
Qed.

(** When [LoadMap] returns, its error is nil. *)
Lemma LoadMap_error_nil (depth : nat) (order : rangeOrder) i
    (languages : gmap string (gmap string string)) i' (e : option error) :
  LoadMap Parse unicodeLower depth order i languages = Returns (i', e) →
  e = None.
Proof.
  unfold LoadMap. destruct (compileFallbacks _ _ _); simpl; [|done].
  by intros [= _ <-].
Qed.

(** ** The load loop *)

Lemma loadLocale_commute (raw1 raw2 : string)
    (tr1 tr2 : gmap string string) i :
  nameInsenstive unicodeLower raw1 ≠ nameInsenstive unicodeLower raw2 →
  loadLocale Parse unicodeLower raw1 tr1
    (loadLocale Parse unicodeLower raw2 tr2 i)
  = loadLocale Parse unicodeLower raw2 tr2
      (loadLocale Parse unicodeLower raw1 tr1 i).
Proof.
  intros Hne. unfold loadLocale, set_compiledTranslations. simpl.
  f_equal. by apply insert_insert_ne.
Qed.

Lemma rangeTranslations_lookup i (locale name : string)
    (translations : gmap string string) :
  rangeTranslations Parse i locale translations !! name
  = compileTranslation Parse i locale name <$> translations !! name.
Proof.
  unfold rangeTranslations. rewrite map_lookup_imap.
  by destruct (translations !! name).
Qed.

(** One turn of the load loop leaves in the table of its locale the entries
    of the batch and nothing else, whatever the table held before. *)
Lemma loadLocale_stored (rawLocale : string)
    (translations : gmap string string) i (name : string) :
  stored (loadLocale Parse unicodeLower rawLocale translations i)
    (nameInsenstive unicodeLower rawLocale) name
  = compileTranslation Parse i (nameInsenstive unicodeLower rawLocale) name
      <$> translations !! name.
Proof.
  unfold stored, loadLocale. simpl. rewrite lookup_insert_eq. simpl.
  apply rangeTranslations_lookup.
Qed.

Lemma loadLocale_stored_other (rawLocale : string)
    (translations : gmap string string) i (locale name : string) :
  locale ≠ nameInsenstive unicodeLower rawLocale →
  stored (loadLocale Parse unicodeLower rawLocale translations i) locale name
  = stored i locale name.
Proof.
  intros Hne. unfold stored, loadLocale. simpl.
  by rewrite lookup_insert_ne.
Qed.

(** As long as no two keys of the batch denote the same locale, the order
    in which the load loop visits them does not show in the state. *)
Lemma rangeLanguages_Permutation (order order' : list string)
    (languages : gmap string (gmap string string)) i :
  order ≡ₚ order' →
  NoDup (nameInsenstive unicodeLower <$> order) →
  rangeLanguages Parse unicodeLower order languages i
  = rangeLanguages Parse unicodeLower order' languages i.
Proof.
  intros Hperm. revert i.
  induction Hperm as [|raw order order' _ IH|raw1 raw2 order
                      |order order' order'' Hp1 IH1 Hp2 IH2];
    intros i Hnodup.
  - done.
  - rewrite !rangeLanguages_cons. apply IH.
    by apply NoDup_cons in Hnodup as [_ ?].
  - rewrite !rangeLanguages_cons. f_equal.
    rewrite !fmap_cons in Hnodup.
    apply NoDup_cons in Hnodup as [Hne _].
    apply not_elem_of_cons in Hne as [Hne _].
    destruct (languages !! raw1), (languages !! raw2); try done.
    by apply loadLocale_commute.
  - rewrite IH1 by done. apply IH2.
    by rewrite <- Hp1.
Qed.

Lemma rangeLanguages_canonical_order (order : list string)
    (languages : gmap string (gmap string string)) i :
  distinctLocales unicodeLower languages →
  visitsKeysOf languages order →
  rangeLanguages Parse unicodeLower order languages i
  = rangeLanguages Parse unicodeLower (elements (dom languages)) languages i.
Proof.
  intros Hdistinct Hvisits. apply rangeLanguages_Permutation; [done|].
  unfold distinctLocales in Hdistinct. by rewrite Hvisits.
Qed.

(** ** One turn of the backfill pass *)

Lemma stored_lookup i (locale name : string)
    (trans : gmap string compiledTranslation) :
  compiledTranslations i !! locale = Some trans →
  stored i locale name = trans !! name.
Proof. intros Ht. unfold stored. by rewrite Ht. Qed.

Lemma stored_is_Some_table i (locale name : string) v :
  stored i locale name = Some v → is_Some (compiledTranslations i !! locale).
Proof.
  unfold stored. by destruct (compiledTranslations i !! locale); [eexists|].
Qed.

Lemma stored_backfilled i (L g : string) b
    (trans : gmap string compiledTranslation) (L' n : string) :
  compiledTranslations i !! L = Some trans →
  stored (set_compiledTranslations
            (<[L := <[g := b]> trans]> (compiledTranslations i)) i) L' n
  = if decide (L' = L ∧ n = g) then Some b else stored i L' n.
Proof.
  intros Ht. unfold stored at 1. simpl.
  destruct (decide (L' = L)) as [->|HL].
  - rewrite lookup_insert_eq. simpl. rewrite (stored_lookup _ _ _ _ Ht).
    destruct (decide (n = g)) as [->|Hn].
    + rewrite lookup_insert_eq. by rewrite decide_True.
    + rewrite lookup_insert_ne by done. rewrite decide_False; [done|].
      by intros [_ ?].
  - rewrite lookup_insert_ne by done. rewrite decide_False; [done|].
    by intros [? _].
Qed.

(** What a turn of the inner loop has done when it returns: nothing, or one
    write of the walk's result to a slot that was empty. *)
Lemma backfill_inv (depth : nat) (g L : string) i i' :
  backfill depth g L i = Returns i' →
  i' = i
  ∨ ∃ trans b,
      compiledTranslations i !! L = Some trans
      ∧ L ≠ defaultLocale i
      ∧ trans !! g = None
      ∧ lookupBestFallback depth i L g = Returns (Some b)
      ∧ i' = set_compiledTranslations
               (<[L := <[g := b]> trans]> (compiledTranslations i)) i.
Proof.
  unfold backfill.
  destruct (compiledTranslations i !! L) as [trans|] eqn:Ht;
    [|intros [= <-]; by left].
  case_decide; [intros [= <-]; by left|].
  destruct (trans !! g) eqn:Hg; [intros [= <-]; by left|].
  destruct (lookupBestFallback depth i L g) as [[b|]|] eqn:Hw; simpl;
    [|intros [= <-]; by left|done].
  intros [= <-]. right. by exists trans, b.
Qed.

Lemma backfill_default (depth : nat) (g L : string) i :
  L = defaultLocale i → backfill depth g L i = Returns i.
Proof.
  intros ->. unfold backfill.
  destruct (compiledTranslations i !! defaultLocale i); [|done].
  by rewrite decide_True.
Qed.

Lemma backfill_diverges (depth : nat) (g L : string) i :
  is_Some (compiledTranslations i !! L) →
  L ≠ defaultLocale i →
  stored i L g = None →
  lookupBestFallback depth i L g = OutOfDepth →
  backfill depth g L i = OutOfDepth.
Proof.
  intros [trans Ht] Hne Hs Hw. unfold backfill. rewrite Ht.
  rewrite decide_False by done.
  rewrite (stored_lookup _ _ _ _ Ht) in Hs. by rewrite Hs, Hw.
Qed.

(** ** The backfill pass on a ranked fallback table

    [i] is the state in which the pass starts.  Every walk returns, and the
    slots that the pass has filled so far do not change what a walk returns:
    a filled slot holds what the walk from its locale returns in [i]. *)

Section BackfillPass.

Variable rank : string → nat.
Variable depth : nat.
Variable i : I18n (Template := Template) (error := error).
Hypothesis Hranked : rankedFallbacks rank i.
Hypothesis Hdepth : ∀ locale, (rank locale < depth)%nat.

(** The states that the pass goes through. *)
Record backfilled (j : I18n (Template := Template) (error := error))
    : Prop := {
  bf_defaultLocale : defaultLocale j = defaultLocale i;
  bf_fallbacks : fallbacks j = fallbacks i;
  bf_pluralizors : pluralizors j = pluralizors i;
  bf_runtime : runtimeCompiledTranslations j = runtimeCompiledTranslations i;
  bf_tables : ∀ L,
    is_Some (compiledTranslations j !! L)
    ↔ is_Some (compiledTranslations i !! L);
  bf_kept : ∀ L n v, stored i L n = Some v → stored j L n = Some v;
  bf_new : ∀ L n b,
    stored i L n = None → stored j L n = Some b →
    L ≠ defaultLocale i
    ∧ is_Some (compiledTranslations i !! L)
    ∧ grandName i n
    ∧ lookupBestFallback depth i L n = Returns (Some b)
}.

(** What the pass leaves in the slot of locale [L] for the name [n] when it
    visits the slot. *)
Definition slot (L n : string) : option compiledTranslation :=
  match stored i L n with
  | Some v => Some v
  | None =>
      match lookupBestFallback depth i L n with
      | Returns r => r
      | OutOfDepth => None
      end
  end.

Lemma backfilled_refl : backfilled i.
Proof. split; try done. intros L n b Hn Hs. congruence. Qed.

Lemma backfilled_default j (n : string) :
  backfilled j → stored j (defaultLocale i) n = stored i (defaultLocale i) n.
Proof.
  intros Hj. destruct (stored i (defaultLocale i) n) as [v|] eqn:Hi.
  - by apply (bf_kept j Hj).
  - destruct (stored j (defaultLocale i) n) as [b|] eqn:Hjn; [|done].
    by destruct (bf_new j Hj _ _ _ Hi Hjn) as [? _].
Qed.

Lemma lookupBestFallback_agree (d d' : nat) (L n : string) r r' :
  lookupBestFallback d i L n = Returns r →
  lookupBestFallback d' i L n = Returns r' →
  r = r'.
Proof.
  intros Hr Hr'. destruct (Nat.le_ge_cases d d') as [Hle|Hle].
  - rewrite (lookupBestFallback_mono _ _ _ _ _ _ Hle Hr) in Hr'. congruence.
  - rewrite (lookupBestFallback_mono _ _ _ _ _ _ Hle Hr') in Hr. congruence.
Qed.

(** A walk in a state of the pass returns what it returns in [i]. *)
Lemma lookupBestFallback_backfilled j :
  backfilled j →
  ∀ (d : nat) (L n : string),
    (rank L < d)%nat →
    lookupBestFallback d j L n = lookupBestFallback d i L n.
Proof.
  intros Hj d. induction d as [|d IH]; intros L n Hlt; [lia|].
  rewrite !lookupBestFallback_unfold.
  rewrite (bf_fallbacks j Hj), (bf_defaultLocale j Hj).
  destruct (fallbacks i !! L) as [fbs|] eqn:Hfbs.
  - pose proof (Hranked _ _ Hfbs) as Hfor. simpl in Hfor. clear Hfbs.
    induction Hfor as [|f rest Hf _ IHrest]; [done|]. simpl.
    assert (rank f < d)%nat as Hfd by lia.
    destruct (stored i f n) as [v|] eqn:Hi.
    + by rewrite (bf_kept j Hj _ _ _ Hi).
    + destruct (stored j f n) as [b|] eqn:Hjn.
      * destruct (bf_new j Hj _ _ _ Hi Hjn) as (_ & _ & _ & Hw).
        destruct (lookupBestFallback_returns rank i Hranked d f n Hfd)
          as [r Hr].
        rewrite Hr. simpl.
        by rewrite (lookupBestFallback_agree _ _ _ _ _ _ Hr Hw).
      * rewrite (IH f n Hfd).
        by destruct (lookupBestFallback d i f n) as [[?|]|].
  - by rewrite backfilled_default.
Qed.

Lemma backfill_backfilled (g L : string) j j' :
  backfilled j → grandName i g →
  backfill depth g L j = Returns j' →
  backfilled j'.
Proof.
  intros Hj Hg Hb.
  apply backfill_inv in Hb as [->|(trans & b & Ht & Hne & Hn & Hw & ->)];
    [done|].
  assert (stored j L g = None) as HjLg by by rewrite (stored_lookup _ _ _ _ Ht).
  split; simpl.
  - apply (bf_defaultLocale j Hj).
  - apply (bf_fallbacks j Hj).
  - apply (bf_pluralizors j Hj).
  - apply (bf_runtime j Hj).
  - intros L'. rewrite <- (bf_tables j Hj L').
    destruct (decide (L' = L)) as [->|HL].
    + rewrite lookup_insert_eq, Ht. split; by eexists.
    + by rewrite lookup_insert_ne.
  - intros L' n v Hi. rewrite (stored_backfilled _ _ _ _ _ _ _ Ht).
    pose proof (bf_kept j Hj _ _ _ Hi) as Hjv.
    case_decide as Heq; [|done]. destruct Heq as [-> ->]. congruence.
  - intros L' n b' Hi. rewrite (stored_backfilled _ _ _ _ _ _ _ Ht).
    case_decide as Heq; [|by apply (bf_new j Hj)].
    destruct Heq as [-> ->]. intros [= <-].
    rewrite (bf_defaultLocale j Hj) in Hne.
    repeat split; [done| |done|].
    + apply (bf_tables j Hj). by eexists.
    + by rewrite <- (lookupBestFallback_backfilled j Hj depth L g (Hdepth L)).
Qed.

(** Once a slot is filled, a turn leaves it as it is. *)
Lemma backfill_keeps (g L : string) j j' (L' n : string) v :
  backfill depth g L j = Returns j' →
  stored j L' n = Some v → stored j' L' n = Some v.
Proof.
  intros Hb Hs.
  apply backfill_inv in Hb as [->|(trans & b & Ht & Hne & Hn & Hw & ->)];
    [done|].
  rewrite (stored_backfilled _ _ _ _ _ _ _ Ht).
  case_decide as Heq; [|done]. destruct Heq as [-> ->].
  rewrite (stored_lookup _ _ _ _ Ht) in Hs. congruence.
Qed.

(** The turn at a slot leaves in it what [slot] says. *)
Lemma backfill_fills (g L : string) j j' :
  backfilled j → grandName i g →
  L ≠ defaultLocale i →
  is_Some (compiledTranslations i !! L) →
  backfill depth g L j = Returns j' →
  stored j' L g = slot L g.
Proof.
  intros Hj Hg Hne Htab Hb. unfold slot.
  destruct (lookupBestFallback_returns rank i Hranked depth L g (Hdepth L))
    as [r Hr].
  pose proof (lookupBestFallback_backfilled j Hj depth L g (Hdepth L)) as Hwj.
  rewrite Hr in Hwj. rewrite Hr.
  apply (bf_tables j Hj) in Htab as [trans Ht].
  unfold backfill in Hb. rewrite Ht in Hb.
  rewrite decide_False in Hb by (by rewrite (bf_defaultLocale j Hj)).
  rewrite <- (stored_lookup _ _ _ _ Ht) in Hb.
  destruct (stored j L g) as [vj|] eqn:Hjn.
  - injection Hb as <-. rewrite Hjn.
    destruct (stored i L g) as [v|] eqn:Hi.
    + pose proof (bf_kept j Hj _ _ _ Hi). congruence.
    + destruct (bf_new j Hj _ _ _ Hi Hjn) as (_ & _ & _ & Hw). congruence.
  - rewrite Hwj in Hb. simpl in Hb.
    destruct (stored i L g) as [v|] eqn:Hi.
    { pose proof (bf_kept j Hj _ _ _ Hi). congruence. }
    destruct r as [b|]; injection Hb as <-; [|done].
    by rewrite (stored_backfilled _ _ _ _ _ _ _ Ht), decide_True.
Qed.

Lemma slot_stable j j' (L n : string) :
  backfilled j' →
  (∀ v, stored j L n = Some v → stored j' L n = Some v) →
  stored j L n = slot L n →
  stored j' L n = slot L n.
Proof.
  intros Hj' Hkeep. unfold slot.
  destruct (stored i L n) as [v|] eqn:Hi; [intros _; by apply (bf_kept j' Hj')|].
  destruct (lookupBestFallback depth i L n) as [[b|]|] eqn:Hw.
  - apply Hkeep.
  - intros _. destruct (stored j' L n) as [b|] eqn:Hs; [|done].
    destruct (bf_new j' Hj' _ _ _ Hi Hs) as (_ & _ & _ & ?). congruence.
  - intros _. destruct (stored j' L n) as [b|] eqn:Hs; [|done].
    destruct (bf_new j' Hj' _ _ _ Hi Hs) as (_ & _ & _ & ?). congruence.
Qed.

Lemma rangeLocales_backfilled (g : string) (locales : list string) j j' :
  backfilled j → grandName i g →
  rangeLocales depth g locales j = Returns j' →
  backfilled j'.
Proof.
  intros Hj Hg. revert j Hj.
  induction locales as [|L rest IH]; intros j Hj; simpl.
  - by intros [= <-].
  - destruct (backfill depth g L j) as [j1|] eqn:Hb; simpl; [|done].
    apply IH. by eapply backfill_backfilled.
Qed.

Lemma rangeLocales_keeps (g : string) (locales : list string) j j'
    (L' n : string) v :
  rangeLocales depth g locales j = Returns j' →
  stored j L' n = Some v → stored j' L' n = Some v.
Proof.
  revert j. induction locales as [|L rest IH]; intros j; simpl.
  - by intros [= <-].
  - destruct (backfill depth g L j) as [j1|] eqn:Hb; simpl; [|done].
    intros Hr Hs. apply (IH j1 Hr). by eapply backfill_keeps.
Qed.

Lemma rangeLocales_fills (g : string) (locales : list string) (L : string)
    j j' :
  backfilled j → grandName i g →
  L ∈ locales →
  L ≠ defaultLocale i →
  is_Some (compiledTranslations i !! L) →
  rangeLocales depth g locales j = Returns j' →
  stored j' L g = slot L g.
Proof.
  intros Hj Hg Hin Hne Htab. revert j Hj.
  induction locales as [|L0 rest IH]; intros j Hj; [by apply elem_of_nil in Hin|].
  simpl. destruct (backfill depth g L0 j) as [j1|] eqn:Hb; simpl; [|done].
  intros Hr.
  assert (backfilled j1) as Hj1 by by eapply backfill_backfilled.
  apply elem_of_cons in Hin as [->|Hin]; [|by apply (IH Hin j1)].
  apply (slot_stable j1).
  - by eapply rangeLocales_backfilled.
  - intros v. by eapply rangeLocales_keeps.
  - by apply (backfill_fills g L0 j j1).
Qed.

Lemma grandName_backfilled j (key : string) grandTrans :
  backfilled j →
  stored j (defaultLocale j) key = Some grandTrans →
  grandName i (name grandTrans).
Proof.
  intros Hj Hs. rewrite (bf_defaultLocale j Hj), backfilled_default in Hs
    by done.
  by exists key, grandTrans.
Qed.

Lemma compileFallbacks_backfilled (visits : list (string * list string))
    j j' :
  backfilled j →
  compileFallbacks depth visits j = Returns j' →
  backfilled j'.
Proof.
  revert j. induction visits as [|[key locales] rest IH]; intros j Hj; simpl.
  - by intros [= <-].
  - destruct (stored j (defaultLocale j) key) as [grandTrans|] eqn:Hg;
      [|by apply IH].
    destruct (rangeLocales depth (name grandTrans) locales j) as [j1|] eqn:Hr;
      simpl; [|done].
    apply IH. eapply rangeLocales_backfilled; [done| |done].
    by eapply grandName_backfilled.
Qed.

Lemma compileFallbacks_keeps (visits : list (string * list string)) j j'
    (L' n : string) v :
  compileFallbacks depth visits j = Returns j' →
  stored j L' n = Some v → stored j' L' n = Some v.
Proof.
  revert j. induction visits as [|[key locales] rest IH]; intros j; simpl.
  - by intros [= <-].
  - destruct (stored j (defaultLocale j) key) as [grandTrans|]; [|by apply IH].
    destruct (rangeLocales depth (name grandTrans) locales j) as [j1|] eqn:Hr;
      simpl; [|done].
    intros Hc Hs. apply (IH j1 Hc). by eapply rangeLocales_keeps.
Qed.

Lemma compileFallbacks_fills (visits : list (string * list string))
    (key : string) (locales : list string) grandTrans (L : string) j j' :
  backfilled j →
  (key, locales) ∈ visits →
  stored i (defaultLocale i) key = Some grandTrans →
  L ∈ locales →
  L ≠ defaultLocale i →
  is_Some (compiledTranslations i !! L) →
  compileFallbacks depth visits j = Returns j' →
  stored j' L (name grandTrans) = slot L (name grandTrans).
Proof.
  intros Hj Hin Hg HL Hne Htab. revert j Hj.
  induction visits as [|[key0 locales0] rest IH]; intros j Hj;
    [by apply elem_of_nil in Hin|].
  simpl.
  destruct (stored j (defaultLocale j) key0) as [grandTrans0|] eqn:Hg0.
  - destruct (rangeLocales depth (name grandTrans0) locales0 j) as [j1|]
      eqn:Hr; simpl; [|done].
    intros Hc.
    assert (backfilled j1) as Hj1.
    { eapply rangeLocales_backfilled; [done| |done].
      by eapply grandName_backfilled. }
    apply elem_of_cons in Hin as [[= <- <-]|Hin]; [|by apply (IH Hin j1)].
    rewrite (bf_defaultLocale j Hj), backfilled_default in Hg0 by done.
    assert (grandTrans0 = grandTrans) as -> by congruence.
    apply (slot_stable j1).
    + by eapply compileFallbacks_backfilled.
    + intros v. by eapply compileFallbacks_keeps.
    + apply (rangeLocales_fills (name grandTrans) locales L j j1); try done.
      by exists key, grandTrans.
  - apply elem_of_cons in Hin as [[= <- <-]|Hin]; [|by apply (IH Hin j)].
    rewrite (bf_defaultLocale j Hj), backfilled_default in Hg0 by done.
    congruence.
Qed.

Lemma tableOf_lookup j (locale key : string) :
  tableOf j locale !! key = stored j locale key.
Proof.
  unfold tableOf, stored.
  by destruct (compiledTranslations j !! locale).
Qed.

(** The pass on a ranked fallback table, whatever the order of its visits:
    it returns, it leaves every entry it found and every field but the
    store, and every slot of another locale than the default one for a name
    of the default locale's translations holds what [slot] says. *)
Theorem compileFallbacks_spec (visits : list (string * list string)) :
  validVisits i visits →
  ∃ i', compileFallbacks depth visits i = Returns i'
        ∧ backfilled i'
        ∧ ∀ L n, L ≠ defaultLocale i →
                 is_Some (compiledTranslations i !! L) →
                 grandName i n →
                 stored i' L n = slot L n.
Proof.
  intros [Hkeys Hlocales].
  destruct (compileFallbacks_returns rank depth visits i Hranked Hdepth)
    as [i' Hc].
  exists i'. split; [done|].
  split; [by eapply compileFallbacks_backfilled; [apply backfilled_refl|]|].
  intros L n Hne Htab (key & grandTrans & Hg & <-).
  assert (key ∈ visits.*1) as Hin.
  { unfold visitsKeysOf in Hkeys. rewrite Hkeys.
    apply elem_of_elements, elem_of_dom. rewrite tableOf_lookup. by eexists. }
  apply list_elem_of_fmap in Hin as ([key' locales] & -> & Hin). simpl in *.
  eapply compileFallbacks_fills; [apply backfilled_refl|done..| |done|done|done].
  rewrite Forall_forall in Hlocales. specialize (Hlocales _ Hin).
  unfold visitsKeysOf in Hlocales. simpl in Hlocales. rewrite Hlocales.
  by apply elem_of_elements, elem_of_dom.
Qed.

End BackfillPass.

(** ** [LoadMap] *)

Lemma fmap_fst_paired {A B : Type} (f : A → B) (xs : list A) :
  ((λ x, (x, f x)) <$> xs).*1 = xs.
Proof. induction xs as [|x xs IH]; [done|]. rewrite !fmap_cons. by f_equal. Qed.

Lemma canonicalOrder_valid i (languages : gmap string (gmap string string)) :
  validOrder Parse unicodeLower (canonicalOrder Parse unicodeLower i languages)
    i languages.
Proof.
  unfold validOrder, canonicalOrder, validVisits, visitsKeysOf. simpl.
  split; [done|]. split.
  - by rewrite fmap_fst_paired.
  - rewrite Forall_fmap. apply Forall_forall. intros key _.
    unfold compose. simpl. reflexivity.
Qed.

Lemma LoadMap_spec (rank : string → nat) (depth : nat) (order : rangeOrder) i
    (languages : gmap string (gmap string string)) :
  rankedFallbacks rank i →
  (∀ locale, rank locale < depth)%nat →
  validOrder Parse unicodeLower order i languages →
  let i1 := rangeLanguages Parse unicodeLower (languagesOrder order)
              languages i in
  ∃ i', LoadMap Parse unicodeLower depth order i languages = Returns (i', None)
        ∧ backfilled depth i1 i'
        ∧ ∀ L n, L ≠ defaultLocale i1 →
                 is_Some (compiledTranslations i1 !! L) →
                 grandName i1 n →
                 stored i' L n = slot depth i1 L n.
Proof.
  intros Hranked Hdepth [_ Hvisits] i1.
  assert (rankedFallbacks rank i1) as Hranked1.
  { unfold rankedFallbacks. subst i1. by rewrite rangeLanguages_fallbacks. }
  destruct (compileFallbacks_spec rank depth i1 Hranked1 Hdepth _ Hvisits)
    as (i' & Hc & Hspec).
  exists i'. split; [|done]. unfold LoadMap. fold i1. by rewrite Hc.
Qed.

(** ** Passes that write nothing, and passes that do not return *)

Lemma compileFallbacks_cons (depth : nat) (key : string)
    (locales : list string) (rest : list (string * list string)) i :
  compileFallbacks depth ((key, locales) :: rest) i =
    match stored i (defaultLocale i) key with
    | None => compileFallbacks depth rest i
    | Some grandTrans =>
        i' ←! rangeLocales depth (name grandTrans) locales i;
        compileFallbacks depth rest i'
    end.
Proof. reflexivity. Qed.

Lemma backfill_only_default (depth : nat) (g L : string) i :
  (∀ L', is_Some (compiledTranslations i !! L') → L' = defaultLocale i) →
  backfill depth g L i = Returns i.
Proof.
  intros Honly. unfold backfill.
  destruct (compiledTranslations i !! L) as [trans|] eqn:Ht; [|done].
  rewrite decide_True; [done|]. apply Honly. by eexists.
Qed.

Lemma rangeLocales_only_default (depth : nat) (g : string)
    (locales : list string) i :
  (∀ L', is_Some (compiledTranslations i !! L') → L' = defaultLocale i) →
  rangeLocales depth g locales i = Returns i.
Proof.
  intros Honly. induction locales as [|L rest IH]; simpl; [done|].
  by rewrite backfill_only_default.
Qed.

(** A store that holds the default locale alone goes through the pass as
    it is. *)
Lemma compileFallbacks_only_default (depth : nat)
    (visits : list (string * list string)) i :
  (∀ L', is_Some (compiledTranslations i !! L') → L' = defaultLocale i) →
  compileFallbacks depth visits i = Returns i.
Proof.
  intros Honly. induction visits as [|[key locales] rest IH]; simpl; [done|].
  destruct (stored i (defaultLocale i) key); [|done].
  by rewrite rangeLocales_only_default.
Qed.

(** The inner loop does not return when the turn at one of its locales
    does not and the turns at the others write nothing. *)
Lemma rangeLocales_stuck (depth : nat) (g : string) (locales : list string)
    (L : string) i :
  L ∈ locales →
  (∀ L', L' ∈ locales → L' ≠ L → backfill depth g L' i = Returns i) →
  backfill depth g L i = OutOfDepth →
  rangeLocales depth g locales i = OutOfDepth.
Proof.
  intros Hin Hothers Hstuck.
  induction locales as [|L0 rest IH]; [by apply elem_of_nil in Hin|].
  simpl. destruct (decide (L0 = L)) as [->|Hne]; [by rewrite Hstuck|].
  rewrite Hothers by (done || apply elem_of_cons; by left). simpl.
  apply IH.
  - apply elem_of_cons in Hin as [?|?]; [congruence|done].
  - intros L' HL'. apply Hothers, elem_of_cons. by right.
Qed.

(** The outer loop with one key to visit. *)
Lemma single_visit (visits : list (string * list string)) (key : string)
    (P : string * list string → Prop) :
  visits.*1 ≡ₚ [key] → Forall P visits →
  ∃ locales, visits = [(key, locales)] ∧ P (key, locales).
Proof.
  intros Hperm%Permutation_singleton_r HP.
  destruct visits as [|[key' locales] [|? ?]]; simplify_eq/=.
  exists locales. split; [done|]. by apply Forall_inv in HP.
Qed.

(** A name that is not among the default locale's is not backfilled. *)
Lemma backfilled_not_grandName (depth : nat) i j (L n : string) :
  backfilled depth i j →
  stored i L n = None →
  ¬ grandName i n →
  stored j L n = None.
Proof.
  intros Hj Hi Hn. destruct (stored j L n) as [b|] eqn:Hs; [|done].
  by destruct (bf_new _ _ _ Hj _ _ _ Hi Hs) as (_ & _ & ? & _).
Qed.

(** ** The claims on the fallback walk and on loading *)

(** C3 (as amended): on a fallback table whose locales can be ranked, every
    fallback below the locale that names it (a table without a cycle), the
    walk from any locale for any name returns, with the same result for
    every nesting that exceeds the rank of the locale. *)
Theorem C3_walk_returns_on_ranked_fallbacks (rank : string → nat) i
    (locale name : string) :
  rankedFallbacks rank i →
  ∃ r, ∀ depth : nat,
    (rank locale < depth)%nat →
    lookupBestFallback depth i locale name = Returns r.
Proof.
  intros Hranked.
  destruct (lookupBestFallback_returns rank i Hranked (S (rank locale))
              locale name) as [r Hr]; [lia|].
  exists r. intros depth Hlt.
  apply (lookupBestFallback_mono (S (rank locale))); [lia|done].
Qed.

(** C10 (as amended): on a fallback table whose locales can be ranked,
    [LoadMap] returns for every input mapping and every order of its loops,
    and the error it returns is nil. *)
Theorem C10_LoadMap_returns_nil_on_ranked_fallbacks (rank : string → nat)
    (depth : nat) (order : rangeOrder) i
    (languages : gmap string (gmap string string)) :
  rankedFallbacks rank i →
  (∀ locale, rank locale < depth)%nat →
  ∃ i', LoadMap Parse unicodeLower depth order i languages
        = Returns (i', None).
Proof.
  intros Hranked Hdepth. unfold LoadMap.
  destruct (compileFallbacks_returns rank depth (fallbacksOrder order)
              (rangeLanguages Parse unicodeLower (languagesOrder order)
                 languages i)) as [i' ->]; [|done|by exists i'].
  unfold rankedFallbacks. by rewrite rangeLanguages_fallbacks.
Qed.

Lemma readFiles_fails (ReadFile : string → error + list Byte.byte) i
    (good : list string) (v : string) (rest : list string) (err : error)
    (data : gmap string (gmap string string)) :
  Forall (fileLoads ReadFile i) good →
  fileFails ReadFile i v err →
  readFiles unicodeLower ReadFile i (good ++ v :: rest) data = inl err.
Proof.
  intros Hgood Hfail. revert data.
  induction Hgood as [|v0 good (b & trans & Hb & Ht) _ IH]; intros data; simpl.
  - destruct Hfail as [->|(b & -> & ->)]; done.
  - rewrite Hb, Ht. apply IH.
Qed.

(** When [LoadFiles] returns an error, the state is the one it was called
    in. *)
Lemma LoadFiles_error_intact (depth : nat) (order : rangeOrder)
    (ReadFile : string → error + list Byte.byte) i
    (filenames : list string) i' (err : error) :
  LoadFiles Parse unicodeLower depth order ReadFile i filenames
  = Returns (i', Some err) →
  i' = i.
Proof.
  unfold LoadFiles.
  destruct (readFiles unicodeLower ReadFile i filenames ∅) as [e|data].
  - by intros [= <- _].
  - intros Hl. by apply LoadMap_error_nil in Hl.
Qed.

(** C9: when a file of a [LoadFiles] call cannot be read or decoded, the
    files before it being fine, the call returns that file's error to its
    caller and the state it returns is the state it was called in: every
    entry of the store is as the earlier loads left it. *)
Theorem C9_failed_load_keeps_the_store (depth : nat) (order : rangeOrder)
    (ReadFile : string → error + list Byte.byte) i
    (good : list string) (v : string) (rest : list string) (err : error) :
  Forall (fileLoads ReadFile i) good →
  fileFails ReadFile i v err →
  LoadFiles Parse unicodeLower depth order ReadFile i (good ++ v :: rest)
  = Returns (i, Some err).
Proof.
  intros Hgood Hfail. unfold LoadFiles.
  by rewrite (readFiles_fails _ _ _ _ _ _ _ Hgood Hfail).
Qed.

Lemma nameInsenstive_ja_jp : nameInsenstive unicodeLower "ja-jp" = "ja-jp".
Proof. reflexivity. Qed.

(** C4 (as amended): with the fallback table
    [{"ja-jp": ["ko-kr"], "ko-kr": ["zh-tw"]}] and, once the batch is loaded,
    a name [k] that the default locale and ["zh-tw"] define and that the
    tables of ["ja-jp"] and ["ko-kr"] lack, [LoadMap] returns and a locale
    bound to ["ja-jp"] looks [k] up to the translation of ["zh-tw"], through
    ja-jp → ko-kr → zh-tw, whatever the order of the loops. *)
Theorem C4_recursive_chain_resolves (depth : nat) (order : rangeOrder) i
    (languages : gmap string (gmap string string)) (k : string) v grandTrans :
  let i1 := rangeLanguages Parse unicodeLower (languagesOrder order)
              languages i in
  fallbacks i = {[ "ja-jp" := ["ko-kr"]; "ko-kr" := ["zh-tw"] ]} →
  validOrder Parse unicodeLower order i languages →
  (3 ≤ depth)%nat →
  stored i1 (defaultLocale i1) k = Some grandTrans →
  name grandTrans = k →
  stored i1 "zh-tw" k = Some v →
  is_Some (compiledTranslations i1 !! "ja-jp") →
  stored i1 "ja-jp" k = None →
  stored i1 "ko-kr" k = None →
  ∃ i', LoadMap Parse unicodeLower depth order i languages = Returns (i', None)
        ∧ Locale_locale (NewLocale unicodeLower i' ["ja-jp"]) = "ja-jp"
        ∧ lookup Parse (NewLocale unicodeLower i' ["ja-jp"]) k i' = (v, i').
Proof.
  intros i1 Hfb Hvalid Hd Hg Hname Hv Htab Hja Hko.
  set (rank := λ l : string,
         if decide (l = "ja-jp") then 2%nat
         else if decide (l = "ko-kr") then 1%nat else 0%nat).
  assert (rankedFallbacks rank i) as Hranked.
  { unfold rankedFallbacks. rewrite Hfb.
    apply map_Forall_insert_2; [|apply map_Forall_singleton];
      repeat constructor; vm_compute; lia. }
  assert (∀ locale, rank locale < depth)%nat as Hdepth.
  { intros locale. unfold rank. repeat case_decide; lia. }
  destruct (LoadMap_spec rank depth order i languages Hranked Hdepth Hvalid)
    as (i' & Hload & Hbf & Hslot).
  fold i1 in Hbf, Hslot.
  assert (fallbacks i1 = {[ "ja-jp" := ["ko-kr"]; "ko-kr" := ["zh-tw"] ]})
    as Hfb1 by (subst i1; by rewrite rangeLanguages_fallbacks).
  assert ("ja-jp" ≠ defaultLocale i1) as Hne by (intros Heq; congruence).
  assert (stored i' "ja-jp" k = Some v) as Hs.
  { rewrite Hslot; [|done|done|by exists k, grandTrans].
    unfold slot. rewrite Hja.
    destruct depth as [|[|depth]]; [lia..|].
    rewrite lookupBestFallback_unfold, Hfb1, lookup_insert_eq. simpl.
    rewrite Hko, Hfb1.
    rewrite lookup_insert_ne, lookup_singleton_eq by done. simpl.
    by rewrite Hv. }
  assert (Locale_locale (NewLocale unicodeLower i' ["ja-jp"]) = "ja-jp")
    as Hlocale.
  { unfold NewLocale. simpl. rewrite nameInsenstive_ja_jp.
    apply (bf_tables _ _ _ Hbf) in Htab as [trans ->]. done. }
  exists i'. repeat split; [done..|].
  apply lookup_stored. by rewrite Hlocale.
Qed.

End Properties.

(** * Further properties

    Properties of the code that the claims above do not speak of: the
    canonical names, the header parser, the loaders, the backfill pass and
    the lookups. *)

(** ** Strings and their bytes *)

Lemma bytes_app (a b : string) : bytes (a +:+ b) = bytes a ++ bytes b.
Proof. induction a as [|c a IH]; simpl; [done|]. by rewrite IH. Qed.

Lemma bytes_inj (a b : string) : bytes a = bytes b → a = b.
Proof.
  revert b. induction a as [|c a IH]; intros [|d b]; simpl; try done.
  intros [= -> ?]. f_equal. by apply IH.
Qed.

Lemma bytes_rev_app (a b : string) :
  bytes (String.rev_app a b) = reverse (bytes a) ++ bytes b.
Proof.
  revert b. induction a as [|c a IH]; intros b; simpl; [done|].
  rewrite IH. simpl. rewrite reverse_cons. by rewrite <- app_assoc.
Qed.

Lemma length_bytes (s : string) : length (bytes s) = String.length s.
Proof. induction s; simpl; congruence. Qed.

(** [strings.HasPrefix], [strings.Index] and [strings.Contains] by what
    they find. *)
Lemma HasPrefix_true (s p : string) :
  strings.HasPrefix s p = true ↔ ∃ t, s = p +:+ t.
Proof.
  revert s. induction p as [|c p IH]; intros s.
  - split; [by exists s|by destruct s].
  - destruct s as [|a s]; simpl.
    + split; [done|]. by intros [t ?].
    + case_decide as Hc.
      * subst. rewrite IH. split; intros [t Ht]; exists t.
        -- by rewrite Ht.
        -- by injection Ht.
      * split; [done|]. intros [t Ht]. injection Ht as ? ?. done.
Qed.

Lemma Index_byte_cons (a c : ascii) (s : string) :
  strings.Index (String.String a s) (String.String c "")
  = if decide (a = c) then Some O
    else S <$> strings.Index s (String.String c "").
Proof.
  destruct s; simpl; by case_decide.
Qed.

Lemma Index_byte_None (c : ascii) (s : string) :
  strings.Index s (String.String c "") = None
  ↔ Forall (λ a, a ≠ c) (bytes s).
Proof.
  induction s as [|a s IH].
  - simpl. split; [by constructor|done].
  - rewrite Index_byte_cons. simpl. case_decide as Ha.
    + split; [done|]. intros H. by apply Forall_cons in H as [? _].
    + rewrite fmap_None, IH. split; [by constructor|].
      intros H. by apply Forall_cons in H as [_ ?].
Qed.

(** [strings.Contains] on one byte, by the bytes of the string. *)
Lemma Contains_byte_false (c : ascii) (s : string) :
  strings.Contains s (String.String c "") = false ↔ byteFree c s.
Proof.
  unfold strings.Contains, byteFree. rewrite bool_decide_eq_false.
  rewrite <- Index_byte_None. rewrite <- eq_None_not_Some. done.
Qed.

Lemma isASCII_true (s : string) :
  strings.isASCII s = true
  ↔ Forall (λ a, (nat_of_ascii a < 128)%nat) (bytes s).
Proof.
  induction s as [|a s IH]; simpl.
  - split; [by constructor|done].
  - rewrite andb_true_iff, IH, Forall_cons.
    by rewrite Nat.ltb_lt.
Qed.

Lemma bytes_mapBytes (f : ascii → ascii) (s : string) :
  bytes (strings.mapBytes f s) = f <$> bytes s.
Proof. induction s as [|a s IH]; simpl; [done|]. by rewrite IH. Qed.

Lemma bytes_take (n : nat) (s : string) :
  bytes (strings.take n s) = take n (bytes s).
Proof.
  revert s. induction n as [|n IH]; intros [|a s]; simpl; try done.
  by rewrite IH.
Qed.

Lemma append_empty_r (s : string) : s +:+ "" = s.
Proof. apply bytes_inj. by rewrite bytes_app, app_nil_r. Qed.

Lemma append_assoc (a b c : string) : (a +:+ b) +:+ c = a +:+ (b +:+ c).
Proof. apply bytes_inj. by rewrite !bytes_app, app_assoc. Qed.

Lemma rev_app_append (a b X : string) :
  String.rev_app (a +:+ b) X = String.rev_app b (String.rev_app a X).
Proof.
  revert X. induction a as [|c a IH]; intros X; simpl; [done|]. apply IH.
Qed.

Lemma byteFree_app (c : ascii) (a b : string) :
  byteFree c (a +:+ b) ↔ byteFree c a ∧ byteFree c b.
Proof. unfold byteFree. by rewrite bytes_app, Forall_app. Qed.

Lemma byteFree_cons (c a : ascii) (s : string) :
  byteFree c (String.String a s) ↔ a ≠ c ∧ byteFree c s.
Proof. unfold byteFree. simpl. by rewrite Forall_cons. Qed.

(** ** [filepath.Base] on a name without slashes *)

Lemma lastElement_rev_app (rest X acc : string) :
  byteFree "/" rest →
  filepath.lastElement (String.rev_app rest X) acc
  = filepath.lastElement X (rest +:+ acc).
Proof.
  revert X acc. induction rest as [|c rest IH]; intros X acc Hfree; [done|].
  apply Forall_cons in Hfree as [Hc Hfree].
  simpl. rewrite IH by done. simpl. by rewrite decide_False.
Qed.

Lemma rev_app_head (rest X : string) :
  rest ≠ "" → byteFree "/" rest →
  ∃ c r, String.rev_app rest X = String.String c r ∧ c ≠ "/"%char.
Proof.
  revert X. induction rest as [|a rest IH]; intros X Hne Hfree; [done|].
  apply Forall_cons in Hfree as [Ha Hfree]. simpl.
  destruct rest as [|b rest]; [by exists a, X|].
  by apply IH.
Qed.

Lemma Base_rev_app (rest Y : string) :
  rest ≠ "" → byteFree "/" rest →
  (Y = "" ∨ ∃ Y', Y = String.String "/"%char Y') →
  let r := String.rev_app rest Y in
  (if decide (filepath.dropSlashes r = "") then "/"
   else filepath.lastElement (filepath.dropSlashes r) "") = rest.
Proof.
  intros Hne Hfree HY r.
  destruct (rev_app_head rest Y Hne Hfree) as (c & r' & Hr & Hc).
  assert (filepath.dropSlashes r = r) as ->.
  { subst r. rewrite Hr. simpl. by rewrite decide_False. }
  rewrite decide_False by (subst r; by rewrite Hr).
  subst r. rewrite lastElement_rev_app by done.
  rewrite append_empty_r. by destruct HY as [->|[Y' ->]].
Qed.

(** The base of a name without slashes is the name, with or without a
    directory before it. *)
Lemma Base_plain (rest : string) :
  rest ≠ "" → byteFree "/" rest → filepath.Base rest = rest.
Proof.
  intros Hne Hfree. unfold filepath.Base. rewrite decide_False by done.
  apply (Base_rev_app rest ""); auto.
Qed.

Lemma Base_in_directory (dir rest : string) :
  rest ≠ "" → byteFree "/" rest →
  filepath.Base (dir +:+ "/" +:+ rest) = rest.
Proof.
  intros Hne Hfree. unfold filepath.Base.
  rewrite decide_False by (by destruct dir).
  unfold String.rev. rewrite !rev_app_append. simpl.
  apply Base_rev_app; eauto.
Qed.

Lemma lastElement_free (r acc : string) :
  byteFree "/" acc → byteFree "/" (filepath.lastElement r acc).
Proof.
  revert acc. induction r as [|c r IH]; intros acc Hacc; [done|].
  simpl. case_decide; [done|]. apply IH. by apply byteFree_cons.
Qed.

Lemma lastElement_Forall (P : ascii → Prop) (r acc : string) :
  Forall P (bytes r) → Forall P (bytes acc) →
  Forall P (bytes (filepath.lastElement r acc)).
Proof.
  revert acc. induction r as [|c r IH]; intros acc Hr Hacc; [done|].
  simpl in Hr. apply Forall_cons in Hr as [Hc Hr].
  simpl. case_decide; [done|]. apply IH; [done|]. by constructor.
Qed.

Lemma dropSlashes_Forall (P : ascii → Prop) (r : string) :
  Forall P (bytes r) → Forall P (bytes (filepath.dropSlashes r)).
Proof.
  induction r as [|c r IH]; intros Hr; [done|].
  simpl. case_decide; [|done]. apply IH.
  simpl in Hr. by apply Forall_cons in Hr as [_ ?].
Qed.

(** The base of any path is a slash or holds none, and is made of bytes
    of the path. *)
Lemma Base_free (v : string) :
  filepath.Base v = "/" ∨ byteFree "/" (filepath.Base v).
Proof.
  unfold filepath.Base. case_decide.
  { right. repeat constructor. done. }
  case_decide; [by left|]. right. apply lastElement_free. constructor.
Qed.

Lemma Base_isASCII (v : string) :
  strings.isASCII v = true → strings.isASCII (filepath.Base v) = true.
Proof.
  intros Hv. unfold filepath.Base. case_decide; [done|].
  case_decide; [done|]. apply isASCII_true.
  apply lastElement_Forall; [|constructor]. apply dropSlashes_Forall.
  unfold String.rev. rewrite bytes_rev_app, app_nil_r.
  apply Forall_reverse. by apply isASCII_true.
Qed.

(** ** [strings.Split], [strings.Index] and [strings.Contains] *)

Lemma Index_byte_first (c : ascii) (name rest : string) :
  byteFree c name →
  strings.Index (name +:+ String.String c rest) (String.String c "")
  = Some (String.length name).
Proof.
  induction name as [|a name IH]; intros Hfree.
  - change ("" +:+ String.String c rest) with (String.String c rest).
    rewrite Index_byte_cons. by rewrite decide_True.
  - apply byteFree_cons in Hfree as [Ha Hfree]. simpl String.length.
    change (String.String a name +:+ String.String c rest)
      with (String.String a (name +:+ String.String c rest)).
    rewrite Index_byte_cons, decide_False by done. by rewrite IH.
Qed.

Lemma take_append (a b : string) :
  strings.take (String.length a) (a +:+ b) = a.
Proof. induction a as [|c a IH]; simpl; [by destruct b|]. by rewrite IH. Qed.

Lemma drop_append (a b : string) :
  strings.drop (String.length a) (a +:+ b) = b.
Proof. by induction a as [|c a IH]. Qed.

Lemma Index_byte_Some (c : ascii) (s : string) (m : nat) :
  strings.Index s (String.String c "") = Some m →
  byteFree c (strings.take m s).
Proof.
  revert m. induction s as [|a s IH]; intros m; [done|].
  rewrite Index_byte_cons. case_decide as Ha.
  - intros [= <-]. constructor.
  - destruct (strings.Index s (String.String c "")) as [m'|] eqn:Hs; [|done].
    intros [= <-]. simpl. apply byteFree_cons. split; [done|]. by apply IH.
Qed.

Lemma Split_head_cut (c : ascii) (name rest : string) :
  byteFree c name →
  head (strings.Split (name +:+ String.String c rest) (String.String c ""))
  = Some name.
Proof.
  intros Hfree. unfold strings.Split.
  destruct (String.length (name +:+ String.String c rest)) as [|n] eqn:Hlen.
  { rewrite <- length_bytes, bytes_app, length_app in Hlen.
    simpl in Hlen. lia. }
  simpl. rewrite Index_byte_first by done. simpl. by rewrite take_append.
Qed.

Lemma Split_head_whole (c : ascii) (s : string) :
  byteFree c s → strings.Split s (String.String c "") = [s].
Proof.
  intros Hfree. apply Split_without_separator. by apply Index_byte_None.
Qed.

(** The part of a base name that [nameInsenstive] keeps. *)
Lemma Split_dot_head (b : string) :
  ∃ p, head (strings.Split b ".") = Some p
       ∧ byteFree "." p
       ∧ (p = b ∨ ∃ m, p = strings.take m b).
Proof.
  unfold strings.Split.
  destruct (String.length b) as [|n] eqn:Hlen.
  { exists b. split; [done|]. destruct b; [|done].
    split; [constructor|by left]. }
  simpl. destruct (strings.Index b ".") as [m|] eqn:Hidx.
  - exists (strings.take m b). split; [done|].
    split; [by apply Index_byte_Some|right; by exists m].
  - exists b. split; [done|]. split; [by apply Index_byte_None|by left].
Qed.

Lemma take_Forall (P : ascii → Prop) (m : nat) (s : string) :
  Forall P (bytes s) → Forall P (bytes (strings.take m s)).
Proof. rewrite bytes_take. apply Forall_take. Qed.

Lemma concat_cons2 (sep x y : string) (rest : list string) :
  String.concat sep (x :: y :: rest)
  = x +:+ sep +:+ String.concat sep (y :: rest).
Proof. reflexivity. Qed.

Lemma genSplit_S (n : nat) (s sep : string) :
  strings.genSplit (S n) s sep
  = match strings.Index s sep with
    | None => [s]
    | Some m =>
        strings.take m s
        :: strings.genSplit n (strings.drop (m + String.length sep) s) sep
    end.
Proof. reflexivity. Qed.

Lemma drop_append_byte (c : ascii) (x R : string) :
  strings.drop (String.length x + 1) (x +:+ String.String c R) = R.
Proof. induction x as [|a x IH]; simpl; [done|]. apply IH. Qed.

(** Splitting what a one-byte separator joins gives the elements back, as
    long as none of them holds the separator. *)
Lemma genSplit_concat (c : ascii) (items : list string) (n : nat) :
  items ≠ [] → Forall (byteFree c) items →
  (length items ≤ S n)%nat →
  strings.genSplit n (String.concat (String.String c "") items)
    (String.String c "")
  = items.
Proof.
  revert n. induction items as [|x items IH]; intros n Hne Hfree Hlen; [done|].
  apply Forall_cons in Hfree as [Hx Hfree].
  destruct items as [|y rest].
  - simpl String.concat. destruct n as [|n]; [done|]. rewrite genSplit_S.
    by rewrite (proj2 (Index_byte_None c x) Hx).
  - rewrite concat_cons2. destruct n as [|n]; [simpl in Hlen; lia|].
    rewrite genSplit_S.
    change (String.String c "" +:+ ?s) with (String.String c s).
    rewrite Index_byte_first by done. rewrite take_append.
    change (String.length (String.String c "")) with 1%nat.
    rewrite drop_append_byte. f_equal.
    apply IH; [done|done|simpl in *; lia].
Qed.

Lemma concat_length (sep : string) (items : list string) :
  sep ≠ "" →
  (length items ≤ S (String.length (String.concat sep items)))%nat.
Proof.
  intros Hsep. induction items as [|x items IH]; [simpl; lia|].
  destruct items as [|y rest]; [simpl; lia|].
  rewrite concat_cons2. rewrite <- !length_bytes, !bytes_app, !length_app.
  rewrite !length_bytes. rewrite <- length_bytes in IH.
  assert (String.length sep ≠ 0)%nat by by destruct sep.
  rewrite length_bytes in IH. simpl length in *. lia.
Qed.

Lemma Split_concat (c : ascii) (items : list string) :
  items ≠ [] → Forall (byteFree c) items →
  strings.Split (String.concat (String.String c "") items) (String.String c "")
  = items.
Proof.
  intros Hne Hfree. unfold strings.Split. apply genSplit_concat; [done..|].
  by apply concat_length.
Qed.

Lemma Index_unfold (s sep : string) :
  strings.Index s sep
  = if strings.HasPrefix s sep then Some O
    else match s with
         | EmptyString => None
         | String.String _ s' => S <$> strings.Index s' sep
         end.
Proof. by destruct s. Qed.

(** Where [strings.Index] finds the separator, the text is what precedes
    it, the separator and the rest. *)
Lemma Index_Some_cut (s sep : string) (m : nat) :
  strings.Index s sep = Some m →
  s = strings.take m s +:+ sep +:+ strings.drop (m + String.length sep) s.
Proof.
  revert m. induction s as [|a s IH]; intros m; rewrite Index_unfold.
  - destruct (strings.HasPrefix "" sep) eqn:Hp; [|done].
    intros [= <-]. apply HasPrefix_true in Hp as [t Ht].
    by destruct sep.
  - destruct (strings.HasPrefix (String.String a s) sep) eqn:Hp.
    + intros [= <-]. apply HasPrefix_true in Hp as [t Ht].
      rewrite Ht. change (0 + String.length sep)%nat with (String.length sep).
      by rewrite drop_append.
    + destruct (strings.Index s sep) as [m'|] eqn:Hs; [|done].
      intros [= <-]. simpl.
      change (String.String a ?x +:+ ?y) with (String.String a (x +:+ y)).
      f_equal. by apply IH.
Qed.

Lemma genSplit_nonempty (n : nat) (s sep : string) :
  strings.genSplit n s sep ≠ [].
Proof. destruct n; simpl; [done|]. by destruct (strings.Index s sep). Qed.

Lemma concat_cons_nonempty (sep x : string) (xs : list string) :
  xs ≠ [] → String.concat sep (x :: xs) = x +:+ sep +:+ String.concat sep xs.
Proof. by destruct xs. Qed.

Lemma concat_genSplit (n : nat) (s sep : string) :
  String.concat sep (strings.genSplit n s sep) = s.
Proof.
  revert s. induction n as [|n IH]; intros s; [done|]. rewrite genSplit_S.
  destruct (strings.Index s sep) as [m|] eqn:Hidx; [|done].
  rewrite concat_cons_nonempty by apply genSplit_nonempty.
  rewrite IH. symmetry. by apply Index_Some_cut.
Qed.

(** Joining what [Split] returns gives the text back. *)
Lemma concat_Split (s sep : string) :
  String.concat sep (strings.Split s sep) = s.
Proof. apply concat_genSplit. Qed.

Lemma Contains_intro (pre sub post : string) :
  strings.Contains (pre +:+ sub +:+ post) sub = true.
Proof.
  unfold strings.Contains. apply bool_decide_eq_true.
  induction pre as [|a pre IH]; rewrite Index_unfold.
  - change ("" +:+ sub +:+ post) with (sub +:+ post).
    rewrite (proj2 (HasPrefix_true _ _)); [by eexists|by eexists].
  - destruct (strings.HasPrefix _ sub); [by eexists|].
    change (String.String a pre +:+ sub +:+ post)
      with (String.String a (pre +:+ sub +:+ post)).
    cbv iota beta. by apply fmap_is_Some.
Qed.

Lemma Contains_elim (s sub : string) :
  strings.Contains s sub = true → ∃ pre post, s = pre +:+ sub +:+ post.
Proof.
  unfold strings.Contains. intros [m Hm]%bool_decide_eq_true.
  apply Index_Some_cut in Hm. eauto.
Qed.

Lemma Contains_inside (a v b sub : string) :
  strings.Contains (a +:+ v +:+ b) sub = false →
  strings.Contains v sub = false.
Proof.
  intros Hs. destruct (strings.Contains v sub) eqn:Hv; [|done].
  apply Contains_elim in Hv as (pre & post & ->).
  rewrite <- Hs. symmetry.
  replace (a +:+ (pre +:+ sub +:+ post) +:+ b)
    with ((a +:+ pre) +:+ sub +:+ (post +:+ b))
    by by rewrite !append_assoc.
  apply Contains_intro.
Qed.

(** What a text does not contain, none of its parts contains. *)
Lemma genSplit_inside (n : nat) (s sep sub : string) :
  strings.Contains s sub = false →
  Forall (λ v, strings.Contains v sub = false) (strings.genSplit n s sep).
Proof.
  revert s. induction n as [|n IH]; intros s Hs; [by repeat constructor|].
  rewrite genSplit_S.
  destruct (strings.Index s sep) as [m|] eqn:Hidx; [|by repeat constructor].
  apply Index_Some_cut in Hidx. constructor.
  - apply (Contains_inside "" _
             (sep +:+ strings.drop (m + String.length sep) s)).
    simpl. by rewrite <- Hidx.
  - apply IH.
    apply (Contains_inside (strings.take m s +:+ sep) _ "").
    rewrite append_empty_r, append_assoc. by rewrite <- Hidx.
Qed.

(** ** [strings.Trim] on one byte *)

Lemma trimRightByte_cons (a c : ascii) (s : string) :
  a ≠ c →
  strings.trimRightByte (String.String a s) c
  = String.String a (strings.trimRightByte s c).
Proof.
  intros Ha. simpl. destruct (strings.trimRightByte s c); [|done].
  by rewrite decide_False.
Qed.

Lemma trimRightByte_app (a b : string) (c : ascii) :
  strings.trimRightByte b c ≠ "" →
  strings.trimRightByte (a +:+ b) c = a +:+ strings.trimRightByte b c.
Proof.
  intros Hb. induction a as [|x a IH]; [done|].
  change (String.String x a +:+ b) with (String.String x (a +:+ b)).
  simpl. rewrite IH.
  change (String.String x a +:+ strings.trimRightByte b c)
    with (String.String x (a +:+ strings.trimRightByte b c)).
  destruct (a +:+ strings.trimRightByte b c) as [|y r] eqn:Heq; [|done].
  exfalso. destruct a; [by apply Hb|discriminate].
Qed.

Lemma trimRightByte_free (s : string) (c : ascii) :
  byteFree c s → strings.trimRightByte s c = s.
Proof.
  induction s as [|a s IH]; intros Hfree; [done|].
  apply byteFree_cons in Hfree as [Ha Hfree].
  by rewrite trimRightByte_cons, IH.
Qed.

Lemma trimRightByte_all (s : string) (c : ascii) :
  Forall (λ a, a = c) (bytes s) → strings.trimRightByte s c = "".
Proof.
  induction s as [|a s IH]; intros Hall; [done|].
  simpl in Hall. apply Forall_cons in Hall as [-> Hall].
  simpl. rewrite IH by done. by rewrite decide_True.
Qed.

Lemma trimLeftByte_all (pad s : string) (c : ascii) :
  Forall (λ a, a = c) (bytes pad) →
  strings.trimLeftByte (pad +:+ s) c = strings.trimLeftByte s c.
Proof.
  induction pad as [|a pad IH]; intros Hall; [done|].
  simpl in Hall. apply Forall_cons in Hall as [-> Hall].
  simpl. rewrite decide_True by done. by apply IH.
Qed.

Lemma trimLeftByte_empty (s : string) (c : ascii) :
  strings.trimLeftByte s c = "" → Forall (λ a, a = c) (bytes s).
Proof.
  induction s as [|a s IH]; [constructor|]. simpl.
  case_decide as Ha; [|done]. intros Hs. constructor; [done|by apply IH].
Qed.

Lemma trimRightByte_all_inv (s : string) (c : ascii) :
  Forall (λ a, a = c) (bytes (strings.trimRightByte s c)) →
  Forall (λ a, a = c) (bytes s).
Proof.
  induction s as [|a s IH]; [done|]. simpl.
  destruct (strings.trimRightByte s c) as [|b r] eqn:Hr.
  - case_decide as Ha.
    + intros _. constructor; [done|]. apply IH. constructor.
    + intros Hall. by apply Forall_cons in Hall as [? _].
  - intros Hall. simpl in Hall. apply Forall_cons in Hall as [-> Hall].
    constructor; [done|]. by apply IH.
Qed.

Lemma TrimByte_empty (pad : string) (c : ascii) :
  strings.TrimByte pad c = "" → Forall (λ a, a = c) (bytes pad).
Proof.
  unfold strings.TrimByte. intros Hpad.
  by apply trimRightByte_all_inv, trimLeftByte_empty.
Qed.

(** One element of the header: spaces, a language range, and parameters
    that a [";"] introduces. *)
Lemma TrimByte_element (pad tag params : string) :
  strings.TrimByte pad " " = "" →
  byteFree " " tag → byteFree ";" tag →
  params = "" ∨ strings.HasPrefix params ";" = true →
  head (strings.Split (strings.TrimByte (pad +:+ tag +:+ params) " ") ";")
  = Some tag.
Proof.
  intros Hpad%TrimByte_empty Hspace Hsemi Hparams.
  assert (∃ params',
            strings.trimRightByte (tag +:+ params) " " = tag +:+ params'
            ∧ (params' = "" ∨ ∃ q, params' = String.String ";"%char q))
    as (params' & Htrim & Hparams').
  { destruct Hparams as [->|Hprefix].
    - exists "". rewrite append_empty_r. split; [|by left].
      by apply trimRightByte_free.
    - apply HasPrefix_true in Hprefix as [q ->].
      change (";" +:+ q) with (String.String ";"%char q).
      exists (String.String ";"%char (strings.trimRightByte q " ")).
      split; [|eauto].
      rewrite trimRightByte_app.
      + by rewrite (trimRightByte_cons ";" " ").
      + by rewrite (trimRightByte_cons ";" " "). }
  assert (strings.TrimByte (pad +:+ tag +:+ params) " " = tag +:+ params')
    as ->.
  { unfold strings.TrimByte.
    destruct (decide (tag +:+ params' = "")) as [Hempty|Hne].
    - assert (strings.trimRightByte (pad +:+ tag +:+ params) " " = "") as ->.
      { apply trimRightByte_all. rewrite bytes_app. apply Forall_app.
        split; [done|]. apply trimRightByte_all_inv.
        rewrite Htrim, Hempty. constructor. }
      by rewrite Hempty.
    - rewrite trimRightByte_app by by rewrite Htrim.
      rewrite Htrim, trimLeftByte_all by done.
      destruct tag as [|a tag].
      + by destruct Hparams' as [->|[q ->]].
      + apply byteFree_cons in Hspace as [Ha _]. simpl.
        by rewrite decide_False. }
  destruct Hparams' as [->|[q ->]].
  - rewrite append_empty_r. by rewrite Split_head_whole.
  - by apply Split_head_cut.
Qed.

(** ** Canonical names *)

Lemma canonByte_idemp (c : ascii) : canonByte (canonByte c) = canonByte c.
Proof. by destruct c as [[] [] [] [] [] [] [] []]; vm_compute. Qed.

Lemma canonByte_ascii (c : ascii) :
  (nat_of_ascii c < 128)%nat → (nat_of_ascii (canonByte c) < 128)%nat.
Proof.
  destruct c as [[] [] [] [] [] [] [] []]; vm_compute; lia.
Qed.

Lemma canonByte_slash (c : ascii) : canonByte c = "/"%char → c = "/"%char.
Proof. by destruct c as [[] [] [] [] [] [] [] []]; vm_compute. Qed.

Lemma canonByte_dot (c : ascii) : canonByte c = "."%char → c = "."%char.
Proof. by destruct c as [[] [] [] [] [] [] [] []]; vm_compute. Qed.

Lemma canonByte_lower (c : ascii) :
  strings.lowerByte (canonByte c) = canonByte c.
Proof. by destruct c as [[] [] [] [] [] [] [] []]; vm_compute. Qed.

Section CanonicalNames.

Variable unicodeLower : string → string.

Lemma nameInsenstive_canon (v : string) :
  nameInsenstive unicodeLower v
  = canon unicodeLower
      (default "" (head (strings.Split (filepath.Base v) "."))).
Proof. reflexivity. Qed.

Lemma mapBytes_compose (f g : ascii → ascii) (s : string) :
  strings.mapBytes g (strings.mapBytes f s) = strings.mapBytes (g ∘ f) s.
Proof. induction s as [|c s IH]; simpl; [done|]. by rewrite IH. Qed.

Lemma mapBytes_ext (f g : ascii → ascii) (s : string) :
  (∀ c, f c = g c) → strings.mapBytes f s = strings.mapBytes g s.
Proof.
  intros H. induction s as [|c s IH]; simpl; [done|]. by rewrite H, IH.
Qed.

Lemma canon_ascii (p : string) :
  strings.isASCII p = true →
  canon unicodeLower p = strings.mapBytes canonByte p.
Proof.
  intros Hp. unfold canon, strings.ToLower, strings.ReplaceAllByte.
  rewrite Hp, mapBytes_compose. by apply mapBytes_ext.
Qed.

Lemma isASCII_canon (p : string) :
  strings.isASCII p = true →
  strings.isASCII (strings.mapBytes canonByte p) = true.
Proof.
  rewrite !isASCII_true, bytes_mapBytes, Forall_fmap.
  intros Hp. eapply Forall_impl; [exact Hp|]. intros c. apply canonByte_ascii.
Qed.

Lemma byteFree_canon (c : ascii) (p : string) :
  (∀ a, canonByte a = c → a = c) →
  byteFree c p → byteFree c (strings.mapBytes canonByte p).
Proof.
  intros Hc. unfold byteFree. rewrite bytes_mapBytes, Forall_fmap.
  intros Hp. eapply Forall_impl; [exact Hp|]. intros a Ha Heq. by apply Ha, Hc.
Qed.

Lemma canon_canon (p : string) :
  strings.isASCII p = true →
  canon unicodeLower (canon unicodeLower p) = canon unicodeLower p.
Proof.
  intros Hp. rewrite (canon_ascii p Hp).
  rewrite canon_ascii by by apply isASCII_canon.
  rewrite mapBytes_compose. apply mapBytes_ext. intros c. apply canonByte_idemp.
Qed.

(** A canonical name that is neither empty nor a slash is what
    [nameInsenstive] makes of itself. *)
Lemma nameInsenstive_plain (r : string) :
  byteFree "/" r → byteFree "." r → canon unicodeLower r = r →
  nameInsenstive unicodeLower r = r.
Proof.
  intros Hslash Hdot Hcanon. rewrite nameInsenstive_canon.
  destruct (decide (r = "")) as [->|Hne].
  { cbn. exact Hcanon. }
  rewrite Base_plain by done. by rewrite Split_head_whole.
Qed.

(** The canonical name of an ASCII name, byte by byte. *)
Lemma nameInsenstive_shape (v : string) :
  strings.isASCII v = true →
  ∃ p, nameInsenstive unicodeLower v = strings.mapBytes canonByte p
       ∧ strings.isASCII p = true
       ∧ byteFree "." p
       ∧ (p = "/" ∨ byteFree "/" p).
Proof.
  intros Hv. rewrite (nameInsenstive_canon v).
  pose proof (Base_isASCII v Hv) as Hb.
  destruct (Split_dot_head (filepath.Base v)) as (p & -> & Hdot & Hp).
  simpl. exists p.
  assert (strings.isASCII p = true) as Hascii.
  { destruct Hp as [->|[m ->]]; [done|].
    apply isASCII_true, take_Forall. by apply isASCII_true. }
  split; [by apply canon_ascii|]. split; [done|]. split; [done|].
  destruct (Base_free v) as [Hb'|Hb'].
  - destruct Hp as [->|[m ->]]; [by left|]. rewrite Hb'.
    destruct m as [|m]; [right; constructor|left; by destruct m].
  - right. destruct Hp as [->|[m ->]]; [done|]. by apply take_Forall.
Qed.

Lemma mapBytes_canonByte_fixed (p : string) :
  strings.isASCII p = true →
  canon unicodeLower (strings.mapBytes canonByte p)
  = strings.mapBytes canonByte p.
Proof.
  intros Hp. rewrite <- (canon_ascii p Hp). by apply canon_canon.
Qed.

(** [nameInsenstive] leaves the canonical name of an ASCII name as it
    is. *)
Lemma nameInsenstive_fixed (v : string) :
  strings.isASCII v = true →
  nameInsenstive unicodeLower (nameInsenstive unicodeLower v)
  = nameInsenstive unicodeLower v.
Proof.
  intros Hv.
  destruct (nameInsenstive_shape v Hv) as (p & -> & Hascii & Hdot & Hslash).
  destruct Hslash as [->|Hslash]; [done|].
  apply nameInsenstive_plain.
  - apply byteFree_canon; [apply canonByte_slash|done].
  - apply byteFree_canon; [apply canonByte_dot|done].
  - by apply mapBytes_canonByte_fixed.
Qed.

Lemma nameInsenstive_no_underscore (raw : string) :
  strings.Contains (nameInsenstive unicodeLower raw) "_" = false.
Proof.
  apply Contains_byte_false. unfold nameInsenstive, strings.ReplaceAllByte.
  unfold byteFree. rewrite bytes_mapBytes. apply Forall_fmap, Forall_true.
  intros c. simpl. by case_decide.
Qed.

(** X1: the canonical name of an ASCII name is in canonical form.
    [nameInsenstive] maps it to itself, so that a name which the package
    has canonicalized, such as the one that [Locale()] returns, can be
    handed back to [NewLocale]; it is an ASCII name without an underscore
    and without a dot, and [strings.ToLower] leaves it as it is. *)
Theorem nameInsenstive_is_canonical (v : string) :
  strings.isASCII v = true →
  let r := nameInsenstive unicodeLower v in
  nameInsenstive unicodeLower r = r
  ∧ strings.isASCII r = true
  ∧ strings.Contains r "_" = false
  ∧ strings.Contains r "." = false
  ∧ strings.ToLower unicodeLower r = r.
Proof.
  intros Hv r. split; [by apply nameInsenstive_fixed|].
  split; [|split; [apply nameInsenstive_no_underscore|]].
  all: subst r;
    destruct (nameInsenstive_shape v Hv) as (p & -> & Hascii & Hdot & _).
  - by apply isASCII_canon.
  - split.
    + apply Contains_byte_false, byteFree_canon; [apply canonByte_dot|done].
    + unfold strings.ToLower. rewrite isASCII_canon by done.
      rewrite mapBytes_compose. apply mapBytes_ext. intros c.
      apply canonByte_lower.
Qed.

(** X2: the locale of a translation file is the part of its base name
    before the first dot, in canonical form: the directory and whatever
    follows that dot, further dots included, do not count.  So
    [dir/zh_TW.music.json] and [zh_TW.json] are files of the locale that
    [zh_TW] names. *)
Theorem nameInsenstive_of_file (dir name ext : string) :
  strings.Contains name "/" = false →
  strings.Contains name "." = false →
  strings.Contains ext "/" = false →
  nameInsenstive unicodeLower (dir +:+ "/" +:+ name +:+ "." +:+ ext)
  = nameInsenstive unicodeLower name
  ∧ nameInsenstive unicodeLower (name +:+ "." +:+ ext)
    = nameInsenstive unicodeLower name.
Proof.
  rewrite !Contains_byte_false. intros Hns Hnd Hes.
  assert (byteFree "/" (name +:+ "." +:+ ext)) as Hfree.
  { apply byteFree_app. split; [done|]. by apply byteFree_cons. }
  assert (name +:+ "." +:+ ext ≠ "") as Hne by by destruct name.
  assert (nameInsenstive unicodeLower name = canon unicodeLower name)
    as Hname.
  { rewrite nameInsenstive_canon.
    destruct (decide (name = "")) as [->|Hn]; [done|].
    rewrite Base_plain by done. by rewrite Split_head_whole. }
  rewrite Hname, !nameInsenstive_canon.
  rewrite Base_in_directory, Base_plain by done.
  change ("." +:+ ext) with (String.String "."%char ext).
  by rewrite (Split_head_cut "." name ext Hnd).
Qed.

(** X3: [ParseAcceptLanguage] keeps the order of the header and drops the
    parameters.  For a header of one or more elements separated by commas,
    each made of spaces, a language range and parameters that a [";"]
    introduces (the quality value), the result lists the canonical names
    of the ranges in the order of the header: it is not sorted by
    quality. *)
Theorem ParseAcceptLanguage_drops_parameters
    (ranges : list (string * string * string)) :
  ranges ≠ [] →
  Forall (λ '(pad, tag, params),
            strings.TrimByte pad " " = ""
            ∧ strings.Contains tag " " = false
            ∧ strings.Contains tag "," = false
            ∧ strings.Contains tag ";" = false
            ∧ strings.Contains params "," = false
            ∧ (params = "" ∨ strings.HasPrefix params ";" = true))
    ranges →
  ParseAcceptLanguage unicodeLower
    (String.concat "," ((λ '(pad, tag, params), pad +:+ tag +:+ params)
                          <$> ranges))
  = (λ '(pad, tag, params), nameInsenstive unicodeLower tag) <$> ranges.
Proof.
  intros Hne Hall. unfold ParseAcceptLanguage.
  rewrite (Split_concat ","%char).
  - rewrite <- list_fmap_compose. apply Forall_fmap_ext_1.
    eapply Forall_impl; [exact Hall|].
    intros [[pad tag] params] (Hpad & Hspace & _ & Hsemi & _ & Hparams). simpl.
    apply Contains_byte_false in Hspace, Hsemi.
    by rewrite TrimByte_element.
  - by destruct ranges.
  - apply Forall_fmap. eapply Forall_impl; [exact Hall|].
    intros [[pad tag] params] (Hpad & _ & Htag & _ & Hpar & _). simpl.
    apply Contains_byte_false in Htag, Hpar.
    apply byteFree_app. split; [|by apply byteFree_app].
    apply TrimByte_empty in Hpad. unfold byteFree.
    eapply Forall_impl; [exact Hpad|]. by intros a ->.
Qed.

End CanonicalNames.

Section FurtherProperties.

Context {Template Data error : Type}.
Variable Parse : string → option Template.
Variable Execute : Template → option Data → string.
Variable unicodeLower : string → string.

Implicit Types i j : I18n (Template := Template) (error := error).
Implicit Types t : compiledTranslation (Template := Template).
Implicit Types l : Locale.

(** ** Compiled texts *)

Lemma fmap_text_plain (xs : list string) :
  text <$> ((λ v, {| text := v; tmpl := @None Template |}) <$> xs) = xs.
Proof. induction xs as [|x xs IH]; [done|]. rewrite !fmap_cons. by f_equal. Qed.

(** X4: a text without the template marker comes back from what
    [compileText] makes of it.  No variant gets a template, and the texts of
    the variants, joined by [" | "], are the text that was compiled: the
    split loses nothing, empty variants included. *)
Theorem compileText_joins_back (s : string) :
  strings.Contains s "{{" = false →
  Forall (λ x, tmpl x = None) (compileText Parse s)
  ∧ String.concat " | " (text <$> compileText Parse s) = s.
Proof.
  intros Hs. unfold compileText.
  pose proof (genSplit_inside (String.length s) s " | " "{{" Hs) as Hparts.
  fold (strings.Split s " | ") in Hparts.
  assert (compileSegment Parse <$> strings.Split s " | "
          = (λ v, {| text := v; tmpl := None |}) <$> strings.Split s " | ")
    as ->.
  { apply Forall_fmap_ext_1. eapply Forall_impl; [exact Hparts|].
    intros v Hv. unfold compileSegment. by rewrite Hv. }
  split.
  - by apply Forall_fmap, Forall_true.
  - rewrite fmap_text_plain. apply concat_Split.
Qed.

(** ** Locales *)

(** X5: [NewLocale] binds the first candidate whose canonical name has a
    table in the store, to that canonical name, and the default locale when
    no candidate has one (none given included), whether or not the default
    locale has a table itself.  [Locale()] returns the name bound. *)
Theorem NewLocale_selects_the_first_loaded i (locales : list string) :
  let loaded v :=
    is_Some (compiledTranslations i !! nameInsenstive unicodeLower v) in
  (Forall (λ v, ¬ loaded v) locales →
   Locale_Locale (NewLocale unicodeLower i locales) = defaultLocale i)
  ∧ ∀ (pre : list string) (v : string) (post : list string),
      locales = pre ++ v :: post →
      Forall (λ v, ¬ loaded v) pre → loaded v →
      Locale_Locale (NewLocale unicodeLower i locales)
      = nameInsenstive unicodeLower v.
Proof.
  intros loaded. unfold Locale_Locale, NewLocale. simpl.
  assert (∀ pre rest,
            Forall (λ v, ¬ loaded v) pre →
            selectLocale unicodeLower i (pre ++ rest)
            = selectLocale unicodeLower i rest) as Hskip.
  { intros pre rest Hpre.
    induction Hpre as [|v pre Hv _ IH]; [done|]. simpl.
    destruct (compiledTranslations i !! nameInsenstive unicodeLower v)
      eqn:Ht; [|done].
    destruct Hv. by eexists. }
  split.
  - intros Hnone. rewrite <- (app_nil_r locales). by rewrite Hskip.
  - intros pre v post -> Hpre [tbl Hv]. rewrite Hskip by done. simpl.
    by rewrite Hv.
Qed.

(** X6: candidates may be given in canonical form.  [NewLocale] binds the
    same locale for ASCII candidates and for their canonical names, so the
    result of [ParseAcceptLanguage], which is a list of canonical names, is
    read by [NewLocale] as the header's language ranges are. *)
Theorem NewLocale_of_canonical_names i (locales : list string) :
  Forall (λ v, strings.isASCII v = true) locales →
  NewLocale unicodeLower i (nameInsenstive unicodeLower <$> locales)
  = NewLocale unicodeLower i locales.
Proof.
  intros Hascii. unfold NewLocale. f_equal.
  induction Hascii as [|v locales Hv _ IH]; [done|].
  rewrite fmap_cons. simpl. rewrite nameInsenstive_fixed by done.
  by rewrite IH.
Qed.

(** ** What the backfill pass writes *)

Lemma set_compiledTranslations_id i :
  set_compiledTranslations (compiledTranslations i) i = i.
Proof. by destruct i. Qed.

Lemma sameButStore_refl i : sameButStore i i.
Proof. split; [by rewrite set_compiledTranslations_id|done]. Qed.

Lemma sameButStore_trans i j k :
  sameButStore i j → sameButStore j k → sameButStore i k.
Proof.
  intros (Hj & Hdj & Hgj) (Hk & Hdk & Hgk). split; [|split].
  - rewrite Hk at 1. rewrite Hj. reflexivity.
  - by rewrite Hdk.
  - assert (defaultLocale j = defaultLocale i) as Hd by by rewrite Hj.
    rewrite Hd in Hgk. congruence.
Qed.

Lemma backfill_sameButStore (depth : nat) (g L : string) i i' :
  backfill depth g L i = Returns i' → sameButStore i i'.
Proof.
  intros [->|(trans & b & Ht & Hne & _ & _ & ->)]%backfill_inv;
    [apply sameButStore_refl|].
  split; [done|]. simpl. split.
  - apply dom_insert_lookup_L. by eexists.
  - by rewrite lookup_insert_ne.
Qed.

Lemma rangeLocales_sameButStore (depth : nat) (g : string)
    (locales : list string) i i' :
  rangeLocales depth g locales i = Returns i' → sameButStore i i'.
Proof.
  revert i. induction locales as [|L locales IH]; intros i; simpl.
  { intros [= <-]. apply sameButStore_refl. }
  destruct (backfill depth g L i) as [j|] eqn:Hb; [|done]. simpl.
  intros Hrest. eapply sameButStore_trans; [by eapply backfill_sameButStore|].
  by apply IH.
Qed.

Lemma compileFallbacks_sameButStore (depth : nat)
    (visits : list (string * list string)) i i' :
  compileFallbacks depth visits i = Returns i' → sameButStore i i'.
Proof.
  revert i. induction visits as [|[key locales] visits IH]; intros i.
  { intros [= <-]. apply sameButStore_refl. }
  rewrite compileFallbacks_cons.
  destruct (stored i (defaultLocale i) key) as [grandTrans|]; [|apply IH].
  destruct (rangeLocales depth (name grandTrans) locales i) as [j|] eqn:Hr;
    [|done].
  simpl. intros Hrest.
  eapply sameButStore_trans; [by eapply rangeLocales_sameButStore|].
  by apply IH.
Qed.

Lemma rangeFallbacks_from_store
    (recur : string → outcome (option compiledTranslation))
    i (n : string) (fbs : list string) b :
  (∀ fallback b', recur fallback = Returns (Some b') →
                  ∃ L', stored i L' n = Some b') →
  rangeFallbacks recur i n fbs = Returns (Some b) →
  ∃ L', stored i L' n = Some b.
Proof.
  intros Hrecur. induction fbs as [|fallback rest IH]; simpl; [done|].
  destruct (stored i fallback n) as [v|] eqn:Hs.
  { intros [= <-]. by exists fallback. }
  destruct (recur fallback) as [[b'|]|] eqn:Hr; simpl; [|exact IH|done].
  intros [= <-]. by eapply Hrecur.
Qed.

Lemma lookupBestFallback_from_store (depth : nat) i (L n : string) b :
  lookupBestFallback depth i L n = Returns (Some b) →
  ∃ L', stored i L' n = Some b.
Proof.
  revert L b. induction depth as [|depth IH]; intros L b; [done|].
  rewrite lookupBestFallback_unfold.
  destruct (fallbacks i !! L) as [fbs|].
  - apply rangeFallbacks_from_store. intros fallback b'. apply IH.
  - destruct (stored i (defaultLocale i) n) as [v|] eqn:Hs; [|done].
    intros [= <-]. by eexists.
Qed.

Lemma backfill_copiedFrom (depth : nat) (g L : string) i i' :
  backfill depth g L i = Returns i' → copiedFrom i i'.
Proof.
  intros [->|(trans & b & Ht & Hne & Hg & Hwalk & ->)]%backfill_inv L0 n b0.
  { by exists L0. }
  rewrite (stored_backfilled _ _ _ _ _ _ _ Ht). case_decide as Hd.
  - destruct Hd as [-> ->]. intros [= <-].
    by eapply lookupBestFallback_from_store.
  - by exists L0.
Qed.

Lemma copiedFrom_trans i j k :
  copiedFrom i j → copiedFrom j k → copiedFrom i k.
Proof.
  intros Hij Hjk L n b Hk. destruct (Hjk _ _ _ Hk) as [L' Hj].
  by eapply Hij.
Qed.

Lemma rangeLocales_copiedFrom (depth : nat) (g : string)
    (locales : list string) i i' :
  rangeLocales depth g locales i = Returns i' → copiedFrom i i'.
Proof.
  revert i. induction locales as [|L locales IH]; intros i; simpl.
  { intros [= <-] L n b ?. by exists L. }
  destruct (backfill depth g L i) as [j|] eqn:Hb; [|done]. simpl.
  intros Hrest. eapply copiedFrom_trans; [by eapply backfill_copiedFrom|].
  by apply IH.
Qed.

Lemma compileFallbacks_copiedFrom (depth : nat)
    (visits : list (string * list string)) i i' :
  compileFallbacks depth visits i = Returns i' → copiedFrom i i'.
Proof.
  revert i. induction visits as [|[key locales] visits IH]; intros i.
  { intros [= <-] L n b ?. by exists L. }
  rewrite compileFallbacks_cons.
  destruct (stored i (defaultLocale i) key) as [grandTrans|]; [|apply IH].
  destruct (rangeLocales depth (name grandTrans) locales i) as [j|] eqn:Hr;
    [|done].
  simpl. intros Hrest.
  eapply copiedFrom_trans; [by eapply rangeLocales_copiedFrom|].
  by apply IH.
Qed.

(** X7: the backfill pass only copies.  When [compileFallbacks] returns,
    every translation that the store held is still where it was, and every
    translation that the store holds now was in the store before the pass
    under the same name, in the table of some locale: the pass removes
    nothing, overwrites nothing and invents nothing. *)
Theorem compileFallbacks_only_copies (depth : nat)
    (visits : list (string * list string)) i i' :
  compileFallbacks depth visits i = Returns i' →
  (∀ L n v, stored i L n = Some v → stored i' L n = Some v)
  ∧ (∀ L n b, stored i' L n = Some b → ∃ L', stored i L' n = Some b).
Proof.
  intros Hpass. split.
  - intros L n v. by eapply compileFallbacks_keeps.
  - by eapply compileFallbacks_copiedFrom.
Qed.

(** X8: the backfill pass writes to the tables of the locales other than
    the default one, and to nothing else.  When [compileFallbacks] returns,
    the state differs from the one it started in by the store alone (the
    default locale, the fallbacks, the pluralizors, the unmarshaler and the
    runtime cache are as before), the store holds the same locales, and the
    table of the default locale is as it was. *)
Theorem compileFallbacks_writes_other_tables_only (depth : nat)
    (visits : list (string * list string)) i i' :
  compileFallbacks depth visits i = Returns i' →
  i' = set_compiledTranslations (compiledTranslations i') i
  ∧ dom (compiledTranslations i') = dom (compiledTranslations i)
  ∧ compiledTranslations i' !! defaultLocale i
    = compiledTranslations i !! defaultLocale i.
Proof.
  intros Hpass.
  destruct (compileFallbacks_sameButStore _ _ _ _ Hpass)
    as (Hstate & Hlocales & Hdefault).
  by repeat split.
Qed.

(** ** What the load loop leaves *)

Lemma reversedOrder_valid i (languages : gmap string (gmap string string)) :
  validOrder Parse unicodeLower (reversedOrder Parse unicodeLower i languages)
    i languages.
Proof.
  unfold validOrder, reversedOrder, validVisits, visitsKeysOf. simpl.
  split; [apply reverse_Permutation|]. split.
  - rewrite fmap_fst_paired. apply reverse_Permutation.
  - rewrite Forall_fmap. apply Forall_forall. intros key _.
    unfold compose. simpl. apply reverse_Permutation.
Qed.

Lemma rangeLanguages_frame (order : list string)
    (languages : gmap string (gmap string string)) i :
  rangeLanguages Parse unicodeLower order languages i
  = set_compiledTranslations
      (compiledTranslations
         (rangeLanguages Parse unicodeLower order languages i)) i.
Proof.
  revert i. induction order as [|raw order IH]; intros i.
  { by rewrite set_compiledTranslations_id. }
  rewrite rangeLanguages_cons.
  destruct (languages !! raw) as [trans|]; [|apply IH].
  rewrite IH at 1. reflexivity.
Qed.

Lemma compileTranslation_rangeLanguages (order : list string)
    (languages : gmap string (gmap string string)) i
    (locale name text : string) :
  compileTranslation Parse
    (rangeLanguages Parse unicodeLower order languages i) locale name text
  = compileTranslation Parse i locale name text.
Proof. by rewrite rangeLanguages_frame. Qed.

Lemma rangeLanguages_snoc (order : list string) (raw : string)
    (languages : gmap string (gmap string string)) i :
  rangeLanguages Parse unicodeLower (order ++ [raw]) languages i
  = match languages !! raw with
    | Some translations =>
        loadLocale Parse unicodeLower raw translations
          (rangeLanguages Parse unicodeLower order languages i)
    | None => rangeLanguages Parse unicodeLower order languages i
    end.
Proof. unfold rangeLanguages. by rewrite foldl_app. Qed.

(** After the load loop over a batch whose keys denote distinct locales,
    the table of each of them holds the batch's entries for it. *)
Lemma rangeLanguages_stored (order : list string)
    (languages : gmap string (gmap string string)) i
    (raw : string) (trans : gmap string string) (n : string) :
  distinctLocales unicodeLower languages →
  visitsKeysOf languages order →
  languages !! raw = Some trans →
  stored (rangeLanguages Parse unicodeLower order languages i)
    (nameInsenstive unicodeLower raw) n
  = compileTranslation Parse i (nameInsenstive unicodeLower raw) n
      <$> trans !! n.
Proof.
  intros Hdistinct Hvisits Hraw.
  assert (raw ∈ order) as Hin.
  { rewrite Hvisits. apply elem_of_elements, elem_of_dom. by eexists. }
  apply elem_of_Permutation in Hin as [rest Hrest].
  rewrite (rangeLanguages_Permutation Parse unicodeLower order (rest ++ [raw])).
  - rewrite rangeLanguages_snoc, Hraw, loadLocale_stored.
    destruct (trans !! n); [|done]. simpl.
    by rewrite compileTranslation_rangeLanguages.
  - rewrite Hrest. apply Permutation_cons_append.
  - unfold distinctLocales in Hdistinct. by rewrite Hvisits.
Qed.

Lemma rangeLanguages_table (order : list string)
    (languages : gmap string (gmap string string)) i
    (raw : string) (trans : gmap string string) :
  distinctLocales unicodeLower languages →
  visitsKeysOf languages order →
  languages !! raw = Some trans →
  is_Some (compiledTranslations
             (rangeLanguages Parse unicodeLower order languages i)
           !! nameInsenstive unicodeLower raw).
Proof.
  intros Hdistinct Hvisits Hraw.
  assert (raw ∈ order) as Hin.
  { rewrite Hvisits. apply elem_of_elements, elem_of_dom. by eexists. }
  apply elem_of_Permutation in Hin as [rest Hrest].
  rewrite (rangeLanguages_Permutation Parse unicodeLower order (rest ++ [raw])).
  - rewrite rangeLanguages_snoc, Hraw. unfold loadLocale. simpl.
    rewrite lookup_insert_eq. by eexists.
  - rewrite Hrest. apply Permutation_cons_append.
  - unfold distinctLocales in Hdistinct. by rewrite Hvisits.
Qed.

Lemma rangeLanguages_defaultLocale (order : list string)
    (languages : gmap string (gmap string string)) i :
  defaultLocale (rangeLanguages Parse unicodeLower order languages i)
  = defaultLocale i.
Proof. by rewrite rangeLanguages_frame. Qed.

Lemma rangeLanguages_empty (order : list string) i :
  rangeLanguages Parse unicodeLower order ∅ i = i.
Proof.
  induction order as [|raw order IH]; [done|].
  rewrite rangeLanguages_cons. by rewrite lookup_empty.
Qed.

(** ** The state that [LoadMap] leaves *)

(** X9: what [LoadMap] loads is found.  For a batch whose keys denote
    distinct locales, whenever [LoadMap] returns, [NewLocale] on a key of
    the batch binds the key's canonical name, a lookup of a name that the
    batch gives that key returns the translation compiled from the batch's
    text and leaves the state as it is, and [String] renders the first
    variant of that text. *)
Theorem LoadMap_then_String (depth : nat) (order : rangeOrder) i
    (languages : gmap string (gmap string string))
    (raw : string) (trans : gmap string string) (n text : string)
    i' (e : option error) :
  distinctLocales unicodeLower languages →
  validOrder Parse unicodeLower order i languages →
  languages !! raw = Some trans →
  trans !! n = Some text →
  LoadMap Parse unicodeLower depth order i languages = Returns (i', e) →
  let l := NewLocale unicodeLower i' [raw] in
  Locale_Locale l = nameInsenstive unicodeLower raw
  ∧ lookup Parse l n i'
    = (compileTranslation Parse i (nameInsenstive unicodeLower raw) n text, i')
  ∧ ∀ data,
      String Parse Execute l n data i'
      = (Some (render Execute
                 (compileSegment Parse
                    (default "" (head (strings.Split text " | "))))
                 data), i').
Proof.
  intros Hdistinct [Hvisits _] Hraw Htext Hload l.
  unfold LoadMap in Hload.
  destruct (compileFallbacks _ _ _) as [j|] eqn:Hpass; [|done].
  simpl in Hload. injection Hload as -> <-.
  pose proof (rangeLanguages_stored _ languages i raw trans n
                Hdistinct Hvisits Hraw) as Hs.
  rewrite Htext in Hs. simpl in Hs.
  apply (compileFallbacks_keeps _ _ _ _ _ _ _ Hpass) in Hs.
  assert (Locale_Locale l = nameInsenstive unicodeLower raw) as Hl.
  { subst l. unfold Locale_Locale, NewLocale. simpl.
    destruct (stored_is_Some_table _ _ _ _ Hs) as [tbl ->]. done. }
  split; [done|].
  assert (lookup Parse l n i'
          = (compileTranslation Parse i (nameInsenstive unicodeLower raw)
               n text, i')) as Hlookup.
  { apply lookup_stored. unfold Locale_Locale in Hl. by rewrite Hl. }
  split; [done|]. intros data. unfold String. rewrite Hlookup. simpl.
  by rewrite index_zero, compileText_head.
Qed.

(** X10: [LoadMap] replaces the table of the default locale.  For a batch
    whose keys denote distinct locales, one of them the default locale,
    whenever [LoadMap] returns the default locale's table holds the batch's
    entries for it and nothing else: what the table held before is gone,
    and the backfill pass adds nothing to it. *)
Theorem LoadMap_replaces_the_default_table (depth : nat)
    (order : rangeOrder) i (languages : gmap string (gmap string string))
    (raw : string) (trans : gmap string string) (n : string)
    i' (e : option error) :
  distinctLocales unicodeLower languages →
  validOrder Parse unicodeLower order i languages →
  languages !! raw = Some trans →
  nameInsenstive unicodeLower raw = defaultLocale i →
  LoadMap Parse unicodeLower depth order i languages = Returns (i', e) →
  defaultLocale i' = defaultLocale i
  ∧ stored i' (defaultLocale i) n
    = compileTranslation Parse i (defaultLocale i) n <$> trans !! n.
Proof.
  intros Hdistinct [Hvisits _] Hraw Hdefault Hload.
  unfold LoadMap in Hload.
  destruct (compileFallbacks _ _ _) as [j|] eqn:Hpass; [|done].
  simpl in Hload. injection Hload as -> _.
  destruct (compileFallbacks_sameButStore _ _ _ _ Hpass)
    as (Hstate & _ & Htable).
  rewrite rangeLanguages_defaultLocale in Htable.
  split.
  - rewrite Hstate. simpl. apply rangeLanguages_defaultLocale.
  - unfold stored at 1. rewrite Htable. fold (stored
      (rangeLanguages Parse unicodeLower (languagesOrder order) languages i)
      (defaultLocale i) n).
    rewrite <- Hdefault. by apply rangeLanguages_stored.
Qed.

Lemma stored_eq_store i (c c' : gmap string (gmap string compiledTranslation)) :
  dom c = dom c' →
  (∀ L n, stored (set_compiledTranslations c i) L n
          = stored (set_compiledTranslations c' i) L n) →
  c = c'.
Proof.
  intros Hdom Hstored. apply map_eq. intros L.
  destruct (c !! L) as [trans|] eqn:Hc, (c' !! L) as [trans'|] eqn:Hc'.
  - f_equal. apply map_eq. intros n. specialize (Hstored L n).
    unfold stored in Hstored. simpl in Hstored. by rewrite Hc, Hc' in Hstored.
  - apply elem_of_dom_2 in Hc. rewrite Hdom in Hc.
    apply elem_of_dom in Hc as [? ?]. congruence.
  - apply elem_of_dom_2 in Hc'. rewrite <- Hdom in Hc'.
    apply elem_of_dom in Hc' as [? ?]. congruence.
  - done.
Qed.

(** Two passes over one state, in any two valid orders and with any two
    sufficient depths, leave the same entries. *)
Lemma pass_stored_agree (rank : string → nat) (d d' : nat) i i' i''
    (L n : string) b :
  rankedFallbacks rank i →
  backfilled d i i' →
  (∀ L n, L ≠ defaultLocale i → is_Some (compiledTranslations i !! L) →
          grandName i n → stored i'' L n = slot d' i L n) →
  (∀ L, (rank L < d')%nat) →
  stored i' L n = Some b → backfilled d' i i'' → stored i'' L n = Some b.
Proof.
  intros Hranked Hbf Hslot Hd' Hs Hbf'.
  destruct (stored i L n) as [v|] eqn:Hi.
  { rewrite (bf_kept _ _ _ Hbf _ _ _ Hi) in Hs. injection Hs as <-.
    by apply (bf_kept _ _ _ Hbf'). }
  destruct (bf_new _ _ _ Hbf _ _ _ Hi Hs) as (Hne & Htable & Hgrand & Hwalk).
  rewrite Hslot by done. unfold slot. rewrite Hi.
  destruct (lookupBestFallback_returns rank i Hranked d' L n (Hd' L))
    as [r Hr].
  rewrite Hr. by eapply lookupBestFallback_agree.
Qed.

(** X11: the order of Go's map loops does not show in what [LoadMap]
    leaves.  On an acyclic fallback table, for a batch whose keys denote
    distinct locales, [LoadMap] returns the same state for any two orders
    in which its three [range] loops can visit their maps, and for any
    two recursion depths that suffice. *)
Theorem LoadMap_order_independent (rank : string → nat) (depth depth' : nat)
    (order order' : rangeOrder) i
    (languages : gmap string (gmap string string)) :
  rankedFallbacks rank i →
  (∀ locale, rank locale < depth)%nat →
  (∀ locale, rank locale < depth')%nat →
  distinctLocales unicodeLower languages →
  validOrder Parse unicodeLower order i languages →
  validOrder Parse unicodeLower order' i languages →
  LoadMap Parse unicodeLower depth order i languages
  = LoadMap Parse unicodeLower depth' order' i languages.
Proof.
  intros Hranked Hd Hd' Hdistinct Horder Horder'.
  destruct (LoadMap_spec Parse unicodeLower rank depth order i languages
              Hranked Hd Horder) as (i' & Hload & Hbf & Hslot).
  destruct (LoadMap_spec Parse unicodeLower rank depth' order' i languages
              Hranked Hd' Horder') as (i'' & Hload' & Hbf' & Hslot').
  rewrite Hload, Hload'. do 2 f_equal.
  unfold LoadMap in Hload, Hload'.
  rewrite (rangeLanguages_canonical_order _ _ _ _ _ Hdistinct (proj1 Horder))
    in Hload, Hbf, Hslot.
  rewrite (rangeLanguages_canonical_order _ _ _ _ _ Hdistinct (proj1 Horder'))
    in Hload', Hbf', Hslot'.
  set (i1 := rangeLanguages Parse unicodeLower (elements (dom languages))
               languages i) in *.
  assert (rankedFallbacks rank i1) as Hranked1.
  { unfold rankedFallbacks. subst i1. by rewrite rangeLanguages_fallbacks. }
  destruct (compileFallbacks depth (fallbacksOrder order) i1) as [j|] eqn:Hp;
    [|done].
  destruct (compileFallbacks depth' (fallbacksOrder order') i1) as [j'|]
    eqn:Hp'; [|done].
  simpl in Hload, Hload'. injection Hload as ->. injection Hload' as ->.
  destruct (compileFallbacks_sameButStore _ _ _ _ Hp) as (Hi' & Hdom & _).
  destruct (compileFallbacks_sameButStore _ _ _ _ Hp') as (Hi'' & Hdom' & _).
  rewrite Hi', Hi''. f_equal.
  apply (stored_eq_store i1); [by rewrite Hdom, Hdom'|].
  rewrite <- Hi', <- Hi''. intros L n.
  destruct (stored i' L n) as [b|] eqn:Hs.
  { symmetry. by eapply (pass_stored_agree rank depth depth' i1 i' i''). }
  destruct (stored i'' L n) as [b|] eqn:Hs'; [|done].
  rewrite <- Hs. by eapply (pass_stored_agree rank depth' depth i1 i'' i').
Qed.

(** A second pass over the state that a pass leaves. *)
Section SecondPass.
Variable rank : string → nat.
Variable depth : nat.
Variable i i' : I18n (Template := Template) (error := error).
Hypothesis Hranked : rankedFallbacks rank i.
Hypothesis Hdepth : ∀ locale, (rank locale < depth)%nat.
Hypothesis Hbf : backfilled depth i i'.
Hypothesis Hslot : ∀ L n,
  L ≠ defaultLocale i → is_Some (compiledTranslations i !! L) →
  grandName i n → stored i' L n = slot depth i L n.

Lemma backfill_second (g L : string) :
  grandName i g → backfill depth g L i' = Returns i'.
Proof.
  intros Hgrand. unfold backfill.
  destruct (compiledTranslations i' !! L) as [trans|] eqn:Ht; [|done].
  rewrite (bf_defaultLocale _ _ _ Hbf). case_decide as Hne; [done|].
  destruct (trans !! g) as [v|] eqn:Hg; [done|].
  assert (stored i' L g = None) as Hs by by rewrite (stored_lookup _ _ _ _ Ht).
  assert (is_Some (compiledTranslations i !! L)) as Htable.
  { apply (bf_tables _ _ _ Hbf). by eexists. }
  rewrite (lookupBestFallback_backfilled rank depth i Hranked i' Hbf)
    by apply Hdepth.
  rewrite Hslot in Hs by done. unfold slot in Hs.
  destruct (stored i L g); [done|].
  destruct (lookupBestFallback_returns rank i Hranked depth L g (Hdepth L))
    as [r Hr].
  rewrite Hr in Hs. rewrite Hr. by subst r.
Qed.

Lemma rangeLocales_second (g : string) (locales : list string) :
  grandName i g → rangeLocales depth g locales i' = Returns i'.
Proof.
  intros Hgrand. induction locales as [|L locales IH]; [done|].
  simpl. by rewrite backfill_second.
Qed.

Lemma compileFallbacks_second (visits : list (string * list string)) :
  compileFallbacks depth visits i' = Returns i'.
Proof.
  induction visits as [|[key locales] visits IH]; [done|].
  rewrite compileFallbacks_cons.
  destruct (stored i' (defaultLocale i') key) as [grandTrans|] eqn:Hs;
    [|done].
  rewrite rangeLocales_second; [done|].
  by eapply grandName_backfilled.
Qed.

End SecondPass.

(** X12: one backfill pass is enough.  On an acyclic fallback table,
    loading nothing after a [LoadMap] that returned, by a [LoadMap] of the
    empty map or a [LoadFiles] without files, returns and leaves the state
    as it is, whatever the order of its loops: the pass that it runs finds
    no slot to fill. *)
Theorem LoadMap_of_nothing_after_a_load (rank : string → nat) (depth : nat)
    (order order' : rangeOrder) (ReadFile : string → error + list Byte.byte)
    i (languages : gmap string (gmap string string)) i' :
  rankedFallbacks rank i →
  (∀ locale, rank locale < depth)%nat →
  validOrder Parse unicodeLower order i languages →
  LoadMap Parse unicodeLower depth order i languages = Returns (i', None) →
  LoadMap Parse unicodeLower depth order' i' ∅ = Returns (i', None)
  ∧ LoadFiles Parse unicodeLower depth order' ReadFile i' []
    = Returns (i', None).
Proof.
  intros Hranked Hdepth Horder Hload.
  destruct (LoadMap_spec Parse unicodeLower rank depth order i languages
              Hranked Hdepth Horder) as (i'' & Hload' & Hbf & Hslot).
  rewrite Hload in Hload'. injection Hload' as <-.
  assert (LoadMap Parse unicodeLower depth order' i' ∅ = Returns (i', None))
    as Hnothing; [|by split].
  unfold LoadMap. rewrite rangeLanguages_empty.
  rewrite (compileFallbacks_second rank depth
             (rangeLanguages Parse unicodeLower (languagesOrder order)
                languages i) i'); try done.
  unfold rankedFallbacks. by rewrite rangeLanguages_fallbacks.
Qed.

(** ** What a locale gets for a name it lacks *)

(** X13: a locale without an entry in the fallback table gets the default
    locale's translation.  On an acyclic fallback table, for a batch whose
    keys denote distinct locales and that gives the default locale a name
    which it does not give another locale of the batch, [LoadMap] leaves in
    that locale's table, under the name, the translation compiled for the
    default locale, with the default locale's pluralizor. *)
Theorem LoadMap_fills_from_the_default (rank : string → nat) (depth : nat)
    (order : rangeOrder) i (languages : gmap string (gmap string string))
    (rawD rawL : string) (transD transL : gmap string string)
    (n text : string) :
  rankedFallbacks rank i →
  (∀ locale, rank locale < depth)%nat →
  distinctLocales unicodeLower languages →
  validOrder Parse unicodeLower order i languages →
  languages !! rawD = Some transD →
  nameInsenstive unicodeLower rawD = defaultLocale i →
  transD !! n = Some text →
  languages !! rawL = Some transL →
  nameInsenstive unicodeLower rawL ≠ defaultLocale i →
  transL !! n = None →
  fallbacks i !! nameInsenstive unicodeLower rawL = None →
  ∃ i', LoadMap Parse unicodeLower depth order i languages = Returns (i', None)
        ∧ stored i' (nameInsenstive unicodeLower rawL) n
          = Some (compileTranslation Parse i (defaultLocale i) n text).
Proof.
  intros Hranked Hdepth Hdistinct Horder HrawD HD HtextD HrawL HL HtextL Hfb.
  destruct (LoadMap_spec Parse unicodeLower rank depth order i languages
              Hranked Hdepth Horder) as (i' & Hload & Hbf & Hslot).
  exists i'. split; [done|].
  set (i1 := rangeLanguages Parse unicodeLower (languagesOrder order)
               languages i) in *.
  assert (stored i1 (defaultLocale i1) n
          = Some (compileTranslation Parse i (defaultLocale i) n text)) as HsD.
  { subst i1. rewrite rangeLanguages_defaultLocale, <- HD.
    rewrite (rangeLanguages_stored _ _ _ _ _ _ Hdistinct (proj1 Horder) HrawD).
    by rewrite HtextD. }
  assert (stored i1 (nameInsenstive unicodeLower rawL) n = None) as HsL.
  { subst i1.
    rewrite (rangeLanguages_stored _ _ _ _ _ _ Hdistinct (proj1 Horder) HrawL).
    by rewrite HtextL. }
  rewrite Hslot.
  - unfold slot. rewrite HsL.
    destruct depth as [|depth']; [specialize (Hdepth ""); lia|].
    rewrite lookupBestFallback_unfold.
    replace (fallbacks i1) with (fallbacks i)
      by (symmetry; apply rangeLanguages_fallbacks).
    by rewrite Hfb, HsD.
  - subst i1. by rewrite rangeLanguages_defaultLocale.
  - by eapply rangeLanguages_table; [|apply Horder|].
  - eexists n, _. split; [exact HsD|done].
Qed.

(** X14: the first fallback that defines the name is used.  On an acyclic
    fallback table, for a batch whose keys denote distinct locales, a locale
    that lacks a name of the default locale and whose chain starts with a
    locale of the batch that defines the name gets that locale's
    translation, whatever the rest of the chain is. *)
Theorem LoadMap_fills_from_the_first_fallback (rank : string → nat)
    (depth : nat) (order : rangeOrder) i
    (languages : gmap string (gmap string string))
    (rawD rawL rawF : string) (transD transL transF : gmap string string)
    (rest : list string) (n textD text : string) :
  rankedFallbacks rank i →
  (∀ locale, rank locale < depth)%nat →
  distinctLocales unicodeLower languages →
  validOrder Parse unicodeLower order i languages →
  languages !! rawD = Some transD →
  nameInsenstive unicodeLower rawD = defaultLocale i →
  transD !! n = Some textD →
  languages !! rawL = Some transL →
  nameInsenstive unicodeLower rawL ≠ defaultLocale i →
  transL !! n = None →
  languages !! rawF = Some transF →
  transF !! n = Some text →
  fallbacks i !! nameInsenstive unicodeLower rawL
  = Some (nameInsenstive unicodeLower rawF :: rest) →
  ∃ i', LoadMap Parse unicodeLower depth order i languages = Returns (i', None)
        ∧ stored i' (nameInsenstive unicodeLower rawL) n
          = Some (compileTranslation Parse i
                    (nameInsenstive unicodeLower rawF) n text).
Proof.
  intros Hranked Hdepth Hdistinct Horder HrawD HD HtextD HrawL HL HtextL
    HrawF HtextF Hfb.
  destruct (LoadMap_spec Parse unicodeLower rank depth order i languages
              Hranked Hdepth Horder) as (i' & Hload & Hbf & Hslot).
  exists i'. split; [done|].
  set (i1 := rangeLanguages Parse unicodeLower (languagesOrder order)
               languages i) in *.
  assert (stored i1 (defaultLocale i1) n
          = Some (compileTranslation Parse i (defaultLocale i) n textD))
    as HsD.
  { subst i1. rewrite rangeLanguages_defaultLocale, <- HD.
    rewrite (rangeLanguages_stored _ _ _ _ _ _ Hdistinct (proj1 Horder) HrawD).
    by rewrite HtextD. }
  assert (stored i1 (nameInsenstive unicodeLower rawL) n = None) as HsL.
  { subst i1.
    rewrite (rangeLanguages_stored _ _ _ _ _ _ Hdistinct (proj1 Horder) HrawL).
    by rewrite HtextL. }
  assert (stored i1 (nameInsenstive unicodeLower rawF) n
          = Some (compileTranslation Parse i
                    (nameInsenstive unicodeLower rawF) n text)) as HsF.
  { subst i1.
    rewrite (rangeLanguages_stored _ _ _ _ _ _ Hdistinct (proj1 Horder) HrawF).
    by rewrite HtextF. }
  rewrite Hslot.
  - unfold slot. rewrite HsL.
    destruct depth as [|depth']; [specialize (Hdepth ""); lia|].
    rewrite lookupBestFallback_unfold.
    replace (fallbacks i1) with (fallbacks i)
      by (symmetry; apply rangeLanguages_fallbacks).
    rewrite Hfb. simpl. by rewrite HsF.
  - subst i1. by rewrite rangeLanguages_defaultLocale.
  - by eapply rangeLanguages_table; [|apply Horder|].
  - eexists n, _. split; [exact HsD|done].
Qed.

(** X15: an empty fallback chain is not a missing one.  A locale that the
    fallback table gives the empty list gets nothing for the names it lacks,
    not even the default locale's translation: [lookupBestFallback] turns
    to the default locale only for a locale without an entry in the
    table. *)
Theorem LoadMap_empty_chain_gets_nothing (rank : string → nat) (depth : nat)
    (order : rangeOrder) i (languages : gmap string (gmap string string))
    (rawL : string) (transL : gmap string string) (n : string) :
  rankedFallbacks rank i →
  (∀ locale, rank locale < depth)%nat →
  distinctLocales unicodeLower languages →
  validOrder Parse unicodeLower order i languages →
  languages !! rawL = Some transL →
  transL !! n = None →
  fallbacks i !! nameInsenstive unicodeLower rawL = Some [] →
  ∃ i', LoadMap Parse unicodeLower depth order i languages = Returns (i', None)
        ∧ stored i' (nameInsenstive unicodeLower rawL) n = None.
Proof.
  intros Hranked Hdepth Hdistinct Horder HrawL HtextL Hfb.
  destruct (LoadMap_spec Parse unicodeLower rank depth order i languages
              Hranked Hdepth Horder) as (i' & Hload & Hbf & _).
  exists i'. split; [done|].
  set (i1 := rangeLanguages Parse unicodeLower (languagesOrder order)
               languages i) in *.
  assert (stored i1 (nameInsenstive unicodeLower rawL) n = None) as HsL.
  { subst i1.
    rewrite (rangeLanguages_stored _ _ _ _ _ _ Hdistinct (proj1 Horder) HrawL).
    by rewrite HtextL. }
  destruct (stored i' (nameInsenstive unicodeLower rawL) n) as [b|] eqn:Hs;
    [|done].
  destruct (bf_new _ _ _ Hbf _ _ _ HsL Hs) as (_ & _ & _ & Hwalk).
  destruct depth as [|depth']; [done|].
  rewrite lookupBestFallback_unfold in Hwalk.
  replace (fallbacks i1) with (fallbacks i) in Hwalk
    by (symmetry; apply rangeLanguages_fallbacks).
  by rewrite Hfb in Hwalk.
Qed.

(** ** A default locale that is not in canonical form *)

Lemma rangeLanguages_misses (order : list string)
    (languages : gmap string (gmap string string)) i (L : string) :
  (∀ raw, nameInsenstive unicodeLower raw ≠ L) →
  compiledTranslations (rangeLanguages Parse unicodeLower order languages i)
    !! L
  = compiledTranslations i !! L.
Proof.
  intros HL. revert i. induction order as [|raw order IH]; intros i; [done|].
  rewrite rangeLanguages_cons, IH.
  destruct (languages !! raw) as [trans|]; [|done].
  unfold loadLocale. simpl. rewrite lookup_insert_ne; [done|]. apply HL.
Qed.

Lemma compileFallbacks_no_default (depth : nat)
    (visits : list (string * list string)) i :
  compiledTranslations i !! defaultLocale i = None →
  compileFallbacks depth visits i = Returns i.
Proof.
  intros Hnone. induction visits as [|[key locales] visits IH]; [done|].
  rewrite compileFallbacks_cons. unfold stored at 1. by rewrite Hnone.
Qed.

(** X16: the default locale is used as [New] was given it, while the keys
    of a batch are stored under their canonical names.  On a state whose
    default locale is written with an underscore and has no table,
    [LoadMap] of any batch, in any order and with any depth, returns after
    the load loop alone (the backfill pass finds no table to range over),
    and the default locale has no table afterwards: the [Locale] that
    [NewLocale] binds without candidates finds no loaded translation. *)
Theorem default_locale_is_not_canonicalized (depth : nat)
    (order : rangeOrder) i (languages : gmap string (gmap string string)) :
  strings.Contains (defaultLocale i) "_" = true →
  compiledTranslations i !! defaultLocale i = None →
  let i1 := rangeLanguages Parse unicodeLower (languagesOrder order)
              languages i in
  LoadMap Parse unicodeLower depth order i languages = Returns (i1, None)
  ∧ ∀ name, stored i1 (Locale_Locale (NewLocale unicodeLower i1 [])) name
            = None.
Proof.
  intros Hunderscore Hfresh i1.
  assert (compiledTranslations i1 !! defaultLocale i1 = None) as Hnone.
  { subst i1. rewrite rangeLanguages_defaultLocale.
    rewrite rangeLanguages_misses; [done|].
    intros raw Heq.
    pose proof (nameInsenstive_no_underscore unicodeLower raw) as Hraw.
    rewrite Heq in Hraw. congruence. }
  split.
  - unfold LoadMap. fold i1. by rewrite compileFallbacks_no_default.
  - intros name. unfold Locale_Locale, NewLocale, stored. simpl.
    by rewrite Hnone.
Qed.

(** ** Invariants of the store and of the runtime cache *)

Lemma loadLocale_stored_cases (raw : string) (trans : gmap string string) i
    (L n : string) :
  stored (loadLocale Parse unicodeLower raw trans i) L n
  = if decide (L = nameInsenstive unicodeLower raw)
    then compileTranslation Parse i (nameInsenstive unicodeLower raw) n
           <$> trans !! n
    else stored i L n.
Proof.
  case_decide as HL.
  - subst L. apply loadLocale_stored.
  - by apply loadLocale_stored_other.
Qed.

Lemma everyTextHasAVariant_rangeLanguages (order : list string)
    (languages : gmap string (gmap string string)) i :
  everyTextHasAVariant i →
  everyTextHasAVariant (rangeLanguages Parse unicodeLower order languages i).
Proof.
  revert i. induction order as [|raw order IH]; intros i Hi; [done|].
  rewrite rangeLanguages_cons. apply IH.
  destruct (languages !! raw) as [trans|]; [|done].
  destruct Hi as [Hstore Hcache]. split; [|done].
  intros L n t. rewrite loadLocale_stored_cases. case_decide.
  - destruct (trans !! n); [|done]. intros [= <-]. apply compileText_nonempty.
  - apply Hstore.
Qed.

Lemma everyTextHasAVariant_LoadMap (depth : nat) (order : rangeOrder) i
    (languages : gmap string (gmap string string)) i' (e : option error) :
  everyTextHasAVariant i →
  LoadMap Parse unicodeLower depth order i languages = Returns (i', e) →
  everyTextHasAVariant i'.
Proof.
  intros Hi Hload. unfold LoadMap in Hload.
  destruct (compileFallbacks _ _ _) as [j|] eqn:Hpass; [|done].
  simpl in Hload. injection Hload as -> _.
  apply (everyTextHasAVariant_rangeLanguages (languagesOrder order) languages)
    in Hi.
  destruct Hi as [Hstore Hcache]. split.
  - intros L n t Hs.
    destruct (compileFallbacks_copiedFrom _ _ _ _ Hpass _ _ _ Hs) as [L' Hs'].
    by eapply Hstore.
  - destruct (compileFallbacks_sameButStore _ _ _ _ Hpass) as (-> & _ & _).
    exact Hcache.
Qed.

Lemma everyTextHasAVariant_lookup l (name : string) i :
  everyTextHasAVariant i →
  texts (lookup Parse l name i).1 ≠ []
  ∧ everyTextHasAVariant (lookup Parse l name i).2.
Proof.
  intros [Hstore Hcache]. unfold lookup.
  destruct (stored i (Locale_locale l) name) as [t|] eqn:Hs.
  { split; [by eapply Hstore|done]. }
  simpl.
  assert (texts match runtimeCompiledTranslations i !! name with
                | Some runtimeTrans => runtimeTrans
                | None => compileTranslation Parse i (defaultLocale i) name
                            (trimContext name)
                end ≠ []) as Hnew.
  { destruct (runtimeCompiledTranslations i !! name) as [t|] eqn:Hc.
    - by eapply Hcache.
    - apply compileText_nonempty. }
  split; [done|]. split; [done|]. simpl.
  by apply map_Forall_insert_2.
Qed.

(** X17: [String] does not panic.  The states in which every translation
    of the store and of the runtime cache has a first variant include the
    state that [New] returns, and [LoadMap] and [String] keep the state
    among them; in such a state [String] returns a string for every locale,
    name and data: [texts[0]] is in range. *)
Theorem String_never_panics :
  (∀ (jsonUnmarshal : Unmarshaler (error := error)) (d : string),
     everyTextHasAVariant (New (Template := Template) jsonUnmarshal d []))
  ∧ (∀ (depth : nat) (order : rangeOrder) i
       (languages : gmap string (gmap string string)) i' (e : option error),
       everyTextHasAVariant i →
       LoadMap Parse unicodeLower depth order i languages = Returns (i', e) →
       everyTextHasAVariant i')
  ∧ ∀ l (name : string) (data : list Data) i,
      everyTextHasAVariant i →
      is_Some (String Parse Execute l name data i).1
      ∧ everyTextHasAVariant (String Parse Execute l name data i).2.
Proof.
  split; [|split].
  - intros jsonUnmarshal d. split.
    + intros L n t. by rewrite stored_New.
    + intros key t. simpl. by rewrite lookup_empty.
  - apply everyTextHasAVariant_LoadMap.
  - intros l name data i Hi.
    destruct (everyTextHasAVariant_lookup l name i Hi) as [Htexts Hafter].
    unfold String. destruct (lookup Parse l name i) as [t j]. simpl in *.
    split; [|done]. rewrite index_zero. by destruct (texts t).
Qed.

Lemma cacheCoherent_New (jsonUnmarshal : Unmarshaler (error := error))
    (d : string) :
  cacheCoherent Parse (New (Template := Template) jsonUnmarshal d []).
Proof. intros key t. simpl. by rewrite lookup_empty. Qed.

Lemma cacheCoherent_lookup l (name : string) i :
  cacheCoherent Parse i → cacheCoherent Parse (lookup Parse l name i).2.
Proof.
  intros Hi. unfold lookup.
  destruct (stored i (Locale_locale l) name); [done|]. simpl.
  intros key t. simpl. destruct (decide (key = name)) as [->|Hne].
  - rewrite lookup_insert_eq. intros [= <-].
    destruct (runtimeCompiledTranslations i !! name) as [t'|] eqn:Hc; [|done].
    by apply Hi.
  - rewrite lookup_insert_ne by done. apply Hi.
Qed.

Lemma cacheCoherent_LoadMap (depth : nat) (order : rangeOrder) i
    (languages : gmap string (gmap string string)) i' (e : option error) :
  cacheCoherent Parse i →
  LoadMap Parse unicodeLower depth order i languages = Returns (i', e) →
  cacheCoherent Parse i'.
Proof.
  intros Hi Hload. unfold LoadMap in Hload.
  destruct (compileFallbacks _ _ _) as [j|] eqn:Hpass; [|done].
  simpl in Hload. injection Hload as -> _.
  destruct (compileFallbacks_sameButStore _ _ _ _ Hpass) as (-> & _ & _).
  rewrite rangeLanguages_frame. exact Hi.
Qed.

(** X18: the runtime cache does not show in the results.  In a state whose
    cache holds, for each key, what [lookup] compiles for it (the state
    that [New] returns is one, and [LoadMap] and the lookups keep it so),
    [lookup], [String] and [Number] return what they return with an empty
    cache, and the state after the lookup is such a state again. *)
Theorem runtime_cache_is_transparent l (name : string) (count : Z)
    (data : list Data) i :
  cacheCoherent Parse i →
  let i0 := set_runtimeCompiledTranslations ∅ i in
  (lookup Parse l name i).1 = (lookup Parse l name i0).1
  ∧ (String Parse Execute l name data i).1
    = (String Parse Execute l name data i0).1
  ∧ (Number Parse Execute l name count data i).1
    = (Number Parse Execute l name count data i0).1
  ∧ cacheCoherent Parse (lookup Parse l name i).2.
Proof.
  intros Hi i0.
  assert ((lookup Parse l name i).1 = (lookup Parse l name i0).1) as Hl.
  { unfold lookup. subst i0. rewrite stored_set_runtimeCompiledTranslations.
    destruct (stored i (Locale_locale l) name); [done|]. simpl.
    rewrite lookup_empty.
    destruct (runtimeCompiledTranslations i !! name) as [t|] eqn:Hc; [|done].
    by apply Hi. }
  pose proof (cacheCoherent_lookup l name i Hi) as Hafter.
  split; [done|]. unfold String, Number.
  destruct (lookup Parse l name i) as [t j],
           (lookup Parse l name i0) as [t0 j0].
  simpl in Hl. by subst t0.
Qed.

Lemma foldl_options_frame
    (options : list (I18n (Template := Template) (error := error)
                     → I18n (Template := Template) (error := error))) i :
  Forall packageOption options →
  let i' := foldl (λ i o, o i) i options in
  defaultLocale i' = defaultLocale i
  ∧ compiledTranslations i' = compiledTranslations i
  ∧ runtimeCompiledTranslations i' = runtimeCompiledTranslations i.
Proof.
  intros Hoptions. revert i.
  induction Hoptions as [|o options Ho _ IH]; intros i; [done|].
  simpl. destruct (IH (o i)) as (Hd & Hs & Hc).
  rewrite Hd, Hs, Hc.
  by destruct Ho as [[u ->]|[[f ->]|[p ->]]].
Qed.

(** X19: [New] with the package's options.  Whatever options of the
    package [New] is given, in whatever order, the core it returns has the
    default locale as given, an empty store and an empty runtime cache (so
    the two invariants above hold in it); and a [WithFallback] given last
    replaces the fallback table that earlier options set: tables are not
    merged. *)
Theorem New_with_options (jsonUnmarshal : Unmarshaler (error := error))
    (d : string)
    (options : list (I18n (Template := Template) (error := error)
                     → I18n (Template := Template) (error := error)))
    (f : gmap string (list string)) :
  Forall packageOption options →
  let i := New jsonUnmarshal d options in
  defaultLocale i = d
  ∧ compiledTranslations i = ∅
  ∧ runtimeCompiledTranslations i = ∅
  ∧ everyTextHasAVariant i
  ∧ cacheCoherent Parse i
  ∧ fallbacks (New jsonUnmarshal d (options ++ [WithFallback f])) = f.
Proof.
  intros Hoptions i.
  destruct (foldl_options_frame options (New jsonUnmarshal d []) Hoptions)
    as (Hd & Hs & Hc).
  change (foldl _ (New jsonUnmarshal d []) options) with i in Hd, Hs, Hc.
  simpl in Hd, Hs, Hc.
  split; [done|]. split; [done|]. split; [done|]. split; [|split].
  - split.
    + intros L n t. unfold stored. rewrite Hs. by rewrite lookup_empty.
    + rewrite Hc. apply map_Forall_empty.
  - unfold cacheCoherent. rewrite Hc. apply map_Forall_empty.
  - unfold New. by rewrite foldl_app.
Qed.

(** ** Lookups of keys that are not registered *)

Lemma matchesTail_context (context : string) :
  byteFree "010" context → regexp.matchesTail (context +:+ ">") = true.
Proof.
  induction context as [|a context IH]; intros Hfree; [done|].
  apply byteFree_cons in Hfree as [Ha Hfree].
  change (String.String a context +:+ ">")
    with (String.String a (context +:+ ">")).
  simpl. rewrite IH by done. rewrite (bool_decide_eq_false_2 _ Ha).
  apply orb_true_r.
Qed.

Lemma removeContext_group (name tail : string) :
  byteFree "<" name → regexp.matchesTail tail = true →
  regexp.removeContext (name +:+ String.String "<" tail) = name.
Proof.
  intros Hfree Htail. induction name as [|a name IH].
  - change ("" +:+ String.String "<" tail) with (String.String "<"%char tail).
    simpl. by rewrite Htail.
  - apply byteFree_cons in Hfree as [Ha Hfree].
    change (String.String a name +:+ String.String "<" tail)
      with (String.String a (name +:+ String.String "<" tail)).
    simpl. rewrite (bool_decide_eq_false_2 _ Ha). simpl. by rewrite IH.
Qed.

Lemma trimContext_withContext (name context : string) :
  strings.Contains name "<" = false →
  strings.Contains context (String.String "010" "") = false →
  trimContext (withContext name context) = name +:+ " ".
Proof.
  rewrite !Contains_byte_false. intros Hname Hcontext.
  unfold trimContext, withContext.
  replace (name +:+ " <" +:+ context +:+ ">")
    with ((name +:+ " ") +:+ String.String "<" (context +:+ ">"))
    by by rewrite append_assoc.
  apply removeContext_group; [|by apply matchesTail_context].
  apply byteFree_app. split; [done|]. by repeat constructor.
Qed.

(** X20: [StringX] and [NumberX] on a key that is not registered keep the
    space before the context group.  For a name without ["<"] and a context
    without a line feed, the text that is compiled for the key
    [name <context>] is [name] followed by a space: [StringX] renders the
    first variant of that text, and [NumberX] selects among its variants
    with the pluralizor of the default locale. *)
Theorem context_key_unregistered_keeps_the_space l (name context : string)
    (count : Z) (data : list Data) i :
  strings.Contains name "<" = false →
  strings.Contains context (String.String "010" "") = false →
  stored i (Locale_locale l) (withContext name context) = None →
  runtimeCompiledTranslations i !! withContext name context = None →
  let variants := compileText Parse (name +:+ " ") in
  (StringX Parse Execute l name context data i).1
  = (λ x, render Execute x data) <$> head variants
  ∧ (NumberX Parse Execute l name context count data i).1
    = (λ x, render Execute x data)
        <$> index variants
              (I18n_pluralizor i (defaultLocale i) count
                 (Z.of_nat (length variants))).
Proof.
  intros Hname Hcontext Hs Hc variants.
  pose proof (trimContext_withContext name context Hname Hcontext) as Htrim.
  unfold StringX, NumberX, String, Number.
  rewrite lookup_compiles by done. simpl. rewrite Htrim. fold variants.
  by rewrite index_zero.
Qed.

(** X21: [Number] on a key that is not registered goes by the pluralizor of
    the default locale, not by that of the locale bound: the variants are
    those of the key without its context group, and the index is the one
    that the default locale's pluralizor (the default pluralizor, if it has
    none of its own) returns for the count and their number. *)
Theorem Number_unregistered_uses_the_default_pluralizor l (key : string)
    (count : Z) (data : list Data) i :
  stored i (Locale_locale l) key = None →
  runtimeCompiledTranslations i !! key = None →
  let variants := compileText Parse (trimContext key) in
  (Number Parse Execute l key count data i).1
  = (λ x, render Execute x data)
      <$> index variants
            (I18n_pluralizor i (defaultLocale i) count
               (Z.of_nat (length variants))).
Proof.
  intros Hs Hc variants. unfold Number. by rewrite lookup_compiles.
Qed.

(** X22: of the data given to [String] and to [Number], only the first
    value reaches the template: further values change neither the result nor
    the state. *)
Theorem only_the_first_data_is_rendered l (name : string) (count : Z)
    (d : Data) (rest : list Data) i :
  String Parse Execute l name (d :: rest) i
  = String Parse Execute l name [d] i
  ∧ Number Parse Execute l name count (d :: rest) i
    = Number Parse Execute l name count [d] i.
Proof.
  unfold String, Number. destruct (lookup Parse l name i) as [t i'].
  split; f_equal; by apply option_fmap_ext.
Qed.

(** ** Files and patterns *)

Lemma readFiles_cons (ReadFile : string → error + list Byte.byte) i
    (v : string) (rest : list string) (b : list Byte.byte)
    (trans : gmap string string) (data : gmap string (gmap string string)) :
  ReadFile v = inr b → unmarshaler i b = inr trans →
  readFiles unicodeLower ReadFile i (v :: rest) data
  = readFiles unicodeLower ReadFile i rest
      (<[nameInsenstive unicodeLower v :=
           trans ∪ default ∅ (data !! nameInsenstive unicodeLower v)]> data).
Proof. intros Hr Hu. simpl. by rewrite Hr, Hu. Qed.

Lemma textOf_merged (data : gmap string (gmap string string))
    (locale : string) (trans : gmap string string) (L n : string) :
  textOf (<[locale := trans ∪ default ∅ (data !! locale)]> data) L n
  = if decide (L = locale)
    then match trans !! n with
         | Some text => Some text
         | None => textOf data L n
         end
    else textOf data L n.
Proof.
  unfold textOf. case_decide as HL.
  - subst L. rewrite lookup_insert_eq. simpl.
    destruct (trans !! n) as [text|] eqn:Ht.
    + by apply lookup_union_Some_l.
    + rewrite lookup_union_r by done. by destruct (data !! locale).
  - by rewrite lookup_insert_ne.
Qed.

(** The files of a list that all load leave a merged map. *)
Lemma readFiles_loads (ReadFile : string → error + list Byte.byte) i
    (filenames : list string) (data : gmap string (gmap string string)) :
  Forall (fileLoads ReadFile i) filenames →
  ∃ data', readFiles unicodeLower ReadFile i filenames data = inr data'.
Proof.
  intros Hall. revert data.
  induction Hall as [|v rest (b & trans & Hr & Hu) _ IH]; intros data.
  { by eexists. }
  rewrite (readFiles_cons _ _ _ _ _ _ _ Hr Hu). apply IH.
Qed.

(** Files that do not define [n] for the locale [L] leave the text of
    [(L, n)] as it is. *)
Lemma readFiles_untouched (ReadFile : string → error + list Byte.byte) i
    (filenames : list string) (data data' : gmap string (gmap string string))
    (L n : string) :
  Forall (λ w, nameInsenstive unicodeLower w = L →
               ∀ b trans, ReadFile w = inr b → unmarshaler i b = inr trans →
                          trans !! n = None) filenames →
  readFiles unicodeLower ReadFile i filenames data = inr data' →
  textOf data' L n = textOf data L n.
Proof.
  intros Hall. revert data.
  induction Hall as [|w rest Hw _ IH]; intros data; simpl.
  { by intros [= <-]. }
  destruct (ReadFile w) as [err|b] eqn:Hr; [done|].
  destruct (unmarshaler i b) as [err|trans] eqn:Hu; [done|].
  intros Hrest. rewrite (IH _ Hrest), textOf_merged.
  case_decide as HL; [|done]. by rewrite (Hw (eq_sym HL) b trans).
Qed.

Lemma readFiles_app (ReadFile : string → error + list Byte.byte) i
    (pre post : list string) (data : gmap string (gmap string string)) :
  readFiles unicodeLower ReadFile i (pre ++ post) data
  = match readFiles unicodeLower ReadFile i pre data with
    | inl err => inl err
    | inr data' => readFiles unicodeLower ReadFile i post data'
    end.
Proof.
  revert data. induction pre as [|v pre IH]; intros data; [done|]. simpl.
  destruct (ReadFile v) as [err|b]; [done|].
  destruct (unmarshaler i b) as [err|trans]; [done|].
  apply IH.
Qed.

(** X23: [LoadFiles] merges the files of one locale, and the last file that
    defines a name wins.  When every file loads, the map that is handed to
    [LoadMap] holds, for the locale of a file and a name that the file
    defines, the file's text, unless a later file of the same locale
    (the same canonical name) defines the name too. *)
Theorem LoadFiles_later_file_wins (depth : nat) (order : rangeOrder)
    (ReadFile : string → error + list Byte.byte) i
    (pre : list string) (v : string) (post : list string)
    (b : list Byte.byte) (trans : gmap string string) (n text : string) :
  Forall (fileLoads ReadFile i) (pre ++ v :: post) →
  ReadFile v = inr b → unmarshaler i b = inr trans →
  trans !! n = Some text →
  Forall (λ w, nameInsenstive unicodeLower w = nameInsenstive unicodeLower v →
               ∀ b' trans', ReadFile w = inr b' →
                            unmarshaler i b' = inr trans' →
                            trans' !! n = None) post →
  ∃ data,
    readFiles unicodeLower ReadFile i (pre ++ v :: post) ∅ = inr data
    ∧ textOf data (nameInsenstive unicodeLower v) n = Some text
    ∧ LoadFiles Parse unicodeLower depth order ReadFile i (pre ++ v :: post)
      = LoadMap Parse unicodeLower depth order i data.
Proof.
  intros Hall Hr Hu Htext Hpost.
  destruct (readFiles_loads ReadFile i _ ∅ Hall) as [data Hdata].
  exists data. split; [done|]. split; [|unfold LoadFiles; by rewrite Hdata].
  rewrite readFiles_app in Hdata.
  destruct (readFiles unicodeLower ReadFile i pre ∅) as [err|data0]; [done|].
  rewrite (readFiles_cons _ _ _ _ _ _ _ Hr Hu) in Hdata.
  rewrite (readFiles_untouched _ _ _ _ _ _ _ Hpost Hdata), textOf_merged.
  by rewrite decide_True, Htext.
Qed.

Lemma globPatterns_app (Glob : string → error + list string)
    (patterns : list string) (files : list string) :
  globPatterns Glob patterns files
  = match globPatterns Glob patterns [] with
    | inl err => inl err
    | inr found => inr (files ++ found)
    end.
Proof.
  revert files. induction patterns as [|p patterns IH]; intros files; simpl.
  { by rewrite app_nil_r. }
  destruct (Glob p) as [err|v]; [done|].
  rewrite (IH (files ++ v)), (IH v).
  destruct (globPatterns Glob patterns []); [done|]. by rewrite app_assoc.
Qed.

Lemma globPatterns_matches (Glob : string → error + list string)
    (patterns : list string) (matches : list (list string)) :
  Forall2 (λ p m, Glob p = inr m) patterns matches →
  globPatterns Glob patterns [] = inr (concat matches).
Proof.
  induction 1 as [|p m patterns matches Hp _ IH]; [done|].
  simpl. rewrite Hp, globPatterns_app, IH. done.
Qed.

Lemma globPatterns_fails (Glob : string → error + list string)
    (good : list string) (p : string) (rest : list string) (err : error)
    (files : list string) :
  Forall (λ q, ∃ m, Glob q = inr m) good →
  Glob p = inl err →
  globPatterns Glob (good ++ p :: rest) files = inl err.
Proof.
  intros Hgood Hp. revert files.
  induction Hgood as [|q good [m Hq] _ IH]; intros files; simpl.
  - by rewrite Hp.
  - rewrite Hq. apply IH.
Qed.

(** X24: [LoadGlob] and [LoadFS] load the matches of their patterns as
    [LoadFiles] loads a list of files: all the matches of the first pattern
    in the order [Glob] lists them, then those of the second, and so on, so
    that among files of one locale a match of a later pattern wins; a
    pattern without a match adds nothing and is no error. *)
Theorem LoadGlob_loads_the_matches_in_order (depth : nat)
    (order : rangeOrder) (Glob : string → error + list string)
    (ReadFile : string → error + list Byte.byte) i
    (patterns : list string) (matches : list (list string)) :
  Forall2 (λ p m, Glob p = inr m) patterns matches →
  LoadGlob Parse unicodeLower depth order Glob ReadFile i patterns
  = LoadFiles Parse unicodeLower depth order ReadFile i (concat matches)
  ∧ LoadFS Parse unicodeLower depth order
      {| fs_Glob := Glob; fs_ReadFile := ReadFile |} i patterns
    = LoadFiles Parse unicodeLower depth order ReadFile i (concat matches).
Proof.
  intros Hmatches. unfold LoadGlob, LoadFS. simpl.
  by rewrite (globPatterns_matches _ _ _ Hmatches).
Qed.

(** X25: a pattern that [Glob] rejects makes [LoadGlob] and [LoadFS] return
    its error before any file is read (whatever [ReadFile] would do), also
    when earlier patterns had matches, and the state is the one they were
    called in. *)
Theorem LoadGlob_bad_pattern_reads_nothing (depth : nat) (order : rangeOrder)
    (Glob : string → error + list string)
    (ReadFile : string → error + list Byte.byte) i
    (good : list string) (p : string) (rest : list string) (err : error) :
  Forall (λ q, ∃ m, Glob q = inr m) good →
  Glob p = inl err →
  LoadGlob Parse unicodeLower depth order Glob ReadFile i (good ++ p :: rest)
  = Returns (i, Some err)
  ∧ LoadFS Parse unicodeLower depth order
      {| fs_Glob := Glob; fs_ReadFile := ReadFile |} i (good ++ p :: rest)
    = Returns (i, Some err).
Proof.
  intros Hgood Hp. unfold LoadGlob, LoadFS. simpl.
  by rewrite (globPatterns_fails _ _ _ _ _ _ Hgood Hp).
Qed.

End FurtherProperties.

(** * The package's tests on the model

    The assertions of the test file that involve no template data, with the
    results that the tests expect. *)

Example nameInsenstive_README :
  nameInsenstive echo.unicodeLower "zh_TW.music.json" = "zh-tw"
  ∧ nameInsenstive echo.unicodeLower "ZH-TW" = "zh-tw"
  ∧ nameInsenstive echo.unicodeLower "test/zh_tw.hello.json" = "zh-tw".
Proof. repeat split; by vm_compute. Qed.

Example TestTokenString :
  PackageTests.after (PackageTests.core "zh-tw" ∅)
    (λ i, String echo.Parse echo.Execute (PackageTests.on "zh-tw" i)
            "test_message" [] i)
  = Returns (Some "這是一則測試訊息。")
  ∧ PackageTests.after (PackageTests.core "zh-tw" ∅)
      (λ i, String echo.Parse echo.Execute (PackageTests.on "zh-tw" i)
              "not_exists_message" [] i)
    = Returns (Some "not_exists_message").
Proof. split; by vm_compute. Qed.

Example TestTokenPlural :
  PackageTests.after (PackageTests.core "zh-tw" ∅)
    (λ i, Number echo.Parse echo.Execute (PackageTests.on "zh-tw" i)
            "test_plural" 0 [] i)
  = Returns (Some "沒有")
  ∧ PackageTests.after (PackageTests.core "zh-tw" ∅)
      (λ i, Number echo.Parse echo.Execute (PackageTests.on "zh-tw" i)
              "test_plural" 1 [] i)
    = Returns (Some "只有 1 個").
Proof. split; by vm_compute. Qed.

Example TestTextStringContext :
  PackageTests.after (PackageTests.core "zh-tw" ∅)
    (λ i, StringX echo.Parse echo.Execute (PackageTests.on "zh-tw" i)
            "Post" "verb" [] i)
  = Returns (Some "發表貼文")
  ∧ PackageTests.after (PackageTests.core "zh-tw" ∅)
      (λ i, StringX echo.Parse echo.Execute (PackageTests.on "zh-tw" i)
              "Post" "noun" [] i)
    = Returns (Some "文章").
Proof. split; by vm_compute. Qed.

Example TestTextFallback :
  PackageTests.after (PackageTests.core "zh-tw" {[ "ja-jp" := ["ko-kr"] ]})
    (λ i, String echo.Parse echo.Execute (PackageTests.on "ja-jp" i)
            "test_message" [] i)
  = Returns (Some "これはテストメッセージです。")
  ∧ PackageTests.after (PackageTests.core "zh-tw" {[ "ja-jp" := ["ko-kr"] ]})
      (λ i, String echo.Parse echo.Execute (PackageTests.on "ja-jp" i)
              "Hello, world!" [] i)
    = Returns (Some "안녕하세요, 세상!")
  ∧ PackageTests.after (PackageTests.core "zh-tw" {[ "ja-jp" := ["ko-kr"] ]})
      (λ i, StringX echo.Parse echo.Execute (PackageTests.on "ja-jp" i)
              "Post" "verb" [] i)
    = Returns (Some "메시지 게시")
  ∧ PackageTests.after (PackageTests.core "zh-tw" {[ "ja-jp" := ["ko-kr"] ]})
      (λ i, Number echo.Parse echo.Execute (PackageTests.on "ja-jp" i)
              "None | 1 Apple | {{ .Count }} Apples" 1 [] i)
    = Returns (Some "1 顆蘋果")
  ∧ PackageTests.after (PackageTests.core "zh-tw" {[ "ja-jp" := ["ko-kr"] ]})
      (λ i, String echo.Parse echo.Execute (PackageTests.on "ja-jp" i)
              "Ni hao" [] i)
    = Returns (Some "Ni hao").
Proof. repeat split; by vm_compute. Qed.

Example TestTextFallbackResursive :
  PackageTests.after
    (PackageTests.core "en-us"
       {[ "ja-jp" := ["ko-kr"]; "ko-kr" := ["zh-tw"] ]})
    (λ i, Number echo.Parse echo.Execute (PackageTests.on "ja-jp" i)
            "None | 1 Apple | {{ .Count }} Apples" 1 [] i)
  = Returns (Some "1 顆蘋果").
Proof. by vm_compute. Qed.

Example TestParseAcceptLanguage :
  ParseAcceptLanguage echo.unicodeLower
    "zh-TW,zh;q=0.9,en-US;q=0.8,en;q=0.7,ja;q=0.6"
  = ["zh-tw"; "zh"; "en-us"; "en"; "ja"].
Proof. by vm_compute. Qed.

Example TestLoadFiles :
  let load := LoadFiles echo.Parse echo.unicodeLower 1 LoadFilesExample.order
                LoadFilesExample.ReadFile LoadFilesExample.core
                LoadFilesExample.tests in
  LoadFilesExample.after load "message_a" = Returns (None, Some "訊息 A")
  ∧ LoadFilesExample.after load "message_b" = Returns (None, Some "訊息 B")
  ∧ LoadFilesExample.after load "message_c" = Returns (None, Some "訊息 C").
Proof. repeat split; by vm_compute. Qed.

Example TestLoadGlob :
  let load := LoadGlob echo.Parse echo.unicodeLower 1 LoadFilesExample.order
                LoadFilesExample.Glob LoadFilesExample.ReadFile
                LoadFilesExample.core ["test/*.json"] in
  LoadFilesExample.after load "message_a" = Returns (None, Some "訊息 A")
  ∧ LoadFilesExample.after load "message_b" = Returns (None, Some "訊息 B")
  ∧ LoadFilesExample.after load "message_c" = Returns (None, Some "訊息 C").
Proof. repeat split; by vm_compute. Qed.

Example TestLoadFS :
  let load := LoadFS echo.Parse echo.unicodeLower 1 LoadFilesExample.order
                LoadFilesExample.fsys LoadFilesExample.core
                ["test/*.json"] in
  LoadFilesExample.after load "message_a" = Returns (None, Some "訊息 A")
  ∧ LoadFilesExample.after load "message_b" = Returns (None, Some "訊息 B")
  ∧ LoadFilesExample.after load "message_c" = Returns (None, Some "訊息 C").
Proof. repeat split; by vm_compute. Qed.

(** * The claims on the examples *)

Lemma ChainExample_loaded (order : list string) :
  visitsKeysOf ChainExample.languages order →
  rangeLanguages echo.Parse echo.unicodeLower order ChainExample.languages
    ChainExample.core
  = ChainExample.loaded.
Proof.
  apply rangeLanguages_canonical_order.
  unfold distinctLocales. apply (bool_decide_unpack _). by vm_compute.
Qed.

(** C1: in the README's example (default locale ["ja-jp"], fallbacks
    [{"zh-tw": ["zh-hk", "zh-cn"]}], a name that only ["zh-cn"] and ["ja-jp"]
    define), [LoadMap] returns, whatever the order of its loops, and a
    locale bound to ["zh-tw"] then looks the name up to the translation of
    the default locale ["ja-jp"], although ["zh-cn"] holds one: the walk
    stops at ["zh-hk"], which has no fallbacks of its own and so answers
    with the default locale's entry. *)
Theorem C1_chain_entry_loses_to_the_default (depth : nat)
    (order : rangeOrder) :
  (2 ≤ depth)%nat →
  validOrder echo.Parse echo.unicodeLower order ChainExample.core
    ChainExample.languages →
  ∃ i', LoadMap echo.Parse echo.unicodeLower depth order ChainExample.core
          ChainExample.languages = Returns (i', None)
        ∧ NewLocale echo.unicodeLower i' ["zh-tw"] = ChainExample.zhTW
        ∧ stored i' "zh-cn" "k"
          = Some (compileTranslation echo.Parse ChainExample.core
                    "zh-cn" "k" "cn")
        ∧ lookup echo.Parse ChainExample.zhTW "k" i'
          = (compileTranslation echo.Parse ChainExample.core
               "ja-jp" "k" "jp", i')
        ∧ (String echo.Parse echo.Execute ChainExample.zhTW "k" [] i').1
          = Some "jp".
Proof.
  intros Hd Hvalid. pose proof Hvalid as [Hl _].
  assert (rankedFallbacks ChainExample.rank ChainExample.core) as Hranked.
  { unfold rankedFallbacks. apply (bool_decide_unpack _). by vm_compute. }
  assert (∀ locale, ChainExample.rank locale < depth)%nat as Hdepth.
  { intros locale. unfold ChainExample.rank. case_decide; lia. }
  destruct (LoadMap_spec echo.Parse echo.unicodeLower ChainExample.rank depth
              order ChainExample.core ChainExample.languages
              Hranked Hdepth Hvalid) as (i' & Hload & Hbf & Hslot).
  rewrite (ChainExample_loaded _ Hl) in Hbf, Hslot.
  assert (is_Some (compiledTranslations ChainExample.loaded !! "zh-tw"))
    as Htab.
  { apply (stored_is_Some_table _ _ "other"
             (compileTranslation echo.Parse ChainExample.core
                "zh-tw" "other" "x")).
    by vm_compute. }
  assert (stored i' "zh-tw" "k"
          = Some (compileTranslation echo.Parse ChainExample.core
                    "ja-jp" "k" "jp")) as Hs.
  { rewrite Hslot; [|by vm_compute|done|].
    - unfold slot.
      assert (stored ChainExample.loaded "zh-tw" "k" = None) as ->
        by by vm_compute.
      rewrite (lookupBestFallback_mono 2 depth _ _ _
                 (Some (compileTranslation echo.Parse ChainExample.core
                          "ja-jp" "k" "jp"))); [done|lia|by vm_compute].
    - exists "k", (compileTranslation echo.Parse ChainExample.core
                     "ja-jp" "k" "jp").
      split; [by vm_compute|done]. }
  exists i'. split; [done|]. split.
  { apply (NewLocale_bound echo.unicodeLower i' "zh-tw").
    by apply (bf_tables _ _ _ Hbf). }
  split.
  { apply (bf_kept _ _ _ Hbf). by vm_compute. }
  split; [by apply lookup_stored|].
  by rewrite (String_stored _ _ ChainExample.zhTW "k" [] i' _ Hs).
Qed.

(** The example of C1 at depth 2, every map visited in the order of its
    [elements]. *)
Lemma C1_witness :
  ∃ i', LoadMap echo.Parse echo.unicodeLower 2
          (canonicalOrder echo.Parse echo.unicodeLower ChainExample.core
             ChainExample.languages)
          ChainExample.core ChainExample.languages = Returns (i', None)
        ∧ NewLocale echo.unicodeLower i' ["zh-tw"] = ChainExample.zhTW
        ∧ stored i' "zh-cn" "k"
          = Some (compileTranslation echo.Parse ChainExample.core
                    "zh-cn" "k" "cn")
        ∧ lookup echo.Parse ChainExample.zhTW "k" i'
          = (compileTranslation echo.Parse ChainExample.core
               "ja-jp" "k" "jp", i')
        ∧ (String echo.Parse echo.Execute ChainExample.zhTW "k" [] i').1
          = Some "jp".
Proof.
  apply C1_chain_entry_loses_to_the_default;
    [lia|apply canonicalOrder_valid].
Defined.

Lemma RecursiveExample_ranked :
  rankedFallbacks RecursiveExample.rank RecursiveExample.core.
Proof. unfold rankedFallbacks. apply (bool_decide_unpack _). by vm_compute. Qed.

Lemma RecursiveExample_rank_bound (locale : string) :
  (RecursiveExample.rank locale < 3)%nat.
Proof. unfold RecursiveExample.rank. repeat case_decide; lia. Qed.

(** C4 on the translations of [TestTextFallbackResursive], at depth 3. *)
Lemma C4_witness :
  ∃ i', LoadMap echo.Parse echo.unicodeLower 3
          (canonicalOrder echo.Parse echo.unicodeLower RecursiveExample.core
             RecursiveExample.languages)
          RecursiveExample.core RecursiveExample.languages = Returns (i', None)
        ∧ Locale_locale (NewLocale echo.unicodeLower i' ["ja-jp"]) = "ja-jp"
        ∧ lookup echo.Parse (NewLocale echo.unicodeLower i' ["ja-jp"]) "k" i'
          = (compileTranslation echo.Parse RecursiveExample.core
               "zh-tw" "k" "tw", i').
Proof.
  apply (C4_recursive_chain_resolves echo.Parse echo.unicodeLower 3
           (canonicalOrder echo.Parse echo.unicodeLower RecursiveExample.core
              RecursiveExample.languages)
           RecursiveExample.core RecursiveExample.languages "k"
           (compileTranslation echo.Parse RecursiveExample.core
              "zh-tw" "k" "tw")
           (compileTranslation echo.Parse RecursiveExample.core
              "en-us" "k" "en")).
  - reflexivity.
  - apply canonicalOrder_valid.
  - lia.
  - vm_compute. reflexivity.
  - reflexivity.
  - vm_compute. reflexivity.
  - apply (bool_decide_unpack _). vm_compute. reflexivity.
  - vm_compute. reflexivity.
  - vm_compute. reflexivity.
Defined.

Lemma RecursiveExample_loadedOnlyInZhTw (order : list string) :
  visitsKeysOf RecursiveExample.onlyInZhTw order →
  rangeLanguages echo.Parse echo.unicodeLower order
    RecursiveExample.onlyInZhTw RecursiveExample.core
  = RecursiveExample.loadedOnlyInZhTw.
Proof.
  apply rangeLanguages_canonical_order.
  unfold distinctLocales. apply (bool_decide_unpack _). by vm_compute.
Qed.

Lemma RecursiveExample_k_is_no_grandName :
  ¬ grandName RecursiveExample.loadedOnlyInZhTw "k".
Proof.
  intros (key & grandTrans & Hs & Hname).
  rewrite <- tableOf_lookup in Hs.
  assert (tableOf RecursiveExample.loadedOnlyInZhTw
            (defaultLocale RecursiveExample.loadedOnlyInZhTw)
          = {[ "test_message" :=
                 compileTranslation echo.Parse RecursiveExample.core
                   "en-us" "test_message" "en" ]}) as Htable
    by (vm_compute; reflexivity).
  rewrite Htable in Hs. apply lookup_singleton_Some in Hs as [_ <-].
  discriminate Hname.
Qed.

(** C4, as stated, fails: with the default locale ["en-us"] of the
    package's test and the name defined in ["zh-tw"] alone, a locale bound
    to ["ja-jp"] renders the name itself, and no order of the loops makes it
    the translation of ["zh-tw"]: the pass only goes through the names of
    the default locale's translations. *)
Lemma C4_counterexample_name_missing_from_default :
  (∃ i', LoadMap echo.Parse echo.unicodeLower 3
           (canonicalOrder echo.Parse echo.unicodeLower RecursiveExample.core
              RecursiveExample.onlyInZhTw)
           RecursiveExample.core RecursiveExample.onlyInZhTw
         = Returns (i', None)
         ∧ NewLocale echo.unicodeLower i' ["ja-jp"] = RecursiveExample.jaJP
         ∧ (String echo.Parse echo.Execute RecursiveExample.jaJP "k" [] i').1
           = Some "k")
  ∧ ¬ ∃ (depth : nat) (order : rangeOrder) i',
        validOrder echo.Parse echo.unicodeLower order RecursiveExample.core
          RecursiveExample.onlyInZhTw
        ∧ LoadMap echo.Parse echo.unicodeLower depth order
            RecursiveExample.core RecursiveExample.onlyInZhTw
          = Returns (i', None)
        ∧ (String echo.Parse echo.Execute
             (NewLocale echo.unicodeLower i' ["ja-jp"]) "k" [] i').1
          = Some "tw".
Proof.
  assert (∀ (depth : nat) (order : rangeOrder) i',
            validOrder echo.Parse echo.unicodeLower order
              RecursiveExample.core RecursiveExample.onlyInZhTw →
            LoadMap echo.Parse echo.unicodeLower depth order
              RecursiveExample.core RecursiveExample.onlyInZhTw
            = Returns (i', None) →
            NewLocale echo.unicodeLower i' ["ja-jp"] = RecursiveExample.jaJP
            ∧ (String echo.Parse echo.Execute RecursiveExample.jaJP "k" []
                 i').1 = Some "k") as Hall.
  { intros depth order i' Hvalid Hload. pose proof Hvalid as [Hl _].
    assert (∀ locale, RecursiveExample.rank locale < depth `max` 3)%nat
      as Hdepth.
    { intros locale. pose proof (RecursiveExample_rank_bound locale). lia. }
    destruct (LoadMap_spec echo.Parse echo.unicodeLower RecursiveExample.rank
                (depth `max` 3) order RecursiveExample.core
                RecursiveExample.onlyInZhTw RecursiveExample_ranked
                Hdepth Hvalid) as (i'' & Hload' & Hbf & _).
    rewrite (LoadMap_mono _ _ depth (depth `max` 3) _ _ _ _ (Nat.le_max_l _ _)
               Hload) in Hload'.
    injection Hload' as <-.
    rewrite (RecursiveExample_loadedOnlyInZhTw _ Hl) in Hbf.
    split.
    - apply (NewLocale_bound echo.unicodeLower i' "ja-jp").
      apply (bf_tables _ _ _ Hbf), (bool_decide_unpack _). by vm_compute.
    - rewrite String_unregistered; [by vm_compute| |].
      + apply (backfilled_not_grandName _ _ _ _ _ Hbf); [by vm_compute|].
        apply RecursiveExample_k_is_no_grandName.
      + rewrite (bf_runtime _ _ _ Hbf). by vm_compute. }
  split.
  - destruct (LoadMap_spec echo.Parse echo.unicodeLower RecursiveExample.rank
                3 (canonicalOrder echo.Parse echo.unicodeLower
                     RecursiveExample.core RecursiveExample.onlyInZhTw)
                RecursiveExample.core RecursiveExample.onlyInZhTw
                RecursiveExample_ranked RecursiveExample_rank_bound
                (canonicalOrder_valid _ _ _ _)) as (i' & Hload & _).
    exists i'. split; [done|].
    by apply (Hall 3%nat _ i' (canonicalOrder_valid _ _ _ _)).
  - intros (depth & order & i' & Hvalid & Hload & Hstr).
    destruct (Hall depth order i' Hvalid Hload) as [Hlocale Hk].
    rewrite Hlocale in Hstr. congruence.
Qed.

Lemma ReloadExample_only_default_first (L : string) :
  is_Some (compiledTranslations ReloadExample.afterFirst !! L) →
  L = defaultLocale ReloadExample.afterFirst.
Proof.
  assert (compiledTranslations ReloadExample.afterFirst
          = {[ "en-us" :=
                 {[ "hello" :=
                      compileTranslation echo.Parse ReloadExample.core
                        "en-us" "hello" "Hello" ]} ]}) as ->
    by (vm_compute; reflexivity).
  by intros [trans [<- _]%lookup_singleton_Some].
Qed.

Lemma ReloadExample_only_default_second (L : string) :
  is_Some (compiledTranslations ReloadExample.afterSecond !! L) →
  L = defaultLocale ReloadExample.afterSecond.
Proof.
  assert (compiledTranslations ReloadExample.afterSecond
          = {[ "en-us" :=
                 {[ "bye" :=
                      compileTranslation echo.Parse ReloadExample.core
                        "en-us" "bye" "Bye" ]} ]}) as ->
    by (vm_compute; reflexivity).
  by intros [trans [<- _]%lookup_singleton_Some].
Qed.

Lemma ReloadExample_order (languages : gmap string (gmap string string))
    (order : list string) :
  elements (dom languages) = ["en-us"] →
  visitsKeysOf languages order → order = ["en-us"].
Proof.
  unfold visitsKeysOf. intros ->. apply Permutation_singleton_r.
Qed.

(** C5: a first [LoadMap] call loads ("en-us", "hello") and a second one
    loads ("en-us", "bye"), whatever the depth and the order of the loops.
    After the first call the store holds the entry for "hello"; after the
    second call the table of ["en-us"] holds "bye" alone, and "hello"
    renders as itself. *)
Theorem C5_later_LoadMap_drops_earlier_entries (depth1 depth2 : nat)
    (order1 order2 : rangeOrder) :
  validOrder echo.Parse echo.unicodeLower order1 ReloadExample.core
    ReloadExample.first →
  validOrder echo.Parse echo.unicodeLower order2 ReloadExample.afterFirst
    ReloadExample.second →
  LoadMap echo.Parse echo.unicodeLower depth1 order1 ReloadExample.core
    ReloadExample.first = Returns (ReloadExample.afterFirst, None)
  ∧ LoadMap echo.Parse echo.unicodeLower depth2 order2
      ReloadExample.afterFirst ReloadExample.second
    = Returns (ReloadExample.afterSecond, None)
  ∧ stored ReloadExample.afterFirst "en-us" "hello"
    = Some (compileTranslation echo.Parse ReloadExample.core
              "en-us" "hello" "Hello")
  ∧ stored ReloadExample.afterSecond "en-us" "hello" = None
  ∧ stored ReloadExample.afterSecond "en-us" "bye"
    = Some (compileTranslation echo.Parse ReloadExample.core
              "en-us" "bye" "Bye")
  ∧ (String echo.Parse echo.Execute ReloadExample.enUS "hello" []
       ReloadExample.afterFirst).1 = Some "Hello"
  ∧ (String echo.Parse echo.Execute ReloadExample.enUS "hello" []
       ReloadExample.afterSecond).1 = Some "hello".
Proof.
  intros [Hl1 _] [Hl2 _].
  apply ReloadExample_order in Hl1; [|by vm_compute].
  apply ReloadExample_order in Hl2; [|by vm_compute].
  split.
  { unfold LoadMap. rewrite Hl1. fold ReloadExample.afterFirst.
    by rewrite (compileFallbacks_only_default _ _ _
                  ReloadExample_only_default_first). }
  split.
  { unfold LoadMap. rewrite Hl2. fold ReloadExample.afterSecond.
    by rewrite (compileFallbacks_only_default _ _ _
                  ReloadExample_only_default_second). }
  repeat split; by vm_compute.
Qed.

(** The example of C5 with every map visited in the order of its
    [elements]. *)
Lemma C5_witness :
  LoadMap echo.Parse echo.unicodeLower 1
    (canonicalOrder echo.Parse echo.unicodeLower ReloadExample.core
       ReloadExample.first)
    ReloadExample.core ReloadExample.first
  = Returns (ReloadExample.afterFirst, None)
  ∧ LoadMap echo.Parse echo.unicodeLower 1
      (canonicalOrder echo.Parse echo.unicodeLower ReloadExample.afterFirst
         ReloadExample.second)
      ReloadExample.afterFirst ReloadExample.second
    = Returns (ReloadExample.afterSecond, None)
  ∧ stored ReloadExample.afterFirst "en-us" "hello"
    = Some (compileTranslation echo.Parse ReloadExample.core
              "en-us" "hello" "Hello")
  ∧ stored ReloadExample.afterSecond "en-us" "hello" = None
  ∧ stored ReloadExample.afterSecond "en-us" "bye"
    = Some (compileTranslation echo.Parse ReloadExample.core
              "en-us" "bye" "Bye")
  ∧ (String echo.Parse echo.Execute ReloadExample.enUS "hello" []
       ReloadExample.afterFirst).1 = Some "Hello"
  ∧ (String echo.Parse echo.Execute ReloadExample.enUS "hello" []
       ReloadExample.afterSecond).1 = Some "hello".
Proof.
  apply C5_later_LoadMap_drops_earlier_entries; apply canonicalOrder_valid.
Defined.

Lemma CycleExample_loaded (order : list string) :
  visitsKeysOf CycleExample.languages order →
  rangeLanguages echo.Parse echo.unicodeLower order CycleExample.languages
    CycleExample.core
  = CycleExample.loaded.
Proof.
  apply rangeLanguages_canonical_order.
  unfold distinctLocales. apply (bool_decide_unpack _). by vm_compute.
Qed.

(** In the state that the load loop leaves, the walk from ["zh-tw"] for the
    name of the default locale goes to ["zh-hk"] and back, without end. *)
Lemma CycleExample_walk (depth : nat) :
  lookupBestFallback depth CycleExample.loaded "zh-tw" "k" = OutOfDepth.
Proof.
  apply (lookupBestFallback_two_cycle CycleExample.loaded
           "zh-tw" "zh-hk" "k" [] []); by vm_compute.
Qed.

Lemma CycleExample_pass (depth : nat)
    (visits : list (string * list string)) :
  validVisits CycleExample.loaded visits →
  compileFallbacks depth visits CycleExample.loaded = OutOfDepth.
Proof.
  intros [Hkeys Hlocales].
  assert (elements (dom (tableOf CycleExample.loaded
                           (defaultLocale CycleExample.loaded))) = ["k"])
    as Hdom by by vm_compute.
  unfold visitsKeysOf in Hkeys. rewrite Hdom in Hkeys.
  destruct (single_visit _ _ _ Hkeys Hlocales) as (locales & -> & Hvisit).
  unfold visitsKeysOf in Hvisit. cbn [snd] in Hvisit.
  rewrite compileFallbacks_cons.
  assert (stored CycleExample.loaded (defaultLocale CycleExample.loaded) "k"
          = Some (compileTranslation echo.Parse CycleExample.core
                    "ja-jp" "k" "jp")) as -> by by vm_compute.
  change (name (compileTranslation echo.Parse CycleExample.core
                  "ja-jp" "k" "jp")) with "k".
  rewrite (rangeLocales_stuck depth "k" locales "zh-tw"); [done| | |].
  - rewrite Hvisit. apply elem_of_elements, elem_of_dom.
    apply (bool_decide_unpack _). by vm_compute.
  - intros L HL Hne. rewrite Hvisit in HL.
    apply elem_of_elements, elem_of_dom in HL.
    assert (compiledTranslations CycleExample.loaded
            = {[ "ja-jp" :=
                   {[ "k" := compileTranslation echo.Parse CycleExample.core
                               "ja-jp" "k" "jp" ]};
                 "zh-tw" :=
                   {[ "other" :=
                        compileTranslation echo.Parse CycleExample.core
                          "zh-tw" "other" "x" ]} ]}) as Hstore
      by (vm_compute; reflexivity).
    rewrite Hstore in HL. destruct HL as [trans HL].
    apply lookup_insert_Some in HL as [[<- _]|[_ HL]].
    + apply backfill_default. by vm_compute.
    + apply lookup_singleton_Some in HL as [<- _]. by destruct Hne.
  - apply backfill_diverges.
    + apply (bool_decide_unpack _). by vm_compute.
    + by vm_compute.
    + by vm_compute.
    + apply CycleExample_walk.
Qed.

(** C3, as stated, fails: with ["zh-tw"] and ["zh-hk"] falling back on each
    other, the walk that the backfill pass starts from ["zh-tw"] for the
    name of the default locale does not return, whatever nesting it is
    allowed. *)
Lemma C3_counterexample_cyclic_walk :
  grandName CycleExample.loaded "k"
  ∧ is_Some (compiledTranslations CycleExample.loaded !! "zh-tw")
  ∧ stored CycleExample.loaded "zh-tw" "k" = None
  ∧ neverReturns
      (λ depth, lookupBestFallback depth CycleExample.loaded "zh-tw" "k").
Proof.
  split; [|split; [|split]].
  - exists "k", (compileTranslation echo.Parse CycleExample.core
                   "ja-jp" "k" "jp").
    split; by vm_compute.
  - apply (bool_decide_unpack _). by vm_compute.
  - by vm_compute.
  - intros depth. apply CycleExample_walk.
Qed.

(** C3 on the fallback table of [TestTextFallbackResursive], ranked
    ja-jp > ko-kr > every other locale. *)
Lemma C3_witness :
  ∃ r, ∀ depth : nat,
    (RecursiveExample.rank "ja-jp" < depth)%nat →
    lookupBestFallback depth RecursiveExample.core "ja-jp" "k" = Returns r.
Proof.
  apply (C3_walk_returns_on_ranked_fallbacks RecursiveExample.rank
           RecursiveExample.core "ja-jp" "k").
  unfold rankedFallbacks. apply (bool_decide_unpack _). vm_compute.
  reflexivity.
Defined.

(** C10, as stated, fails: with ["zh-tw"] and ["zh-hk"] falling back on each
    other, [LoadMap] of a mapping that gives the default locale a name and
    ["zh-tw"] a table without it does not return, whatever the depth and
    the order of its loops; no error value reaches the caller. *)
Lemma C10_counterexample_cyclic_fallbacks :
  ¬ ∃ (depth : nat) (order : rangeOrder) r,
      validOrder echo.Parse echo.unicodeLower order CycleExample.core
        CycleExample.languages
      ∧ LoadMap echo.Parse echo.unicodeLower depth order CycleExample.core
          CycleExample.languages = Returns r.
Proof.
  intros (depth & order & r & [Hl Hvisits] & Hload).
  rewrite (CycleExample_loaded _ Hl) in Hvisits.
  unfold LoadMap in Hload. rewrite (CycleExample_loaded _ Hl) in Hload.
  by rewrite (CycleExample_pass depth _ Hvisits) in Hload.
Qed.

(** C10 on the core and the translations of [TestTextFallbackResursive]. *)
Lemma C10_witness :
  ∃ i', LoadMap echo.Parse echo.unicodeLower 3
          (canonicalOrder echo.Parse echo.unicodeLower RecursiveExample.core
             RecursiveExample.languages)
          RecursiveExample.core RecursiveExample.languages
        = Returns (i', None).
Proof.
  apply (C10_LoadMap_returns_nil_on_ranked_fallbacks echo.Parse
           echo.unicodeLower RecursiveExample.rank).
  - unfold rankedFallbacks. apply (bool_decide_unpack _). vm_compute.
    reflexivity.
  - intros locale. unfold RecursiveExample.rank. repeat case_decide; lia.
Defined.

(** C2, as stated, fails. A loaded translation of one variant carries the
    default pluralizor, which selects index 2 for the count 2: [Number]
    indexes a slice of length 1 out of range and panics.  And a pluralizor
    of the caller's is taken at its word: one that answers with the number
    of choices selects an index out of range for every translation. *)
Lemma C2_counterexample_single_variant_and_custom :
  (stored ReloadExample.afterFirst "en-us" "hello"
   = Some (compileTranslation echo.Parse ReloadExample.core
             "en-us" "hello" "Hello")
   ∧ length (texts (compileTranslation echo.Parse ReloadExample.core
                      "en-us" "hello" "Hello")) = 1%nat
   ∧ pluralizor (compileTranslation echo.Parse ReloadExample.core
                   "en-us" "hello" "Hello") 2 1 = 2
   ∧ (Number echo.Parse echo.Execute ReloadExample.enUS "hello" 2 []
        ReloadExample.afterFirst).1 = None)
  ∧ (length (texts (compileTranslation echo.Parse PluralExample.core
                      "ru" "car" "a | b | c")) = 3%nat
     ∧ pluralizor (compileTranslation echo.Parse PluralExample.core
                     "ru" "car" "a | b | c") 0 3 = 3).
Proof. repeat split; by vm_compute. Qed.

(** C2 on the README's translation of three variants, for the count 3. *)
Lemma C2_witness :
  let t := compileTranslation echo.Parse ReloadExample.core "zh-tw" "apples"
             "None | 1 Apple | {{ .Count }} Apples" in
  0 ≤ pluralizor t 3 (Z.of_nat (length (texts t)))
    < Z.of_nat (length (texts t))
  ∧ ∀ l (key : string) data
      (i : I18n (Template := echo.Template) (error := echo.error)),
      stored i (Locale_locale l) key = Some t →
      is_Some (Number echo.Parse echo.Execute l key 3 data i).1.
Proof.
  apply (C2_default_index_in_bounds echo.Parse echo.Execute
           ReloadExample.core "zh-tw" "apples"
           "None | 1 Apple | {{ .Count }} Apples" 3).
  - reflexivity.
  - vm_compute. lia.
Defined.



(** C8 on a key with a context, on a fresh core; the second lookup is
    handed a compiler that compiles nothing. *)
Lemma C8_witness :
  let first := lookup echo.Parse ReloadExample.enUS "Post <adjective>"
                 ReloadExample.core in
  runtimeCompiledTranslations first.2 !! "Post <adjective>" = Some first.1
  ∧ lookup (λ _, None) ReloadExample.enUS "Post <adjective>" first.2 = first
  ∧ String (λ _, None) echo.Execute ReloadExample.enUS "Post <adjective>" []
      first.2
    = String echo.Parse echo.Execute ReloadExample.enUS "Post <adjective>" []
        ReloadExample.core
  ∧ Number (λ _, None) echo.Execute ReloadExample.enUS "Post <adjective>" 0 []
      first.2
    = Number echo.Parse echo.Execute ReloadExample.enUS "Post <adjective>" 0
        [] ReloadExample.core.
Proof.
  apply (C8_second_lookup_hits_the_cache echo.Parse echo.Execute
           (λ _, None) ReloadExample.enUS "Post <adjective>" 0 []
           ReloadExample.core).
  reflexivity.
Defined.

(** C9 on three files of which the second does not exist, after an earlier
    [LoadMap]. *)
Lemma C9_witness :
  LoadFiles echo.Parse echo.unicodeLower 1
    {| languagesOrder := ["zh-tw"]; fallbacksOrder := [] |}
    FilesExample.ReadFile ReloadExample.afterFirst
    (["test/zh-tw.json"] ++ "test/ja-jp.json" :: ["test/zh_TW.json"])
  = Returns (ReloadExample.afterFirst, Some "no such file or directory").
Proof.
  apply (C9_failed_load_keeps_the_store echo.Parse echo.unicodeLower 1
           {| languagesOrder := ["zh-tw"]; fallbacksOrder := [] |}
           FilesExample.ReadFile ReloadExample.afterFirst
           ["test/zh-tw.json"] "test/ja-jp.json" ["test/zh_TW.json"]
           "no such file or directory").
  - apply Forall_singleton.
    exists [Byte.x7b; Byte.x7d], {[ "message_a" := "Message A" ]}.
    split; vm_compute; reflexivity.
  - left. vm_compute. reflexivity.
Defined.

(** * The further properties on the examples *)

(** X1 on the name of a file of the tests. *)
Lemma X1_witness :
  let r := nameInsenstive echo.unicodeLower "test/zh_TW.music.json" in
  nameInsenstive echo.unicodeLower r = r
  ∧ strings.isASCII r = true
  ∧ strings.Contains r "_" = false
  ∧ strings.Contains r "." = false
  ∧ strings.ToLower echo.unicodeLower r = r.
Proof.
  apply (nameInsenstive_is_canonical echo.unicodeLower
           "test/zh_TW.music.json").
  reflexivity.
Defined.

(** X2 on the same file. *)
Lemma X2_witness :
  nameInsenstive echo.unicodeLower
    ("test" +:+ "/" +:+ "zh_TW" +:+ "." +:+ "music.json")
  = nameInsenstive echo.unicodeLower "zh_TW"
  ∧ nameInsenstive echo.unicodeLower ("zh_TW" +:+ "." +:+ "music.json")
    = nameInsenstive echo.unicodeLower "zh_TW".
Proof.
  apply (nameInsenstive_of_file echo.unicodeLower "test" "zh_TW"
           "music.json"); reflexivity.
Defined.

(** X3 on a header whose last element has the lowest quality and comes
    after a space. *)
Lemma X3_witness :
  ParseAcceptLanguage echo.unicodeLower
    (String.concat ","
       ((λ '(pad, tag, params), pad +:+ tag +:+ params)
          <$> [("", "zh-TW", ""); ("", "zh", ";q=0.9");
               (" ", "en_US", ";q=0.8")]))
  = (λ '(pad, tag, params), nameInsenstive echo.unicodeLower tag)
      <$> [("", "zh-TW", ""); ("", "zh", ";q=0.9"); (" ", "en_US", ";q=0.8")].
Proof.
  apply (ParseAcceptLanguage_drops_parameters echo.unicodeLower
           [("", "zh-TW", ""); ("", "zh", ";q=0.9");
            (" ", "en_US", ";q=0.8")]); [done|].
  repeat (apply Forall_cons; split); [| | |done].
  - repeat split; try reflexivity. by left.
  - repeat split; try reflexivity. by right.
  - repeat split; try reflexivity. by right.
Defined.

(** X4 on a text of three variants. *)
Lemma X4_witness :
  Forall (λ x, tmpl x = None)
    (compileText echo.Parse "None | 1 Apple | Apples")
  ∧ String.concat " | "
      (text <$> compileText echo.Parse "None | 1 Apple | Apples")
    = "None | 1 Apple | Apples".
Proof.
  apply (compileText_joins_back echo.Parse "None | 1 Apple | Apples").
  reflexivity.
Defined.

(** X6 on the loaded core of [TestTextFallbackResursive]. *)
Lemma X6_witness :
  NewLocale echo.unicodeLower LoadedExample.filled
    (nameInsenstive echo.unicodeLower <$> ["fr"; "zh_TW"; "en-US"])
  = NewLocale echo.unicodeLower LoadedExample.filled ["fr"; "zh_TW"; "en-US"].
Proof.
  apply (NewLocale_of_canonical_names echo.unicodeLower LoadedExample.filled
           ["fr"; "zh_TW"; "en-US"]).
  by repeat constructor.
Defined.

(** X7 on the backfill pass of that core. *)
Lemma X7_witness :
  (∀ L n v,
     stored LoadedExample.loaded L n = Some v →
     stored LoadedExample.filled L n = Some v)
  ∧ (∀ L n b,
       stored LoadedExample.filled L n = Some b →
       ∃ L', stored LoadedExample.loaded L' n = Some b).
Proof.
  apply (compileFallbacks_only_copies 3
           (fallbacksOrder LoadedExample.order)).
  by vm_compute.
Defined.

(** X8 on the same pass. *)
Lemma X8_witness :
  LoadedExample.filled
  = set_compiledTranslations (compiledTranslations LoadedExample.filled)
      LoadedExample.loaded
  ∧ dom (compiledTranslations LoadedExample.filled)
    = dom (compiledTranslations LoadedExample.loaded)
  ∧ compiledTranslations LoadedExample.filled
      !! defaultLocale LoadedExample.loaded
    = compiledTranslations LoadedExample.loaded
        !! defaultLocale LoadedExample.loaded.
Proof.
  apply (compileFallbacks_writes_other_tables_only 3
           (fallbacksOrder LoadedExample.order)).
  by vm_compute.
Defined.

Lemma RecursiveExample_distinct :
  distinctLocales echo.unicodeLower RecursiveExample.languages.
Proof. apply (bool_decide_unpack _). by vm_compute. Qed.

Lemma LoadedExample_order_valid :
  validOrder echo.Parse echo.unicodeLower LoadedExample.order
    RecursiveExample.core RecursiveExample.languages.
Proof. apply canonicalOrder_valid. Qed.

Lemma LoadedExample_filled :
  LoadMap echo.Parse echo.unicodeLower 3 LoadedExample.order
    RecursiveExample.core RecursiveExample.languages
  = Returns (LoadedExample.filled, None).
Proof. by vm_compute. Qed.

(** X9 on the translations of [TestTextFallbackResursive]. *)
Lemma X9_witness :
  let l := NewLocale echo.unicodeLower LoadedExample.filled ["zh-tw"] in
  Locale_Locale l = nameInsenstive echo.unicodeLower "zh-tw"
  ∧ lookup echo.Parse l "k" LoadedExample.filled
    = (compileTranslation echo.Parse RecursiveExample.core
         (nameInsenstive echo.unicodeLower "zh-tw") "k" "tw",
       LoadedExample.filled)
  ∧ ∀ data,
      String echo.Parse echo.Execute l "k" data LoadedExample.filled
      = (Some (render echo.Execute
                 (compileSegment echo.Parse
                    (default "" (head (strings.Split "tw" " | "))))
                 data), LoadedExample.filled).
Proof.
  apply (LoadMap_then_String echo.Parse echo.Execute echo.unicodeLower 3
           LoadedExample.order RecursiveExample.core
           RecursiveExample.languages "zh-tw" {[ "k" := "tw" ]} "k" "tw"
           LoadedExample.filled None).
  - exact RecursiveExample_distinct.
  - exact LoadedExample_order_valid.
  - by vm_compute.
  - by vm_compute.
  - exact LoadedExample_filled.
Defined.

(** X10 on the same translations: the table of ["en-us"]. *)
Lemma X10_witness :
  defaultLocale LoadedExample.filled = defaultLocale RecursiveExample.core
  ∧ stored LoadedExample.filled (defaultLocale RecursiveExample.core) "k"
    = compileTranslation echo.Parse RecursiveExample.core
        (defaultLocale RecursiveExample.core) "k"
        <$> ({[ "k" := "en" ]} : gmap string string) !! "k".
Proof.
  apply (LoadMap_replaces_the_default_table echo.Parse echo.unicodeLower 3
           LoadedExample.order RecursiveExample.core
           RecursiveExample.languages "en-us" {[ "k" := "en" ]} "k"
           LoadedExample.filled None).
  - exact RecursiveExample_distinct.
  - exact LoadedExample_order_valid.
  - by vm_compute.
  - by vm_compute.
  - exact LoadedExample_filled.
Defined.

Lemma RecursiveExample_rank_bound_4 (locale : string) :
  (RecursiveExample.rank locale < 4)%nat.
Proof. unfold RecursiveExample.rank. repeat case_decide; lia. Qed.

(** X11 on the same translations: the loops in the order of [elements] with
    depth 3, and in the reverse order with depth 4. *)
Lemma X11_witness :
  LoadMap echo.Parse echo.unicodeLower 3
    (canonicalOrder echo.Parse echo.unicodeLower RecursiveExample.core
       RecursiveExample.languages)
    RecursiveExample.core RecursiveExample.languages
  = LoadMap echo.Parse echo.unicodeLower 4
      (reversedOrder echo.Parse echo.unicodeLower RecursiveExample.core
         RecursiveExample.languages)
      RecursiveExample.core RecursiveExample.languages.
Proof.
  apply (LoadMap_order_independent echo.Parse echo.unicodeLower
           RecursiveExample.rank).
  - exact RecursiveExample_ranked.
  - exact RecursiveExample_rank_bound.
  - exact RecursiveExample_rank_bound_4.
  - exact RecursiveExample_distinct.
  - apply canonicalOrder_valid.
  - apply reversedOrder_valid.
Defined.

(** X12 on the same translations, followed by a [LoadMap] of the empty
    map and by a [LoadFiles] without files. *)
Lemma X12_witness :
  LoadMap echo.Parse echo.unicodeLower 3
    {| languagesOrder := ["zh-tw"];
       fallbacksOrder := [("k", ["ja-jp"; "ko-kr"; "zh-tw"])] |}
    LoadedExample.filled ∅
  = Returns (LoadedExample.filled, None)
  ∧ LoadFiles echo.Parse echo.unicodeLower 3
      {| languagesOrder := ["zh-tw"];
         fallbacksOrder := [("k", ["ja-jp"; "ko-kr"; "zh-tw"])] |}
      FilesExample.ReadFile LoadedExample.filled []
    = Returns (LoadedExample.filled, None).
Proof.
  apply (LoadMap_of_nothing_after_a_load echo.Parse echo.unicodeLower
           RecursiveExample.rank 3 LoadedExample.order _
           FilesExample.ReadFile
           RecursiveExample.core RecursiveExample.languages).
  - exact RecursiveExample_ranked.
  - exact RecursiveExample_rank_bound.
  - exact LoadedExample_order_valid.
  - exact LoadedExample_filled.
Defined.

Lemma RecursiveExample_onlyInZhTw_distinct :
  distinctLocales echo.unicodeLower RecursiveExample.onlyInZhTw.
Proof. apply (bool_decide_unpack _). by vm_compute. Qed.

(** X13 on the core of [TestTextFallbackResursive] and translations that
    give ["test_message"] to the default locale ["en-us"] and not to
    ["zh-tw"], which has no entry in the fallback table. *)
Lemma X13_witness :
  ∃ i', LoadMap echo.Parse echo.unicodeLower 3
          (canonicalOrder echo.Parse echo.unicodeLower RecursiveExample.core
             RecursiveExample.onlyInZhTw)
          RecursiveExample.core RecursiveExample.onlyInZhTw
        = Returns (i', None)
        ∧ stored i' (nameInsenstive echo.unicodeLower "zh-tw") "test_message"
          = Some (compileTranslation echo.Parse RecursiveExample.core
                    (defaultLocale RecursiveExample.core)
                    "test_message" "en").
Proof.
  apply (LoadMap_fills_from_the_default echo.Parse echo.unicodeLower
           RecursiveExample.rank 3 _ RecursiveExample.core
           RecursiveExample.onlyInZhTw "en-us" "zh-tw"
           {[ "test_message" := "en" ]} {[ "k" := "tw" ]}).
  - exact RecursiveExample_ranked.
  - exact RecursiveExample_rank_bound.
  - exact RecursiveExample_onlyInZhTw_distinct.
  - apply canonicalOrder_valid.
  - by vm_compute.
  - by vm_compute.
  - by vm_compute.
  - by vm_compute.
  - by vm_compute.
  - by vm_compute.
  - by vm_compute.
Defined.

(** X14 on the translations of [TestTextFallbackResursive]: ["ko-kr"],
    whose chain starts with ["zh-tw"], gets ["k"] from there. *)
Lemma X14_witness :
  ∃ i', LoadMap echo.Parse echo.unicodeLower 3 LoadedExample.order
          RecursiveExample.core RecursiveExample.languages
        = Returns (i', None)
        ∧ stored i' (nameInsenstive echo.unicodeLower "ko-kr") "k"
          = Some (compileTranslation echo.Parse RecursiveExample.core
                    (nameInsenstive echo.unicodeLower "zh-tw") "k" "tw").
Proof.
  apply (LoadMap_fills_from_the_first_fallback echo.Parse echo.unicodeLower
           RecursiveExample.rank 3 LoadedExample.order RecursiveExample.core
           RecursiveExample.languages "en-us" "ko-kr" "zh-tw"
           {[ "k" := "en" ]} {[ "test_message" := "ko" ]} {[ "k" := "tw" ]}
           [] "k" "en" "tw").
  - exact RecursiveExample_ranked.
  - exact RecursiveExample_rank_bound.
  - exact RecursiveExample_distinct.
  - exact LoadedExample_order_valid.
  - by vm_compute.
  - by vm_compute.
  - by vm_compute.
  - by vm_compute.
  - by vm_compute.
  - by vm_compute.
  - by vm_compute.
  - by vm_compute.
  - by vm_compute.
Defined.

(** X15 on a core that gives ["zh-tw"] the empty chain: the name that the
    default locale ["en-us"] defines does not reach ["zh-tw"]. *)
Lemma X15_witness :
  ∃ i', LoadMap echo.Parse echo.unicodeLower 1
          (canonicalOrder echo.Parse echo.unicodeLower EmptyChainExample.core
             EmptyChainExample.languages)
          EmptyChainExample.core EmptyChainExample.languages
        = Returns (i', None)
        ∧ stored i' (nameInsenstive echo.unicodeLower "zh-tw") "k" = None.
Proof.
  apply (LoadMap_empty_chain_gets_nothing echo.Parse echo.unicodeLower
           (λ _, O) 1 _ EmptyChainExample.core EmptyChainExample.languages
           "zh-tw" {[ "other" := "x" ]} "k").
  - unfold rankedFallbacks. apply (bool_decide_unpack _). by vm_compute.
  - intros locale. lia.
  - apply (bool_decide_unpack _). by vm_compute.
  - apply canonicalOrder_valid.
  - by vm_compute.
  - by vm_compute.
  - by vm_compute.
Defined.

(** X16 on a core whose default locale is ["en_US"], loading a table under
    that very key. *)
Lemma X16_witness :
  let order := canonicalOrder echo.Parse echo.unicodeLower
                 UnderscoreExample.core UnderscoreExample.languages in
  let i1 := rangeLanguages echo.Parse echo.unicodeLower
              (languagesOrder order) UnderscoreExample.languages
              UnderscoreExample.core in
  LoadMap echo.Parse echo.unicodeLower 0 order UnderscoreExample.core
    UnderscoreExample.languages
  = Returns (i1, None)
  ∧ ∀ name,
      stored i1 (Locale_Locale (NewLocale echo.unicodeLower i1 [])) name
      = None.
Proof.
  apply (default_locale_is_not_canonicalized echo.Parse echo.unicodeLower 0
           _ UnderscoreExample.core UnderscoreExample.languages);
    by vm_compute.
Defined.

(** X18 on the state after a first lookup of a key that is not registered. *)
Lemma X18_witness :
  let i := (lookup echo.Parse ReloadExample.enUS "Post <adjective>"
              ReloadExample.core).2 in
  let i0 := set_runtimeCompiledTranslations ∅ i in
  (lookup echo.Parse ReloadExample.enUS "Post <adjective>" i).1
  = (lookup echo.Parse ReloadExample.enUS "Post <adjective>" i0).1
  ∧ (String echo.Parse echo.Execute ReloadExample.enUS "Post <adjective>"
       [] i).1
    = (String echo.Parse echo.Execute ReloadExample.enUS "Post <adjective>"
         [] i0).1
  ∧ (Number echo.Parse echo.Execute ReloadExample.enUS "Post <adjective>"
       0 [] i).1
    = (Number echo.Parse echo.Execute ReloadExample.enUS "Post <adjective>"
         0 [] i0).1
  ∧ cacheCoherent echo.Parse
      (lookup echo.Parse ReloadExample.enUS "Post <adjective>" i).2.
Proof.
  apply (runtime_cache_is_transparent echo.Parse echo.Execute
           ReloadExample.enUS "Post <adjective>" 0 []).
  apply cacheCoherent_lookup, cacheCoherent_New.
Defined.

(** X19 on the three options of the package. *)
Lemma X19_witness :
  let options :=
    [WithFallback {[ "zh-tw" := ["zh-hk"] ]};
     WithPluralizor {[ "ru" := PluralExample.lastPlusOne ]};
     WithUnmarshaler echo.jsonUnmarshal] in
  let i := New (Template := echo.Template) echo.jsonUnmarshal "zh-tw"
             options in
  defaultLocale i = "zh-tw"
  ∧ compiledTranslations i = ∅
  ∧ runtimeCompiledTranslations i = ∅
  ∧ everyTextHasAVariant i
  ∧ cacheCoherent echo.Parse i
  ∧ fallbacks (New (Template := echo.Template) echo.jsonUnmarshal "zh-tw"
                 (options ++ [WithFallback {[ "ja-jp" := ["ko-kr"] ]}]))
    = {[ "ja-jp" := ["ko-kr"] ]}.
Proof.
  apply (New_with_options echo.Parse echo.jsonUnmarshal "zh-tw"
           [WithFallback {[ "zh-tw" := ["zh-hk"] ]};
            WithPluralizor {[ "ru" := PluralExample.lastPlusOne ]};
            WithUnmarshaler echo.jsonUnmarshal]
           {[ "ja-jp" := ["ko-kr"] ]}).
  repeat (apply Forall_cons; split); [| | |done].
  - right. left. by eexists.
  - right. right. by eexists.
  - left. by eexists.
Defined.

(** X20 on the README's [StringX("Post", "adjective")]. *)
Lemma X20_witness :
  let variants := compileText echo.Parse ("Post" +:+ " ") in
  (StringX echo.Parse echo.Execute ReloadExample.enUS "Post" "adjective" []
     ReloadExample.core).1
  = (λ x, render echo.Execute x []) <$> head variants
  ∧ (NumberX echo.Parse echo.Execute ReloadExample.enUS "Post" "adjective"
       2 [] ReloadExample.core).1
    = (λ x, render echo.Execute x [])
        <$> index variants
              (I18n_pluralizor ReloadExample.core
                 (defaultLocale ReloadExample.core) 2
                 (Z.of_nat (length variants))).
Proof.
  apply (context_key_unregistered_keeps_the_space echo.Parse echo.Execute
           ReloadExample.enUS "Post" "adjective" 2 [] ReloadExample.core);
    reflexivity.
Defined.

(** X21 on a key of three variants, for a locale bound to ["ru"] on a core
    whose default locale is ["en-us"]. *)
Lemma X21_witness :
  let variants := compileText echo.Parse (trimContext "None | One | Many") in
  (Number echo.Parse echo.Execute {| Locale_locale := "ru" |}
     "None | One | Many" 5 [] ReloadExample.core).1
  = (λ x, render echo.Execute x [])
      <$> index variants
            (I18n_pluralizor ReloadExample.core
               (defaultLocale ReloadExample.core) 5
               (Z.of_nat (length variants))).
Proof.
  apply (Number_unregistered_uses_the_default_pluralizor echo.Parse
           echo.Execute {| Locale_locale := "ru" |} "None | One | Many" 5 []
           ReloadExample.core); reflexivity.
Defined.

(** X23 on the files of the tests and a later file that defines
    ["message_a"] again, followed by a file that does not. *)
Lemma X23_witness :
  ∃ data,
    readFiles echo.unicodeLower LoadFilesExample.ReadFile
      LoadFilesExample.core
      (["test/zh-tw.json"; "test/zh_TW.json"]
         ++ "override/zh-TW.json" :: ["test/zh_tw.hello.json"]) ∅
    = inr data
    ∧ textOf data (nameInsenstive echo.unicodeLower "override/zh-TW.json")
        "message_a"
      = Some "Message A"
    ∧ LoadFiles echo.Parse echo.unicodeLower 1 LoadFilesExample.order
        LoadFilesExample.ReadFile LoadFilesExample.core
        (["test/zh-tw.json"; "test/zh_TW.json"]
           ++ "override/zh-TW.json" :: ["test/zh_tw.hello.json"])
      = LoadMap echo.Parse echo.unicodeLower 1 LoadFilesExample.order
          LoadFilesExample.core data.
Proof.
  apply (LoadFiles_later_file_wins echo.Parse echo.unicodeLower 1
           LoadFilesExample.order LoadFilesExample.ReadFile
           LoadFilesExample.core ["test/zh-tw.json"; "test/zh_TW.json"]
           "override/zh-TW.json" ["test/zh_tw.hello.json"]
           [Byte.x64] {[ "message_a" := "Message A" ]} "message_a"
           "Message A").
  - repeat (apply Forall_cons; split); [| | | |done];
      (eexists _, _; split; reflexivity).
  - reflexivity.
  - reflexivity.
  - reflexivity.
  - apply Forall_singleton. intros _ b' trans' Hread Hdecode.
    injection Hread as <-. injection Hdecode as <-. reflexivity.
Defined.

(** X24 on the two patterns of that directory. *)
Lemma X24_witness :
  LoadGlob echo.Parse echo.unicodeLower 1 LoadFilesExample.order
    LoadFilesExample.Glob LoadFilesExample.ReadFile LoadFilesExample.core
    ["test/*.json"; "override/*.json"]
  = LoadFiles echo.Parse echo.unicodeLower 1 LoadFilesExample.order
      LoadFilesExample.ReadFile LoadFilesExample.core
      (concat [LoadFilesExample.tests; ["override/zh-TW.json"]])
  ∧ LoadFS echo.Parse echo.unicodeLower 1 LoadFilesExample.order
      {| fs_Glob := LoadFilesExample.Glob;
         fs_ReadFile := LoadFilesExample.ReadFile |}
      LoadFilesExample.core ["test/*.json"; "override/*.json"]
    = LoadFiles echo.Parse echo.unicodeLower 1 LoadFilesExample.order
        LoadFilesExample.ReadFile LoadFilesExample.core
        (concat [LoadFilesExample.tests; ["override/zh-TW.json"]]).
Proof.
  apply (LoadGlob_loads_the_matches_in_order echo.Parse echo.unicodeLower 1
           LoadFilesExample.order LoadFilesExample.Glob
           LoadFilesExample.ReadFile LoadFilesExample.core
           ["test/*.json"; "override/*.json"]
           [LoadFilesExample.tests; ["override/zh-TW.json"]]).
  repeat constructor.
Defined.

(** X25 on a malformed pattern that follows one with matches. *)
Lemma X25_witness :
  LoadGlob echo.Parse echo.unicodeLower 1 LoadFilesExample.order
    LoadFilesExample.Glob LoadFilesExample.ReadFile LoadFilesExample.core
    (["test/*.json"] ++ "[" :: ["override/*.json"])
  = Returns (LoadFilesExample.core, Some "syntax error in pattern")
  ∧ LoadFS echo.Parse echo.unicodeLower 1 LoadFilesExample.order
      {| fs_Glob := LoadFilesExample.Glob;
         fs_ReadFile := LoadFilesExample.ReadFile |}
      LoadFilesExample.core (["test/*.json"] ++ "[" :: ["override/*.json"])
    = Returns (LoadFilesExample.core, Some "syntax error in pattern").
Proof.
  apply (LoadGlob_bad_pattern_reads_nothing echo.Parse echo.unicodeLower 1
           LoadFilesExample.order LoadFilesExample.Glob
           LoadFilesExample.ReadFile LoadFilesExample.core
           ["test/*.json"] "[" ["override/*.json"]
           "syntax error in pattern").
  - apply Forall_singleton. by eexists.
  - reflexivity.
Defined.
